(** * sync_folders.py: one-way folder synchronisation

    A shallow embedding of [src/sync_folders.py] and of the parts of the Python
    library it calls ([os], [shutil], [filecmp]), followed by the properties
    of the reconciliation engine.

    Modelling conventions.
    - The file system is one tree of nodes; a path is the list of its
      components below the root, so [os.path.join p name] is [p ++ [name]].
      Entry names are atomic: they come from [os.listdir] and hold no
      separator, hence [os.path.basename name = name].
    - A regular file carries its bytes and its modification time; these are
      what [filecmp] and [shutil.copy2] look at.  Symbolic links and special
      files are outside the model.
    - The operating system may refuse any call: an oracle [fault] says which
      calls fail and with which error.  A Python exception is the outcome
      [Raise]; the state reached when it was raised is kept, since the program
      has no handler.
    - The log file is an append-only list of records kept apart from the
      tree.
    - The state carries a ghost [trace] of the library calls made by the
      program, used to state ordering and footprint properties. *)

From stdpp Require Import base option list gmap sets strings sorting.
From Stdlib Require Import ZArith Lia.

Local Open Scope string_scope.
Local Open Scope nat_scope.
Local Open Scope list_scope.

(** ** The file system *)

#[warnings="-register-all"]
Inductive node :=
| File (data : string) (mtime : Z)
| Dir (entries : gmap string node).

Abbreviation path := (list string).

Definition is_dir (o : option node) : bool :=
  match o with Some (Dir _) => true | _ => false end.

Definition is_file (o : option node) : bool :=
  match o with Some (File _ _) => true | _ => false end.

(** Height of a tree: bounds the recursion of the reconciler. *)
Fixpoint depth (t : node) : nat :=
  match t with
  | File _ _ => 0
  | Dir m => S (map_fold (fun _ c acc => Nat.max (depth c) acc) 0 m)
  end.

(** Number of regular files anywhere below a node. *)
Fixpoint count_files (t : node) : nat :=
  match t with
  | File _ _ => 1
  | Dir m => map_fold (fun _ c acc => count_files c + acc) 0 m
  end.

(** Resolution of a path from a node. *)
Fixpoint lookup_path (t : node) (p : path) : option node :=
  match p with
  | [] => Some t
  | k :: p' =>
      match t with
      | Dir m => match m !! k with Some c => lookup_path c p' | None => None end
      | File _ _ => None
      end
  end.

(** [put t p v] binds the last component of [p] to [v] ([None] unbinds it)
    in the directory that holds it; nothing changes when that directory does
    not exist. *)
Fixpoint put (t : node) (p : path) (v : option node) : node :=
  match p with
  | [] => default t v
  | k :: p' =>
      match t with
      | Dir m =>
          match p' with
          | [] => Dir (partial_alter (fun _ => v) k m)
          | _ :: _ =>
              match m !! k with
              | Some c => Dir (<[k := put c p' v]> m)
              | None => t
              end
          end
      | File _ _ => t
      end
  end.

Definition parent (p : path) : path := removelast p.

Definition basename (p : path) : string := List.last p "".

(** Path prefix test, and paths none of which lies inside the other. *)
Fixpoint is_prefix (p q : path) : bool :=
  match p, q with
  | [], _ => true
  | _ :: _, [] => false
  | a :: p', b :: q' => if decide (a = b) then is_prefix p' q' else false
  end.

Definition apart (p q : path) : bool :=
  negb (is_prefix p q) && negb (is_prefix q p).

(** ** Errors, calls and events *)

Inductive error :=
| NotFound | NotADirectory | IsADirectory | FileExists
| PermissionDenied | IOError.

Inductive kind := Create | Copy | Delete.

(** The operating-system calls the program makes, directly or through the
    library; the oracle is asked about each. *)
Inductive op :=
| Listdir (p : path)
| Stat (p : path)
| ReadFile (p : path)
| Copytree (s d : path)
| Copy2 (s d : path)
| Remove (p : path)
| Rmtree (p : path)
| AppendLog.

(** A mutation of the tree, with the path it writes. *)
Inductive action :=
| PutTree (s d : path)     (* shutil.copytree wrote the tree at [d] *)
| PutFile (s d : path)     (* shutil.copy2 wrote the file at [d] *)
| DelFile (p : path)       (* os.remove *)
| DelTree (p : path).      (* shutil.rmtree *)

Inductive event :=
| Classified (a b : path) (la lb : list string) (* dircmp listed both sides *)
| Listed (p : path) (names : list string)       (* os.listdir by the applier *)
| Did (a : action)
| Logged (k : kind) (p : path)
| Failed (o : op) (e : error).

Definition target (a : action) : path :=
  match a with
  | PutTree _ d => d
  | PutFile _ d => d
  | DelFile p => p
  | DelTree p => p
  end.

Definition apply_action (t : node) (a : action) : node :=
  match a with
  | PutTree s d => put t d (lookup_path t s)
  | PutFile s d => put t d (lookup_path t s)
  | DelFile p => put t p None
  | DelTree p => put t p None
  end.

(** ** Program state and the exception monad *)

Record state := State {
  fs : node;
  log_lines : list (kind * path);
  file_created_count : nat;
  file_copied_count : nat;
  file_deleted_count : nat;
  trace : list event
}.

Inductive outcome (A : Type) :=
| Ok (a : A)
| Raise (e : error)
| OutOfFuel.
Arguments Ok {A} a.
Arguments Raise {A} e.
Arguments OutOfFuel {A}.

Definition M (A : Type) : Type := state -> outcome A * state.

Definition ret {A} (a : A) : M A := fun st => (Ok a, st).

Definition bind {A B} (m : M A) (f : A -> M B) : M B :=
  fun st =>
    match m st with
    | (Ok a, st') => f a st'
    | (Raise e, st') => (Raise e, st')
    | (OutOfFuel, st') => (OutOfFuel, st')
    end.

Definition raise {A} (e : error) : M A := fun st => (Raise e, st).

Notation "x <- m ;; k" := (bind m (fun x => k))
  (at level 20, m at level 99, k at level 200, only parsing).
Notation "m ;;; k" := (bind m (fun _ => k))
  (at level 100, k at level 200, right associativity, only parsing).

(** [for x in l: body x] *)
Fixpoint for_each {A} (l : list A) (body : A -> M unit) : M unit :=
  match l with
  | [] => ret tt
  | x :: l' => body x ;;; for_each l' body
  end.

(** [if l: m]: a Python list is true when it is not empty. *)
Definition when_nonempty {A} (l : list A) (m : M unit) : M unit :=
  match l with [] => ret tt | _ :: _ => m end.

Definition emit (e : event) : M unit :=
  fun st => (Ok tt, State (fs st) (log_lines st) (file_created_count st)
                          (file_copied_count st) (file_deleted_count st)
                          (trace st ++ [e])).

Definition set_fs (t : node) : M unit :=
  fun st => (Ok tt, State t (log_lines st) (file_created_count st)
                          (file_copied_count st) (file_deleted_count st)
                          (trace st)).

Definition get_fs : M node := fun st => (Ok (fs st), st).

Definition fail {A} (o : op) (e : error) : M A :=
  emit (Failed o e) ;;; raise e.

(** ** The library calls: [os], [shutil], [filecmp] *)

Inductive ftype := S_IFDIR | S_IFREG.

#[global] Instance ftype_eq_dec : EqDecision ftype.
Proof. solve_decision. Defined.

(** What [os.stat] gives and [filecmp._sig] keeps: type, size, mtime.  For a
    directory only the type is ever looked at. *)
Abbreviation sig := (ftype * nat * Z)%type.

Definition sig_eqb (s1 s2 : sig) : bool := bool_decide (s1 = s2).

(** [filecmp.DEFAULT_IGNORES], and the names [dircmp] hides. *)
Definition DEFAULT_IGNORES : list string :=
  ["RCS"; "CVS"; "tags"; ".git"; ".hg"; ".bzr"; "_darcs"; "__pycache__"].

Definition hide : list string := ["."; ".."].

Definition skipped (x : string) : bool :=
  bool_decide (x ∈ hide ++ DEFAULT_IGNORES).

(** [filecmp._filter flist skip] *)
Definition _filter (flist : list string) : list string :=
  filter (fun x => skipped x = false) flist.

(** Python's [list.sort] on names: code-point order. *)
Definition sort_names (l : list string) : list string :=
  merge_sort (fun x y => Is_true (String.leb x y)) l.

(** The attributes of a [filecmp.dircmp] object that phases 0 to 2 fill. *)
Record dircmp := Dircmp {
  left_list : list string;
  right_list : list string;
  common : list string;
  left_only : list string;
  right_only : list string;
  common_dirs : list string;
  common_files : list string;
  common_funny : list string
}.

Inductive cls := CDir | CFile | CFunny.

#[global] Instance cls_eq_dec : EqDecision cls.
Proof. solve_decision. Defined.

Section Program.

Variable fault : op -> option error.

(** [os.listdir]: the names in a directory, in no particular order. *)
Definition os_listdir (t : node) (p : path) : error + list string :=
  match fault (Listdir p) with
  | Some e => inl e
  | None =>
      match lookup_path t p with
      | None => inl NotFound
      | Some (File _ _) => inl NotADirectory
      | Some (Dir m) => inr (map_to_list m).*1
      end
  end.

(** [os.stat], [None] standing for [OSError]. *)
Definition os_stat (t : node) (p : path) : option sig :=
  match fault (Stat p) with
  | Some _ => None
  | None =>
      match lookup_path t p with
      | None => None
      | Some (File d m) => Some (S_IFREG, String.length d, m)
      | Some (Dir _) => Some (S_IFDIR, 0, 0%Z)
      end
  end.

(** [os.path.isdir]: false when the path cannot be examined. *)
Definition os_path_isdir (t : node) (p : path) : bool :=
  match os_stat t p with
  | Some (S_IFDIR, _, _) => true
  | _ => false
  end.

(** One step of [dircmp.phase2]. *)
Definition classify_common (t : node) (a b : path) (x : string) : cls :=
  match os_stat t (a ++ [x]), os_stat t (b ++ [x]) with
  | Some (a_type, _, _), Some (b_type, _, _) =>
      match a_type, b_type with
      | S_IFDIR, S_IFDIR => CDir
      | S_IFREG, S_IFREG => CFile
      | _, _ => CFunny
      end
  | _, _ => CFunny
  end.

(** [dircmp.phase0], [phase1] and [phase2] from the two raw listings. *)
Definition dircmp_of (t : node) (a b : path) (la lb : list string) : dircmp :=
  let left_list := sort_names (_filter la) in
  let right_list := sort_names (_filter lb) in
  let common := filter (fun x => x ∈ right_list) left_list in
  {| left_list := left_list;
     right_list := right_list;
     common := common;
     left_only := filter (fun x => x ∉ right_list) left_list;
     right_only := filter (fun x => x ∉ left_list) right_list;
     common_dirs := filter (fun x => classify_common t a b x = CDir) common;
     common_files := filter (fun x => classify_common t a b x = CFile) common;
     common_funny := filter (fun x => classify_common t a b x = CFunny) common |}.

(** [filecmp._do_cmp]: reads both files. *)
Definition _do_cmp (t : node) (f1 f2 : path) : option bool :=
  match fault (ReadFile f1), fault (ReadFile f2) with
  | None, None =>
      match lookup_path t f1, lookup_path t f2 with
      | Some (File d1 _), Some (File d2 _) => Some (bool_decide (d1 = d2))
      | _, _ => None
      end
  | _, _ => None
  end.

(** [filecmp.cmp f1 f2] with [shallow=True].  Its cache is keyed by both
    signatures and holds what [_do_cmp] gave for them, so it is left out. *)
Definition filecmp_cmp (t : node) (f1 f2 : path) : option bool :=
  match os_stat t f1, os_stat t f2 with
  | Some s1, Some s2 =>
      match s1, s2 with
      | (S_IFREG, size1, _), (S_IFREG, size2, _) =>
          if sig_eqb s1 s2 then Some true
          else if negb (Nat.eqb size1 size2) then Some false
          else _do_cmp t f1 f2
      | _, _ => Some false
      end
  | _, _ => None
  end.

(** [filecmp._cmp]: 0 same, 1 different, 2 could not compare. *)
Definition _cmp (t : node) (a b : path) : nat :=
  match filecmp_cmp t a b with
  | Some true => 0
  | Some false => 1
  | None => 2
  end.

(** [filecmp.cmpfiles a b common], that is [dircmp.phase3]. *)
Definition same_files (t : node) (a b : path) (l : list string) : list string :=
  filter (fun x => _cmp t (a ++ [x]) (b ++ [x]) = 0) l.
Definition diff_files (t : node) (a b : path) (l : list string) : list string :=
  filter (fun x => _cmp t (a ++ [x]) (b ++ [x]) = 1) l.
Definition funny_files (t : node) (a b : path) (l : list string) : list string :=
  filter (fun x => _cmp t (a ++ [x]) (b ++ [x]) = 2) l.

(** [shutil.copytree s d]: [d] must not exist.  Files keep their times
    ([copy2] is the copy function).  Where the directory that is to hold
    [d] is missing the library would create it; the program never asks for
    that, and the model reports [NotFound]. *)
Definition shutil_copytree (t : node) (s d : path) : error + node :=
  match fault (Copytree s d) with
  | Some e => inl e
  | None =>
      match lookup_path t s with
      | None => inl NotFound
      | Some (File _ _) => inl NotADirectory
      | Some (Dir m) =>
          match lookup_path t d with
          | Some _ => inl FileExists
          | None =>
              if is_dir (lookup_path t (parent d))
              then inr (put t d (Some (Dir m)))
              else inl NotFound
          end
      end
  end.

(** [shutil.copy2 s dest]: into [dest] when it is a directory, onto it
    otherwise; bytes and times are copied.  Gives the path written. *)
Definition shutil_copy2 (t : node) (s dest : path) : error + (path * node) :=
  match fault (Copy2 s dest) with
  | Some e => inl e
  | None =>
      let dst := if os_path_isdir t dest then dest ++ [basename s] else dest in
      match lookup_path t s with
      | None => inl NotFound
      | Some (Dir _) => inl IsADirectory
      | Some (File d m) =>
          if bool_decide (s = dst) then inl IOError
          else
            match lookup_path t dst with
            | Some (Dir _) => inl IsADirectory
            | _ =>
                if is_dir (lookup_path t (parent dst)) && negb (bool_decide (dst = []))
                then inr (dst, put t dst (Some (File d m)))
                else inl NotFound
            end
      end
  end.

(** [os.remove] *)
Definition os_remove (t : node) (p : path) : error + node :=
  match fault (Remove p) with
  | Some e => inl e
  | None =>
      match lookup_path t p with
      | None => inl NotFound
      | Some (Dir _) => inl IsADirectory
      | Some (File _ _) => inr (put t p None)
      end
  end.

(** [shutil.rmtree] *)
Definition shutil_rmtree (t : node) (p : path) : error + node :=
  match fault (Rmtree p) with
  | Some e => inl e
  | None =>
      match lookup_path t p with
      | None => inl NotFound
      | Some (File _ _) => inl NotADirectory
      | Some (Dir _) => inr (put t p None)
      end
  end.

(** *** The calls as steps of the program *)

Definition listdir (p : path) : M (list string) :=
  fun st =>
    match os_listdir (fs st) p with
    | inl e => fail (Listdir p) e st
    | inr l => (emit (Listed p l) ;;; ret l) st
    end.

Definition isdir (p : path) : M bool :=
  fun st => (Ok (os_path_isdir (fs st) p), st).

Definition copytree (s d : path) : M unit :=
  fun st =>
    match shutil_copytree (fs st) s d with
    | inl e => fail (Copytree s d) e st
    | inr t' => (set_fs t' ;;; emit (Did (PutTree s d))) st
    end.

Definition copy2 (s dest : path) : M unit :=
  fun st =>
    match shutil_copy2 (fs st) s dest with
    | inl e => fail (Copy2 s dest) e st
    | inr (dst, t') => (set_fs t' ;;; emit (Did (PutFile s dst))) st
    end.

Definition remove (p : path) : M unit :=
  fun st =>
    match os_remove (fs st) p with
    | inl e => fail (Remove p) e st
    | inr t' => (set_fs t' ;;; emit (Did (DelFile p))) st
    end.

Definition rmtree (p : path) : M unit :=
  fun st =>
    match shutil_rmtree (fs st) p with
    | inl e => fail (Rmtree p) e st
    | inr t' => (set_fs t' ;;; emit (Did (DelTree p))) st
    end.

(** First access to an attribute of phases 0 to 2 of [dircmp a b]: both
    directories are listed, the common names examined. *)
Definition dircmp_scan (a b : path) : M dircmp :=
  fun st =>
    match os_listdir (fs st) a with
    | inl e => fail (Listdir a) e st
    | inr la =>
        match os_listdir (fs st) b with
        | inl e => fail (Listdir b) e st
        | inr lb =>
            (emit (Classified a b la lb) ;;; ret (dircmp_of (fs st) a b la lb)) st
        end
    end.

(** First access to [diff_files]: phase 3, on the files as they are then. *)
Definition dircmp_diff_files (a b : path) (c : dircmp) : M (list string) :=
  fun st => (Ok (diff_files (fs st) a b (common_files c)), st).

(** ** The program: class [SyncObject] *)

Definition incr_created : M unit :=
  fun st => (Ok tt, State (fs st) (log_lines st) (file_created_count st + 1)
                          (file_copied_count st) (file_deleted_count st)
                          (trace st)).

Definition incr_copied : M unit :=
  fun st => (Ok tt, State (fs st) (log_lines st) (file_created_count st)
                          (file_copied_count st + 1) (file_deleted_count st)
                          (trace st)).

Definition incr_deleted : M unit :=
  fun st => (Ok tt, State (fs st) (log_lines st) (file_created_count st)
                          (file_copied_count st) (file_deleted_count st + 1)
                          (trace st)).

(** [write_log]: opens the log in append mode and adds one line.  [type]
    is one of the three literals the program passes. *)
Definition write_log (type : kind) (file : path) : M unit :=
  fun st =>
    match fault AppendLog with
    | Some e => fail AppendLog e st
    | None =>
        (Ok tt, State (fs st) (log_lines st ++ [(type, file)])
                      (file_created_count st) (file_copied_count st)
                      (file_deleted_count st)
                      (trace st ++ [Logged type file]))
    end.

Definition copy_files (file_list : list string) (src dest : path)
    (new : bool) : M unit :=
  for_each file_list (fun file =>
    let srcpath := src ++ [basename [file]] in
    d <- isdir srcpath ;;
    if d then
      (copytree srcpath (dest ++ [basename [file]]) ;;;
       if new then
         (names <- listdir srcpath ;;
          for_each names (fun file =>
            incr_created ;;;
            write_log Create (srcpath ++ [file])))
       else
         (names <- listdir srcpath ;;
          for_each names (fun file =>
            incr_copied ;;;
            write_log Copy (srcpath ++ [file]))))
    else
      (copy2 srcpath dest ;;;
       if new then
         (incr_created ;;;
          write_log Create srcpath)
       else
         (incr_copied ;;;
          write_log Copy srcpath))).

Definition delete_files (file_list : list string) (folder : path) : M unit :=
  for_each file_list (fun file =>
    let srcpath := folder ++ [basename [file]] in
    d <- isdir srcpath ;;
    if d then
      (names <- listdir srcpath ;;
       for_each names (fun file =>
         incr_deleted ;;;
         write_log Delete (srcpath ++ [file])) ;;;
       rmtree srcpath)
    else
      (remove srcpath ;;;
       incr_deleted ;;;
       write_log Delete srcpath)).

(** [compare_folders], with [fuel] bounding the depth of the recursion. *)
Fixpoint compare_folders (fuel : nat) (src repl : path) : M unit :=
  match fuel with
  | 0 => fun st => (OutOfFuel, st)
  | S fuel' =>
      compare_obj <- dircmp_scan src repl ;;
      when_nonempty (common_dirs compare_obj)
        (for_each (common_dirs compare_obj) (fun folder =>
           compare_folders fuel' (src ++ [folder]) (repl ++ [folder]))) ;;;
      when_nonempty (left_only compare_obj)
        (copy_files (left_only compare_obj) src repl true) ;;;
      when_nonempty (right_only compare_obj)
        (delete_files (right_only compare_obj) repl) ;;;
      diff <- dircmp_diff_files src repl compare_obj ;;
      when_nonempty diff
        (copy_files diff src repl false)
  end.

Definition reset_counts : M unit :=
  fun st => (Ok tt, State (fs st) (log_lines st) 0 0 0 (trace st)).

(** One turn of the loop of [compare_root]: a run, the counts it prints,
    the reset. *)
Definition compare_root_once (fuel : nat) (source replica : path)
    : M (nat * nat * nat) :=
  compare_folders fuel source replica ;;;
  printed <- (fun st => (Ok (file_created_count st, file_copied_count st,
                             file_deleted_count st), st)) ;;
  reset_counts ;;;
  ret printed.

(** The first [rounds] turns of [compare_root], with what each printed. *)
Fixpoint compare_root (rounds fuel : nat) (source replica : path)
    : M (list (nat * nat * nat)) :=
  match rounds with
  | 0 => ret []
  | S rounds' =>
      printed <- compare_root_once fuel source replica ;;
      rest <- compare_root rounds' fuel source replica ;;
      ret (printed :: rest)
  end.

End Program.

(** The oracle of a system that refuses nothing. *)
Definition no_fault : op -> option error := fun _ => None.

Definition init (t : node) : state := State t [] 0 0 0 [].

(** ** Reading a run: status, trace, log *)

Inductive status := SOk | SRaise (e : error) | SFuel.

Definition status_of {A} (r : outcome A) : status :=
  match r with
  | Ok _ => SOk
  | Raise e => SRaise e
  | OutOfFuel => SFuel
  end.

(** [sat R m]: every execution of [m] relates its two ends by [R]. *)
Definition sat {A} (R : status -> state -> state -> Prop) (m : M A) : Prop :=
  forall st r st', m st = (r, st') -> R (status_of r) st st'.

(** Relations that compose along a sequence of steps. *)
Class Seq (R : status -> state -> state -> Prop) : Prop := {
  seq_refl : forall st, R SOk st st;
  seq_trans : forall x a b c, R SOk a b -> R x b c -> R x a c
}.

(** The tree after the mutations recorded in a trace. *)
Definition replay1 (t : node) (e : event) : node :=
  match e with
  | Did a => apply_action t a
  | _ => t
  end.

Definition replay (evs : list event) (t : node) : node := foldl replay1 t evs.

Definition is_failed (e : event) : bool :=
  match e with Failed _ _ => true | _ => false end.

(** No call failed. *)
Definition clean (evs : list event) : Prop :=
  Forall (fun e => is_failed e = false) evs.

(** How a trace ends: an exception is the last event, and the only failure. *)
Definition shape (x : status) (evs : list event) : Prop :=
  match x with
  | SRaise e => exists evs0 o, evs = evs0 ++ [Failed o e] /\ clean evs0
  | _ => clean evs
  end.

(** The log lines a trace wrote. *)
Definition logs_of (evs : list event) : list (kind * path) :=
  flat_map (fun e => match e with Logged k p => [(k, p)] | _ => [] end) evs.

#[global] Instance kind_eq_dec : EqDecision kind.
Proof. solve_decision. Defined.

Definition count_kind (k : kind) (l : list (kind * path)) : nat :=
  length (filter (fun r => fst r = k) l).

(** The discipline every run keeps: the trace grows, the tree is what the
    recorded mutations make of it, a failure ends the run, the log holds the
    logged lines, and a run that completes counted one per line. *)
Definition disciplined (x : status) (st st' : state) : Prop :=
  exists evs,
    trace st' = trace st ++ evs /\
    fs st' = replay evs (fs st) /\
    shape x evs /\
    log_lines st' = log_lines st ++ logs_of evs /\
    (x = SOk ->
     file_created_count st' = file_created_count st + count_kind Create (logs_of evs) /\
     file_copied_count st' = file_copied_count st + count_kind Copy (logs_of evs) /\
     file_deleted_count st' = file_deleted_count st + count_kind Delete (logs_of evs)).

(** [emits I Q]: started where [I] holds of the tree, a step keeps [I] and
    adds to the trace events that satisfy [Q]. *)
Definition emits (I : node -> Prop) (Q : list event -> Prop)
    (x : status) (st st' : state) : Prop :=
  I (fs st) ->
  I (fs st') /\ exists evs, trace st' = trace st ++ evs /\ Q evs.

Class Monoidal (Q : list event -> Prop) : Prop := {
  mon_nil : Q [];
  mon_app : forall e1 e2, Q e1 -> Q e2 -> Q (e1 ++ e2)
}.

(** The events of a first part, then those of a second. *)
Definition dot (Q1 Q2 : list event -> Prop) (evs : list event) : Prop :=
  exists e1 e2, evs = e1 ++ e2 /\ Q1 e1 /\ Q2 e2.

(** An action that [Q] admits and [I] survives. *)
Definition adm (I : node -> Prop) (Q : list event -> Prop) (a : action) : Prop :=
  Q [Did a] /\ forall t, I t -> I (apply_action t a).

(** [w] lies strictly inside the directory [p]. *)
Definition inside (p w : path) : Prop := exists x q, w = p ++ x :: q.

Definition is_delete (a : action) : bool :=
  match a with DelFile _ | DelTree _ => true | _ => false end.

(** An event that writes nowhere but strictly inside [repl]. *)
Definition writes_inside (repl : path) (e : event) : Prop :=
  match e with
  | Did a => inside repl (target a)
  | _ => True
  end.

(** An event that writes neither at [p] nor below it. *)
Definition avoids (p : path) (e : event) : Prop :=
  match e with
  | Did a => is_prefix p (target a) = false
  | _ => True
  end.

(** The same name is a directory on one side and a regular file on the
    other. *)
Definition type_clash (t : node) (src repl : path) (k : string) : Prop :=
  (is_dir (lookup_path t (src ++ [k])) = true /\
   is_file (lookup_path t (repl ++ [k])) = true) \/
  (is_file (lookup_path t (src ++ [k])) = true /\
   is_dir (lookup_path t (repl ++ [k])) = true).

(** A deletion is justified by a classification recorded in [ctx]: that of
    the directory pair holding its target, whose source listing lacks the
    name and whose replica listing has it. *)
Definition justified (src repl : path) (ctx : list event) (a : action) : Prop :=
  exists q k la lb,
    target a = repl ++ q ++ [k] /\ (k ∉ la) /\ k ∈ lb /\
    Classified (src ++ q) (repl ++ q) la lb ∈ ctx.

(** Every deletion in [evs] is justified by what came before it. *)
Definition contained (src repl : path) (ctx evs : list event) : Prop :=
  forall e1 a e2,
    evs = e1 ++ Did a :: e2 -> is_delete a = true ->
    justified src repl (ctx ++ e1) a.

(** *** Example trees *)

(** The first scenario of the specification: a file and a subdirectory to
    create in an empty replica. *)
Definition tree_fresh : node :=
  Dir {[ "src" := Dir {[ "a.txt" := File "X" 1;
                         "sub" := Dir {[ "b.txt" := File "y" 2 ]} ]};
         "repl" := Dir ∅ ]}.

(** A replica with a stale directory, a file to create. *)
Definition tree_stale : node :=
  Dir {[ "src" := Dir {[ "a.txt" := File "X" 1 ]};
         "repl" := Dir {[ "old" := Dir {[ "x" := File "o" 0 ]} ]} ]}.

(** The source lies inside the replica. *)
Definition tree_nested : node :=
  Dir {[ "r" := Dir {[ "s" := Dir {[ "f" := File "X" 1 ]} ]} ]}.

(** The replica [r/a] lies inside the source [r]. *)
Definition tree_inside : node :=
  Dir {[ "r" := Dir {[ "a" := Dir ∅; "f" := File "X" 1 ]} ]}.

(** The name [k] is a file in the source and a directory in the replica. *)
Definition tree_clash : node :=
  Dir {[ "src" := Dir {[ "k" := File "X" 1 ]};
         "repl" := Dir {[ "k" := Dir ∅ ]} ]}.

(** The same file on both sides. *)
Definition tree_same : node :=
  Dir {[ "src" := Dir {[ "a" := File "X" 1 ]};
         "repl" := Dir {[ "a" := File "X" 1 ]} ]}.

(** A system that refuses to remove directories. *)
Definition fault_rmtree (o : op) : option error :=
  match o with
  | Rmtree _ => Some PermissionDenied
  | _ => None
  end.

(** A directory to create that holds a directory of two files. *)
Definition tree_deep : node :=
  Dir {[ "src" := Dir {[ "d" := Dir {[ "e" := Dir {[ "x" := File "1" 0;
                                                     "y" := File "2" 0 ]} ]} ]};
         "repl" := Dir ∅ ]}.

(** Something of each category: a common directory, a file to create, a
    stale file, a file that differs. *)
Definition tree_mixed : node :=
  Dir {[ "src" := Dir {[ "sub" := Dir {[ "b.txt" := File "y" 2 ]};
                         "new.txt" := File "n" 3;
                         "a.txt" := File "X" 5 ]};
         "repl" := Dir {[ "sub" := Dir ∅;
                          "stale.txt" := File "s" 1;
                          "a.txt" := File "Y" 4 ]} ]}.

(** The counter that goes with a kind of record. *)
Definition counter (k : kind) (st : state) : nat :=
  match k with
  | Create => file_created_count st
  | Copy => file_copied_count st
  | Delete => file_deleted_count st
  end.

Definition incr (k : kind) : M unit :=
  match k with
  | Create => incr_created
  | Copy => incr_copied
  | Delete => incr_deleted
  end.

(** The events of the four stages of one call. *)
Definition recursion_event (repl : path) (l : list string) (ev : event) : Prop :=
  match ev with
  | Did a => exists d, d ∈ l /\ inside (repl ++ [d]) (target a)
  | _ => True
  end.

Definition copy_event (k : kind) (src repl : path) (l : list string)
    (ev : event) : Prop :=
  match ev with
  | Did (PutTree s d) | Did (PutFile s d) =>
      exists x, x ∈ l /\ s = src ++ [x] /\ d = repl ++ [x]
  | Did (DelFile _) | Did (DelTree _) => False
  | Logged k' _ => k' = k
  | Classified _ _ _ _ => False
  | Listed _ _ | Failed _ _ => True
  end.

Definition deletion_event (repl : path) (l : list string) (ev : event) : Prop :=
  match ev with
  | Did (DelFile p) | Did (DelTree p) => exists x, x ∈ l /\ p = repl ++ [x]
  | Did (PutTree _ _) | Did (PutFile _ _) => False
  | Logged k' _ => k' = Delete
  | Classified _ _ _ _ => False
  | Listed _ _ | Failed _ _ => True
  end.

(** What copying the entry [file] of [src] leaves in the log and in the
    counters, from [st] to [st']: one record of kind [k] and one count for
    each name the directory lists when it is one, one record and one count
    for a regular file. *)
Definition copy_logged (fault : op -> option error) (file : string)
    (src : path) (new : bool) (st st' : state) : Prop :=
  let k := if new then Create else Copy in
  let srcpath := src ++ [file] in
  (forall k', k' <> k -> counter k' st' = counter k' st) /\
  if os_path_isdir fault (fs st) srcpath then
    exists m,
      lookup_path (fs st') srcpath = Some (Dir m) /\
      log_lines st' =
        log_lines st ++ ((fun f => (k, srcpath ++ [f])) <$> (map_to_list m).*1) /\
      counter k st' = counter k st + size m
  else
    log_lines st' = log_lines st ++ [(k, srcpath)] /\
    counter k st' = counter k st + 1.

(** The same for deleting the entry [file] of [folder]. *)
Definition delete_logged (fault : op -> option error) (file : string)
    (folder : path) (st st' : state) : Prop :=
  let srcpath := folder ++ [file] in
  (forall k', k' <> Delete -> counter k' st' = counter k' st) /\
  if os_path_isdir fault (fs st) srcpath then
    exists m,
      lookup_path (fs st) srcpath = Some (Dir m) /\
      log_lines st' =
        log_lines st ++ ((fun f => (Delete, srcpath ++ [f])) <$> (map_to_list m).*1) /\
      counter Delete st' = counter Delete st + size m
  else
    log_lines st' = log_lines st ++ [(Delete, srcpath)] /\
    counter Delete st' = counter Delete st + 1.

(** ** The mirror, as a function on directories

    What one run makes of the replica directory [r] given the source
    directory [s], written from the effect of the four stages on each name;
    [compare_folders_sync] below shows that the program computes it. *)

(** Two regular files that [filecmp.cmp] takes for the same: equal
    signatures, or equal sizes and equal bytes. *)
Definition same_file (d1 : string) (t1 : Z) (d2 : string) (t2 : Z) : bool :=
  Nat.eqb (String.length d1) (String.length d2) &&
  (Z.eqb t1 t2 || bool_decide (d1 = d2)).

Definition sync_entry (rec : gmap string node -> gmap string node -> gmap string node)
    (k : string) (a b : option node) : option node :=
  if skipped k then b
  else
    match a, b with
    | Some (Dir s'), Some (Dir r') => Some (Dir (rec s' r'))
    | Some (File d1 t1), Some (File d2 t2) =>
        if same_file d1 t1 d2 t2 then b else a
    | Some _, Some _ => b
    | Some x, None => Some x
    | None, _ => None
    end.

Fixpoint sync (n : nat) (s r : gmap string node) : gmap string node :=
  match n with
  | 0 => r
  | S n' =>
      map_imap (fun k _ => sync_entry (sync n') k (s !! k) (r !! k)) (s ∪ r)
  end.

(** A replica directory on which a run has nothing to do. *)
Fixpoint settled (n : nat) (s r : gmap string node) : Prop :=
  match n with
  | 0 => True
  | S n' =>
      forall k, skipped k = false ->
        match s !! k, r !! k with
        | Some (Dir a), Some (Dir b) => settled n' a b
        | Some (File d1 t1), Some (File d2 t2) => same_file d1 t1 d2 t2 = true
        | Some _, Some _ => True
        | None, None => True
        | _, _ => False
        end
  end.

(** A pair of directories on which the comparison of [dircmp] misses
    nothing, at every pair of directories a run visits: no name it ignores,
    no name that is a file on one side and a directory on the other, no two
    files it takes for the same that differ. *)
Definition entry_ok (rec : gmap string node -> gmap string node -> bool)
    (k : string) (a b : option node) : bool :=
  negb (skipped k) &&
  match a, b with
  | Some (Dir s'), Some (Dir r') => rec s' r'
  | Some (File d1 t1), Some (File d2 t2) =>
      implb (same_file d1 t1 d2 t2) (bool_decide (d1 = d2))
  | Some _, Some _ => false
  | _, _ => true
  end.

Fixpoint faithful (n : nat) (s r : gmap string node) : bool :=
  match n with
  | 0 => true
  | S n' =>
      forallb (fun k => entry_ok (faithful n') k (s !! k) (r !! k))
        (map_to_list (s ∪ r)).*1
  end.

(** Two entries that mirror each other: both absent, both directories, or
    both files with the same bytes. *)
Definition agree (a b : option node) : Prop :=
  match a, b with
  | None, None => True
  | Some (Dir _), Some (Dir _) => True
  | Some (File d1 _), Some (File d2 _) => d1 = d2
  | _, _ => False
  end.

Definition is_classified (e : event) : Prop :=
  match e with Classified _ _ _ _ => True | _ => False end.

(** A step that acted on nothing: same tree, same log, same counters, and
    no event but classifications. *)
Definition quiet (st st' : state) : Prop :=
  fs st' = fs st /\
  log_lines st' = log_lines st /\
  (forall k, counter k st' = counter k st) /\
  exists evs, trace st' = trace st ++ evs /\ Forall is_classified evs.

(** Examples on which the comparison misses a difference. *)

(** A name from the ignore list of [dircmp] in the source. *)
Definition tree_ignored : node :=
  Dir {[ "src" := Dir {[ ".git" := Dir {[ "HEAD" := File "ref" 1 ]} ]};
         "repl" := Dir ∅ ]}.

(** Two files of the same size and time, different bytes. *)
Definition tree_shallow : node :=
  Dir {[ "src" := Dir {[ "a.txt" := File "X" 1 ]};
         "repl" := Dir {[ "a.txt" := File "Y" 1 ]} ]}.

(** Two files of the same size, different times and bytes. *)
Definition tree_differ : node :=
  Dir {[ "src" := Dir {[ "a.txt" := File "X" 2 ]};
         "repl" := Dir {[ "a.txt" := File "Y" 1 ]} ]}.

(** A system on which [os.stat] fails. *)
Definition fault_stat (o : op) : option error :=
  match o with
  | Stat _ => Some PermissionDenied
  | _ => None
  end.

(** The tree [fs0] with [m] for the directory at [repl]. *)
Definition with_replica (fs0 : node) (repl : path) (m : gmap string node) : node :=
  put fs0 repl (Some (Dir m)).

(** What a run makes of the entry [k]. *)
Definition mirror_entry (n : nat) (s r : gmap string node) (k : string)
    : option node :=
  sync_entry (sync n) k (s !! k) (r !! k).

(** The classification of the directories [s] at [src] and [r] at [repl]. *)
Definition pair_dircmp (fs0 : node) (src repl : path)
    (s r : gmap string node) : dircmp :=
  dircmp_of no_fault fs0 src repl (map_to_list s).*1 (map_to_list r).*1.

(** ** The process: start-up, and the loop of [compare_root] with its sleep

    [parse_arguments], the two constructors and the loop as the process
    runs them.  The three counters of the one [SyncObject] of the process are
    those of the state.  Of the console only the line of counts that ends a
    turn is kept, as a triple. *)

Inductive exn :=
| OSError (e : error)
| TypeError
| ValueError
| OverflowError.

(** What [parser.parse_args()] gives: the two positionals, and for the two
    options [None] where the command line has none. *)
Module Namespace.
Record t := Make {
  src_path : string;
  repl_path : string;
  interval : option Z;
  log_file : option string
}.
End Namespace.

Module Folder.
Record t := Make {
  name : string;
  root_path : path;
  file_list : list string
}.
End Folder.

Module SyncObject.
Record t := Make {
  name : string;
  source : Folder.t;
  replica : Folder.t;
  interval : option Z;
  log_file : path
}.
End SyncObject.

Record process := Process {
  mem : state;
  stdout : list (nat * nat * nat)
}.

(** How the observation of a process ends: it returned, it died of an
    exception, or the observation stopped first, after the turns of the loop
    it was given or for lack of fuel in [compare_folders]. *)
Inductive ending (A : Type) :=
| Returned (a : A)
| Uncaught (x : exn)
| StillLooping
| TooDeep.
Arguments Returned {A} a.
Arguments Uncaught {A} x.
Arguments StillLooping {A}.
Arguments TooDeep {A}.

Definition Proc (A : Type) : Type := process -> ending A * process.

Definition retP {A} (a : A) : Proc A := fun p => (Returned a, p).

Definition raiseP {A} (x : exn) : Proc A := fun p => (Uncaught x, p).

Definition bindP {A B} (m : Proc A) (f : A -> Proc B) : Proc B :=
  fun p =>
    match m p with
    | (Returned a, p') => f a p'
    | (Uncaught x, p') => (Uncaught x, p')
    | (StillLooping, p') => (StillLooping, p')
    | (TooDeep, p') => (TooDeep, p')
    end.

Notation "x <~ m ;; k" := (bindP m (fun x => k))
  (at level 20, m at level 99, k at level 200, only parsing).
Notation "m ;;~ k" := (bindP m (fun _ => k))
  (at level 100, k at level 200, right associativity, only parsing).

(** A step of the program run by the process; its errors are [OSError]s. *)
Definition lift {A} (m : M A) : Proc A :=
  fun p =>
    match m (mem p) with
    | (Ok a, st') => (Returned a, Process st' (stdout p))
    | (Raise e, st') => (Uncaught (OSError e), Process st' (stdout p))
    | (OutOfFuel, st') => (TooDeep, Process st' (stdout p))
    end.

(** [print("Files created: " + ..., "Files copied: " + ..., ...)] *)
Definition print_counts : Proc unit :=
  fun p => (Returned tt,
            Process (mem p)
              (stdout p ++ [(file_created_count (mem p),
                             file_copied_count (mem p),
                             file_deleted_count (mem p))])).

Section Process.

Variable fault : op -> option error.

(** [os.path.abspath] on a string, for the working directory of the
    process. *)
Variable abspath : string -> path.

(** What [time.sleep] raises for an integer, [None] when it sleeps. *)
Variable sleep_fault : Z -> option exn.

(** [time.sleep]: [None] is no number. *)
Definition time_sleep (secs : option Z) : Proc unit :=
  match secs with
  | None => raiseP TypeError
  | Some n =>
      match sleep_fault n with
      | Some x => raiseP x
      | None => retP tt
      end
  end.

Definition Folder__init__ (path : string) (name : string) : Proc Folder.t :=
  let root_path := abspath path in
  file_list <~ lift (listdir fault root_path) ;;
  retP (Folder.Make name root_path file_list).

(** [os.path.abspath(log_file)] raises [TypeError] on [None], before the
    counters are set. *)
Definition SyncObject__init__ (source replica : Folder.t)
    (interval : option Z) (log_file : option string) (name : string)
    : Proc SyncObject.t :=
  match log_file with
  | None => raiseP TypeError
  | Some f =>
      lift reset_counts ;;~
      retP (SyncObject.Make name source replica interval (abspath f))
  end.

(** The arguments of the call are evaluated from left to right. *)
Definition parse_arguments (args : Namespace.t) : Proc SyncObject.t :=
  source <~ Folder__init__ (Namespace.src_path args) "" ;;
  replica <~ Folder__init__ (Namespace.repl_path args) "" ;;
  SyncObject__init__ source replica (Namespace.interval args)
    (Namespace.log_file args) "test".

(** [while True] of [compare_root], observed for [turns] turns. *)
Fixpoint compare_root_loop (turns fuel : nat) (self : SyncObject.t)
    : Proc Empty_set :=
  match turns with
  | 0 => fun p => (StillLooping, p)
  | S turns' =>
      lift (compare_folders fault fuel
              (Folder.root_path (SyncObject.source self))
              (Folder.root_path (SyncObject.replica self))) ;;~
      print_counts ;;~
      lift reset_counts ;;~
      time_sleep (SyncObject.interval self) ;;~
      compare_root_loop turns' fuel self
  end.

(** [if __name__ == "__main__"] *)
Definition main (turns fuel : nat) (args : Namespace.t) : Proc Empty_set :=
  sync <~ parse_arguments args ;;
  compare_root_loop turns fuel sync.

End Process.

(** A process about to start on the tree [t]. *)
Definition boot (t : node) : process := Process (init t) [].

(** ** The text of the log

    The line [write_log type file] writes to the log file, [None] where it
    writes none; the console gets the same line. *)

Definition newline : string := String (Ascii.ascii_of_nat 10) "".

Definition log_line (type file : string) : option string :=
  if String.eqb type "create" then Some ("Created file: " +:+ file +:+ newline)
  else if String.eqb type "copy" then Some ("Copied file: " +:+ file +:+ newline)
  else if String.eqb type "delete" then Some ("Deleted file: " +:+ file +:+ newline)
  else None.

(** The literal the program passes for each kind of record. *)
Definition type_of (k : kind) : string :=
  match k with
  | Create => "create"
  | Copy => "copy"
  | Delete => "delete"
  end.

(** The process after a turn of the loop whose run ended in [st1]: the
    counts are on the console, the counters are back to zero. *)
Definition after_turn (p : process) (st1 : state) : process :=
  Process (State (fs st1) (log_lines st1) 0 0 0 (trace st1))
    (stdout p ++ [(file_created_count st1, file_copied_count st1,
                   file_deleted_count st1)]).

(** The three numbers of a line of counts. *)
Definition created (c : nat * nat * nat) : nat := c.1.1.
Definition copied (c : nat * nat * nat) : nat := c.1.2.
Definition deleted (c : nat * nat * nat) : nat := c.2.

(** An event that, when it is the record of a copy, names a regular file
    of the tree [t0] inside [src]. *)
Definition copy_of_file (t0 : node) (src : path) (e : event) : Prop :=
  match e with
  | Logged Copy p => is_file (lookup_path t0 p) = true /\ inside src p
  | _ => True
  end.

(** *** Example processes *)

(** A replica under version control, with a stale file. *)
Definition tree_vcs : node :=
  Dir {[ "src" := Dir {[ "a.txt" := File "X" 1 ]};
         "repl" := Dir {[ ".git" := Dir {[ "HEAD" := File "ref" 1 ]};
                          "old" := File "o" 0 ]} ]}.

(** An empty source beside the same replica. *)
Definition tree_unmounted : node :=
  Dir {[ "src" := Dir ∅;
         "repl" := Dir {[ ".git" := Dir {[ "HEAD" := File "ref" 1 ]};
                          "old" := File "o" 0 ]} ]}.

(** A process whose working directory is the root, given plain names. *)
Definition abspath_root (s : string) : path := [s].

(** A [time.sleep] that refuses negative lengths. *)
Definition sleep_nonneg (n : Z) : option exn :=
  if (n <? 0)%Z then Some ValueError else None.

(** [sync_folders.py src repl --log_file sync.log] *)
Definition args_no_interval : Namespace.t :=
  Namespace.Make "src" "repl" None (Some "sync.log").

Definition sync_every_second : SyncObject.t :=
  SyncObject.Make "test" (Folder.Make "" ["src"] []) (Folder.Make "" ["repl"] [])
    (Some 1%Z) ["sync.log"].

(** A system on which [os.stat] fails at the one path [p]. *)
Definition fault_stat_at (p : path) (o : op) : option error :=
  match o with
  | Stat q => if bool_decide (q = p) then Some PermissionDenied else None
  | _ => None
  end.

(** The writes of a trace, in order. *)
Definition actions (evs : list event) : list action :=
  flat_map (fun e => match e with Did a => [a] | _ => [] end) evs.

(** A step from [st] to [st'] added the events [evs]. *)
Definition adds (st st' : state) (evs : list event) : Prop :=
  trace st' = trace st ++ evs.

(** * The program on disk

    The model above keeps the log apart from the tree, compares files
    without the cache of [filecmp], and takes a failing library call to have
    done nothing.  This part drops the three simplifications.
    - [write_log] opens [self.log_file], a path of the same tree, in append
      mode and adds its line to it; the file is made when it is not there,
      and its time is that of the write.
    - [filecmp.cmp] keeps what [_do_cmp] answered in [filecmp._cache], keyed
      by the two paths and the two signatures; the cache lives as long as
      the process, and is passed from call to call.
    - A failing [shutil.rmtree] has removed some of the entries below its
      directory, a failing [shutil.copytree] has made the target and copied
      some of the entries, a failing [shutil.copy2] may have written the
      first bytes of the target; [shutil.copytree] makes the directories on
      the way to its target.
    The calls that only read, and [os.remove], are those above. *)

Module Disk.

(** The system: which calls it refuses, what a refused call had done
    before it failed, and the time. *)
Record world := World {
  refuses : op -> option error;
  (* the paths, below the target, that a refused [rmtree] had removed, or
     that a refused [copytree] did not copy; at [[]], that the target itself
     was not made *)
  leaves : op -> path -> bool;
  (* the number of bytes a refused [copy2] had written, if it had opened
     its target *)
  tears : op -> option nat;
  (* the time of the call made after [n] events *)
  clock : nat -> Z
}.

(** A system that refuses nothing. *)
Definition calm (w : world) : Prop := forall o, refuses w o = None.

(** [filecmp._cache] *)
Definition cache : Type := list ((path * path * sig * sig) * bool).

Fixpoint cache_get (c : cache) (k : path * path * sig * sig) : option bool :=
  match c with
  | [] => None
  | (k', o) :: c' => if decide (k' = k) then Some o else cache_get c' k
  end.

(** [if len(_cache) > 100: _cache.clear()], then [_cache[k] = o], for a key
    that is not there. *)
Definition cache_set (c : cache) (k : path * path * sig * sig) (o : bool)
    : cache :=
  (k, o) :: (if decide (100 < length c) then [] else c).

(** What is left of a tree some of whose entries are gone; [p] is the path
    of the node below the target of the call. *)
Fixpoint prune (gone : path -> bool) (p : path) (n : node) : node :=
  match n with
  | File d m => File d m
  | Dir m =>
      Dir (map_imap (fun k c =>
             if gone (p ++ [k]) then None
             else Some (prune gone (p ++ [k]) c)) m)
  end.

(** [os.makedirs p] with [exist_ok=True]: every directory on the way is
    made when it is not there; [None] when a regular file is in the way. *)
Fixpoint makedirs (t : node) (p : path) : option node :=
  match p with
  | [] => match t with Dir _ => Some t | File _ _ => None end
  | k :: p' =>
      match t with
      | File _ _ => None
      | Dir m =>
          match makedirs (default (Dir ∅) (m !! k)) p' with
          | Some c => Some (Dir (<[k := c]> m))
          | None => None
          end
      end
  end.

(** A path as the string the program writes. *)
Definition path_str (p : path) : string := String.concat "/" ("" :: p).

(** The line of a record. *)
Definition line (k : kind) (p : path) : string :=
  default "" (log_line (type_of k) (path_str p)).

(** [for x in l: c = body x c] *)
Fixpoint fold_each {A C} (l : list A) (body : A -> C -> M C) (c : C) : M C :=
  match l with
  | [] => ret c
  | x :: l' => c1 <- body x c ;; fold_each l' body c1
  end.

(** [if l: c = m] *)
Definition when_some {A C} (l : list A) (m : M C) (c : C) : M C :=
  match l with
  | [] => ret c
  | _ :: _ => m
  end.

(** A failing call that leaves the tree [t']. *)
Definition failing {A} (o : op) (e : error) (t' : node) : M A :=
  set_fs t' ;;; fail o e.

Section Program.

Variable w : world.
Variable log_file : path.

(** *** The library *)

(** [filecmp.cmp f1 f2], [shallow=True], with the cache before and after;
    [None] stands for [OSError]. *)
Definition filecmp_cmp (t : node) (c : cache) (f1 f2 : path)
    : option bool * cache :=
  match os_stat (refuses w) t f1, os_stat (refuses w) t f2 with
  | Some s1, Some s2 =>
      match s1, s2 with
      | (S_IFREG, size1, _), (S_IFREG, size2, _) =>
          if sig_eqb s1 s2 then (Some true, c)
          else if negb (Nat.eqb size1 size2) then (Some false, c)
          else
            match cache_get c (f1, f2, s1, s2) with
            | Some o => (Some o, c)
            | None =>
                match _do_cmp (refuses w) t f1 f2 with
                | Some o => (Some o, cache_set c (f1, f2, s1, s2) o)
                | None => (None, c)
                end
            end
      | _, _ => (Some false, c)
      end
  | _, _ => (None, c)
  end.

(** [filecmp._cmp]: 0 same, 1 different, 2 could not compare. *)
Definition _cmp (t : node) (c : cache) (a b : path) : nat * cache :=
  match filecmp_cmp t c a b with
  | (Some true, c') => (0, c')
  | (Some false, c') => (1, c')
  | (None, c') => (2, c')
  end.

(** [filecmp.cmpfiles a b common]: each name with its answer, in turn. *)
Fixpoint cmpfiles (t : node) (c : cache) (a b : path) (common : list string)
    : list (string * nat) * cache :=
  match common with
  | [] => ([], c)
  | x :: common' =>
      let '(r, c1) := _cmp t c (a ++ [x]) (b ++ [x]) in
      let '(rs, c2) := cmpfiles t c1 a b common' in
      ((x, r) :: rs, c2)
  end.

(** [dircmp.diff_files] as [phase3] fills it. *)
Definition diff_files (t : node) (c : cache) (a b : path) (l : list string)
    : list string * cache :=
  let '(res, c') := cmpfiles t c a b l in
  ((filter (fun xr => xr.2 = 1) res).*1, c').

(** [shutil.rmtree p]: the error if any, and the tree it leaves.  A refused
    call leaves the directory, with the entries it had not yet removed. *)
Definition shutil_rmtree (t : node) (p : path) : option error * node :=
  match refuses w (Rmtree p) with
  | Some e =>
      (Some e,
       match lookup_path t p with
       | Some (Dir m) =>
           put t p (Some (prune (leaves w (Rmtree p)) [] (Dir m)))
       | _ => t
       end)
  | None =>
      match lookup_path t p with
      | None => (Some NotFound, t)
      | Some (File _ _) => (Some NotADirectory, t)
      | Some (Dir _) => (None, put t p None)
      end
  end.

(** What [shutil.copytree s d] does before it copies: it lists [s], and
    makes [d], which must not be there, and the directories on the way to
    it.  Gives the entries to copy and the tree with the way made. *)
Definition copytree_target (t : node) (s d : path)
    : error + (gmap string node * node) :=
  match lookup_path t s with
  | None => inl NotFound
  | Some (File _ _) => inl NotADirectory
  | Some (Dir m) =>
      match lookup_path t d with
      | Some _ => inl FileExists
      | None =>
          match makedirs t (parent d) with
          | None => inl NotADirectory
          | Some t1 => inr (m, t1)
          end
      end
  end.

(** [shutil.copytree s d]; files keep their times.  A refused call has
    made the target and copied some of the entries, or has made nothing. *)
Definition shutil_copytree (t : node) (s d : path) : option error * node :=
  match refuses w (Copytree s d), copytree_target t s d with
  | Some e, inr (m, t1) =>
      (Some e,
       if leaves w (Copytree s d) [] then t
       else put t1 d (Some (prune (leaves w (Copytree s d)) [] (Dir m))))
  | Some e, inl _ => (Some e, t)
  | None, inl e => (Some e, t)
  | None, inr (m, t1) => (None, put t1 d (Some (Dir m)))
  end.

(** [shutil.copy2 s dest] at the time [time]: the error if any, the path
    written, the tree left.  A refused call may have written the first
    bytes of the target. *)
Definition shutil_copy2 (t : node) (time : Z) (s dest : path)
    : option error * path * node :=
  let dst :=
    if os_path_isdir (refuses w) t dest then dest ++ [basename s] else dest in
  let attempt : error + string * Z :=
    match lookup_path t s with
    | None => inl NotFound
    | Some (Dir _) => inl IsADirectory
    | Some (File d m) =>
        if bool_decide (s = dst) then inl IOError
        else
          match lookup_path t dst with
          | Some (Dir _) => inl IsADirectory
          | _ =>
              if is_dir (lookup_path t (parent dst))
                 && negb (bool_decide (dst = []))
              then inr (d, m)
              else inl NotFound
          end
    end in
  match refuses w (Copy2 s dest), attempt with
  | Some e, inr (d, m) =>
      (Some e, dst,
       match tears w (Copy2 s dest) with
       | Some n => put t dst (Some (File (String.substring 0 n d) time))
       | None => t
       end)
  | Some e, inl _ => (Some e, dst, t)
  | None, inl e => (Some e, dst, t)
  | None, inr (d, m) => (None, dst, put t dst (Some (File d m)))
  end.

(** [open(self.log_file, 'a')]: gives what the file holds. *)
Definition open_append (t : node) : error + string :=
  match refuses w AppendLog with
  | Some e => inl e
  | None =>
      match lookup_path t log_file with
      | Some (File d _) => inr d
      | Some (Dir _) => inl IsADirectory
      | None =>
          if is_dir (lookup_path t (parent log_file))
             && negb (bool_decide (log_file = []))
          then inr ""
          else inl NotFound
      end
  end.

(** What [write_log] does to the tree. *)
Definition append_log (t : node) (time : Z) (k : kind) (p : path) : node :=
  match open_append t with
  | inr d => put t log_file (Some (File (d +:+ line k p) time))
  | inl _ => t
  end.

(** *** The calls as steps of the program *)

Definition now (st : state) : Z := clock w (length (trace st)).

Definition copytree (s d : path) : M unit :=
  fun st =>
    match shutil_copytree (fs st) s d with
    | (Some e, t') => failing (Copytree s d) e t' st
    | (None, t') => (set_fs t' ;;; emit (Did (PutTree s d))) st
    end.

Definition copy2 (s dest : path) : M unit :=
  fun st =>
    match shutil_copy2 (fs st) (now st) s dest with
    | (Some e, _, t') => failing (Copy2 s dest) e t' st
    | (None, dst, t') => (set_fs t' ;;; emit (Did (PutFile s dst))) st
    end.

Definition rmtree (p : path) : M unit :=
  fun st =>
    match shutil_rmtree (fs st) p with
    | (Some e, t') => failing (Rmtree p) e t' st
    | (None, t') => (set_fs t' ;;; emit (Did (DelTree p))) st
    end.

(** First access to [diff_files]: phase 3, on the files as they are then,
    with the cache as it is then. *)
Definition dircmp_diff_files (a b : path) (cobj : dircmp) (c : cache)
    : M (list string * cache) :=
  fun st => (Ok (diff_files (fs st) c a b (common_files cobj)), st).

(** *** The program *)

Definition write_log (type : kind) (file : path) : M unit :=
  fun st =>
    match open_append (fs st) with
    | inl e => fail AppendLog e st
    | inr _ =>
        (Ok tt, State (append_log (fs st) (now st) type file)
                      (log_lines st ++ [(type, file)])
                      (file_created_count st) (file_copied_count st)
                      (file_deleted_count st)
                      (trace st ++ [Logged type file]))
    end.

Definition copy_files (file_list : list string) (src dest : path)
    (new : bool) : M unit :=
  for_each file_list (fun file =>
    let srcpath := src ++ [basename [file]] in
    d <- isdir (refuses w) srcpath ;;
    if d then
      (copytree srcpath (dest ++ [basename [file]]) ;;;
       if new then
         (names <- listdir (refuses w) srcpath ;;
          for_each names (fun file =>
            incr_created ;;;
            write_log Create (srcpath ++ [file])))
       else
         (names <- listdir (refuses w) srcpath ;;
          for_each names (fun file =>
            incr_copied ;;;
            write_log Copy (srcpath ++ [file]))))
    else
      (copy2 srcpath dest ;;;
       if new then
         (incr_created ;;;
          write_log Create srcpath)
       else
         (incr_copied ;;;
          write_log Copy srcpath))).

Definition delete_files (file_list : list string) (folder : path) : M unit :=
  for_each file_list (fun file =>
    let srcpath := folder ++ [basename [file]] in
    d <- isdir (refuses w) srcpath ;;
    if d then
      (names <- listdir (refuses w) srcpath ;;
       for_each names (fun file =>
         incr_deleted ;;;
         write_log Delete (srcpath ++ [file])) ;;;
       rmtree srcpath)
    else
      (remove (refuses w) srcpath ;;;
       incr_deleted ;;;
       write_log Delete srcpath)).

(** [compare_folders], with the cache of [filecmp] before and after. *)
Fixpoint compare_folders (fuel : nat) (src repl : path) (c : cache)
    : M cache :=
  match fuel with
  | 0 => fun st => (OutOfFuel, st)
  | S fuel' =>
      compare_obj <- dircmp_scan (refuses w) src repl ;;
      c1 <- when_some (common_dirs compare_obj)
              (fold_each (common_dirs compare_obj) (fun folder =>
                 compare_folders fuel' (src ++ [folder]) (repl ++ [folder])) c)
              c ;;
      when_nonempty (left_only compare_obj)
        (copy_files (left_only compare_obj) src repl true) ;;;
      when_nonempty (right_only compare_obj)
        (delete_files (right_only compare_obj) repl) ;;;
      dc <- dircmp_diff_files src repl compare_obj c1 ;;
      when_nonempty (fst dc)
        (copy_files (fst dc) src repl false) ;;;
      ret (snd dc)
  end.

(** One turn of the loop of [compare_root]. *)
Definition compare_root_once (fuel : nat) (source replica : path) (c : cache)
    : M (nat * nat * nat * cache) :=
  c' <- compare_folders fuel source replica c ;;
  printed <- (fun st => (Ok (file_created_count st, file_copied_count st,
                             file_deleted_count st), st)) ;;
  reset_counts ;;;
  ret (printed, c').

(** *** Reading a run *)

(** What an event did to the tree; [n] events came before it. *)
Definition replay1 (n : nat) (t : node) (ev : event) : node :=
  match ev with
  | Did (PutTree s d) => snd (shutil_copytree t s d)
  | Did a => apply_action t a
  | Logged k p => append_log t (clock w n) k p
  | Failed (Rmtree p) _ => snd (shutil_rmtree t p)
  | Failed (Copytree s d) _ => snd (shutil_copytree t s d)
  | Failed (Copy2 s dest) _ => snd (shutil_copy2 t (clock w n) s dest)
  | _ => t
  end.

Fixpoint replay (n : nat) (evs : list event) (t : node) : node :=
  match evs with
  | [] => t
  | ev :: evs' => replay (S n) evs' (replay1 n t ev)
  end.

(** The discipline of a run on disk: as above, the tree being what the
    events make of it, those of the failed call and of the log included. *)
Definition disciplined (x : status) (st st' : state) : Prop :=
  exists evs,
    trace st' = trace st ++ evs /\
    fs st' = replay (length (trace st)) evs (fs st) /\
    shape x evs /\
    log_lines st' = log_lines st ++ logs_of evs /\
    (x = SOk ->
     file_created_count st' = file_created_count st + count_kind Create (logs_of evs) /\
     file_copied_count st' = file_copied_count st + count_kind Copy (logs_of evs) /\
     file_deleted_count st' = file_deleted_count st + count_kind Delete (logs_of evs)).

End Program.

(** An event that writes nowhere but strictly inside [repl] or to the log:
    a write, or what a failed call left; a failed [copy2] was given a
    directory at or below [repl] to write in. *)
Definition writes_inside (repl : path) (e : event) : Prop :=
  match e with
  | Did a => inside repl (target a)
  | Failed (Rmtree p) _ => inside repl p
  | Failed (Copytree _ d) _ => inside repl d
  | Failed (Copy2 _ dest) _ => exists q, dest = repl ++ q
  | _ => True
  end.

(** A call of the program itself, whose error reaches it; the others are
    made inside [filecmp], which absorbs their errors. *)
Definition reaches_program (o : op) : bool :=
  match o with
  | Stat _ | ReadFile _ => false
  | _ => true
  end.

(** A failure that is the failure of a call of the program. *)
Definition raised_by_program (e : event) : Prop :=
  match e with
  | Failed o _ => reaches_program o = true
  | _ => True
  end.

(** [t'] is [t], or [t] with the entry at [p] changed. *)
Definition edits (t t' : node) (p : path) : Prop :=
  t' = t \/ exists v, t' = put t p v.

(** *** The loop *)

Section Loop.

Variable w : world.
Variable sleep_fault : Z -> option exn.

(** [while True] of [compare_root], observed for [turns] turns; the cache
    of [filecmp] goes from turn to turn. *)
Fixpoint compare_root_loop (turns fuel : nat) (self : SyncObject.t)
    (c : cache) : Proc Empty_set :=
  match turns with
  | 0 => fun p => (StillLooping, p)
  | S turns' =>
      c' <~ lift (compare_folders w (SyncObject.log_file self) fuel
                    (Folder.root_path (SyncObject.source self))
                    (Folder.root_path (SyncObject.replica self)) c) ;;
      print_counts ;;~
      lift reset_counts ;;~
      time_sleep sleep_fault (SyncObject.interval self) ;;~
      compare_root_loop turns' fuel self c'
  end.

(** [if __name__ == "__main__"], in a process that has compared nothing
    yet. *)
Definition main (abspath : string -> path) (turns fuel : nat)
    (args : Namespace.t) : Proc Empty_set :=
  sync <~ parse_arguments (refuses w) abspath args ;;
  compare_root_loop turns fuel sync [].

End Loop.

(** *** When the two models agree *)

(** The log can be opened: it is a regular file, or it is not there and
    the directory that is to hold it is. *)
Definition writable (t : node) (log_file : path) : Prop :=
  log_file <> [] /\
  is_dir (lookup_path t (parent log_file)) = true /\
  is_dir (lookup_path t log_file) = false.

(** No answer of the cache is stale: its keys pair a path below [src] with
    the same path below [repl], under signatures that differ, and where the
    two files have these signatures now, reading them gives the answer
    kept. *)
Definition cache_ok (src repl : path) (t : node) (c : cache) : Prop :=
  forall f1 f2 s1 s2 o,
    cache_get c (f1, f2, s1, s2) = Some o ->
    (exists q, f1 = src ++ q /\ f2 = repl ++ q) /\
    s1 <> s2 /\
    (os_stat no_fault t f1 = Some s1 ->
     os_stat no_fault t f2 = Some s2 ->
     _do_cmp no_fault t f1 f2 = Some o).

End Disk.

(** * Properties *)

(** ** Paths and the tree *)

Lemma is_prefix_spec (p q : path) :
  is_prefix p q = true <-> exists r, q = p ++ r.
Proof.
  revert q. induction p as [|a p IH]; intros q; simpl.
  - split; eauto.
  - destruct q as [|b q].
    + split; [discriminate | intros [r Hr]; discriminate].
    + destruct (decide (a = b)) as [->|Hne].
      * rewrite IH. split; intros [r Hr]; exists r; simpl in *; congruence.
      * split; [discriminate | intros [r Hr]; simpl in Hr; congruence].
Qed.

Lemma apart_spec (p q : path) :
  apart p q = true <->
  (forall r, q <> p ++ r) /\ (forall r, p <> q ++ r).
Proof.
  unfold apart. rewrite andb_true_iff, !negb_true_iff.
  split.
  - intros [H1 H2]. split; intros r Hr.
    + assert (is_prefix p q = true) by (apply is_prefix_spec; eauto). congruence.
    + assert (is_prefix q p = true) by (apply is_prefix_spec; eauto). congruence.
  - intros [H1 H2]. split.
    + destruct (is_prefix p q) eqn:E; [|done].
      apply is_prefix_spec in E as [r Hr]. by destruct (H1 r).
    + destruct (is_prefix q p) eqn:E; [|done].
      apply is_prefix_spec in E as [r Hr]. by destruct (H2 r).
Qed.

Lemma apart_sym (p q : path) : apart p q = apart q p.
Proof. unfold apart. apply andb_comm. Qed.

(** A path below [q] stays apart from what is apart from [q]. *)
Lemma apart_below (p q r : path) :
  apart p q = true -> apart p (q ++ r) = true.
Proof.
  rewrite !apart_spec. intros [H1 H2]. split; intros u Hu.
  - (* q ++ r = p ++ u: one of p, q is a prefix of the other *)
    revert p H1 H2 Hu. induction q as [|b q IH]; intros p H1 H2 Hu.
    + by destruct (H2 p).
    + destruct p as [|a p]; [by destruct (H1 (b :: q))|].
      simpl in Hu. injection Hu as -> Hu.
      apply (IH p); [| |done].
      * intros w Hw. apply (H1 w). simpl. by rewrite Hw.
      * intros w Hw. apply (H2 w). simpl. by rewrite Hw.
  - apply (H2 (r ++ u)). by rewrite app_assoc.
Qed.

Lemma apart_cons (a b : string) (p q : path) :
  apart (a :: p) (b :: q) = if decide (a = b) then apart p q else true.
Proof.
  unfold apart. simpl.
  destruct (decide (a = b)) as [->|Hne].
  - by rewrite decide_True.
  - by rewrite decide_False by congruence.
Qed.

Lemma apart_siblings (p : path) (k x : string) (q : path) :
  x <> k -> apart (p ++ [k]) (p ++ x :: q) = true.
Proof.
  intros Hne. induction p as [|a p IH]; simpl.
  - rewrite apart_cons. by rewrite decide_False by congruence.
  - rewrite (apart_cons a a). by rewrite decide_True.
Qed.

Lemma lookup_path_app (t : node) (p q : path) :
  lookup_path t (p ++ q) =
  match lookup_path t p with Some c => lookup_path c q | None => None end.
Proof.
  revert t. induction p as [|k p IH]; intros t; simpl; [done|].
  destruct t as [|m]; [done|]. destruct (m !! k); [apply IH|done].
Qed.

Lemma put_cons_cons (m : gmap string node) (k k' : string) (p : path) v :
  put (Dir m) (k :: k' :: p) v =
  match m !! k with
  | Some c => Dir (<[k := put c (k' :: p) v]> m)
  | None => Dir m
  end.
Proof. done. Qed.

Lemma put_dir_is_dir (m : gmap string node) (x : string) (q : path) v :
  exists m', put (Dir m) (x :: q) v = Dir m'.
Proof.
  simpl. destruct q; [eauto|]. destruct (m !! x); eauto.
Qed.

(** Writing below [p] is writing into the node at [p]. *)
Lemma put_app (t c : node) (p : path) (x : string) (q : path) v :
  lookup_path t p = Some c ->
  put t (p ++ x :: q) v = put t p (Some (put c (x :: q) v)).
Proof.
  revert t. induction p as [|k p IH]; intros t Hl.
  - simpl in Hl. injection Hl as ->. done.
  - destruct t as [|m]; [done|]. simpl in Hl.
    destruct (m !! k) as [c0|] eqn:Hk; [|done].
    change ((k :: p) ++ x :: q) with (k :: (p ++ x :: q)).
    cbn [put]. rewrite Hk.
    destruct p as [|k' p].
    + simpl in Hl. injection Hl as ->. simpl app. cbv iota. done.
    + change ((k' :: p) ++ x :: q) with (k' :: (p ++ x :: q)) in *.
      cbv iota. f_equal. f_equal. apply IH. done.
Qed.

Lemma put_child (t : node) (p : path) (m : gmap string node) (x : string) v :
  lookup_path t p = Some (Dir m) ->
  put t (p ++ [x]) v = put t p (Some (Dir (partial_alter (fun _ => v) x m))).
Proof. intros Hl. by rewrite (put_app _ _ _ _ _ _ Hl). Qed.

Lemma lookup_put_below (t c n : node) (p q : path) :
  lookup_path t p = Some c ->
  lookup_path (put t p (Some n)) (p ++ q) = lookup_path n q.
Proof.
  revert t. induction p as [|k p IH]; intros t Hl; [done|].
  destruct t as [|m]; [done|]. simpl in Hl.
  destruct (m !! k) as [c0|] eqn:Hk; [|done].
  change ((k :: p) ++ q) with (k :: (p ++ q)).
  destruct p as [|k' p].
  - simpl. by rewrite lookup_partial_alter_eq.
  - rewrite put_cons_cons, Hk. cbn [lookup_path]. rewrite lookup_insert_eq.
    by apply IH.
Qed.

Lemma lookup_put_same (t c n : node) (p : path) :
  lookup_path t p = Some c ->
  lookup_path (put t p (Some n)) p = Some n.
Proof.
  intros Hl. rewrite <- (app_nil_r p) at 2.
  by rewrite (lookup_put_below _ _ _ _ _ Hl).
Qed.

Lemma put_put (t c n n' : node) (p : path) :
  lookup_path t p = Some c ->
  put (put t p (Some n)) p (Some n') = put t p (Some n').
Proof.
  revert t. induction p as [|k p IH]; intros t Hl; [done|].
  destruct t as [|m]; [done|]. simpl in Hl.
  destruct (m !! k) as [c0|] eqn:Hk; [|done].
  destruct p as [|k' p].
  - simpl. f_equal. rewrite partial_alter_partial_alter_eq. done.
  - rewrite (put_cons_cons m k k' p (Some n)), Hk, put_cons_cons.
    rewrite lookup_insert_eq, (put_cons_cons m), Hk.
    rewrite insert_insert_eq. f_equal. f_equal. by apply IH.
Qed.

Lemma put_same (t c : node) (p : path) :
  lookup_path t p = Some c -> put t p (Some c) = t.
Proof.
  revert t. induction p as [|k p IH]; intros t Hl.
  - simpl in *. congruence.
  - destruct t as [|m]; [done|]. simpl in Hl.
    destruct (m !! k) as [c0|] eqn:Hk; [|done].
    destruct p as [|k' p].
    + simpl in *. injection Hl as ->. f_equal.
      change (partial_alter (fun _ => Some c) k m) with (<[k := c]> m).
      by apply insert_id.
    + rewrite put_cons_cons, Hk. f_equal. rewrite (IH c0 Hl). by apply insert_id.
Qed.

(** Frame: a write leaves alone what is apart from its path. *)
Lemma lookup_put_apart (t : node) (w p : path) v :
  apart p w = true -> lookup_path (put t w v) p = lookup_path t p.
Proof.
  revert t p. induction w as [|b w IH]; intros t p Hap.
  - unfold apart in Hap. simpl in Hap. destruct p; simpl in Hap;
      rewrite ?andb_false_r in Hap; discriminate.
  - destruct p as [|a p].
    + unfold apart in Hap. simpl in Hap. discriminate.
    + rewrite apart_cons in Hap.
      destruct t as [|m]; [done|].
      destruct (decide (a = b)) as [->|Hne].
      * destruct w as [|b' w].
        { unfold apart in Hap. destruct p; simpl in Hap;
            rewrite ?andb_false_r in Hap; discriminate. }
        rewrite put_cons_cons. destruct (m !! b) as [c|] eqn:Hb; [|done].
        cbn [lookup_path]. rewrite lookup_insert_eq, Hb. by apply IH.
      * destruct w as [|b' w].
        { cbn [put lookup_path].
          by rewrite lookup_partial_alter_ne by congruence. }
        rewrite put_cons_cons. destruct (m !! b) as [c|] eqn:Hb; [|done].
        cbn [lookup_path]. by rewrite lookup_insert_ne by congruence.
Qed.

(** A write below a directory leaves it a directory. *)
Lemma is_dir_put_below (t : node) (p : path) (x : string) (q : path) v :
  is_dir (lookup_path t p) = true ->
  is_dir (lookup_path (put t (p ++ x :: q) v) p) = true.
Proof.
  destruct (lookup_path t p) as [[|m]|] eqn:Hl; try discriminate. intros _.
  rewrite (put_app _ _ _ _ _ _ Hl).
  destruct (put_dir_is_dir m x q v) as [m' ->].
  by rewrite (lookup_put_same _ _ _ _ Hl).
Qed.

(** ** Sequencing rules *)

Section Rules.

Context (R : status -> state -> state -> Prop) `{!Seq R}.

Lemma sat_ret {A} (a : A) : sat R (ret a).
Proof. intros st r st' [= <- <-]. apply seq_refl. Qed.

Lemma sat_bind {A B} (m : M A) (f : A -> M B) :
  sat R m -> (forall a, sat R (f a)) -> sat R (bind m f).
Proof.
  intros Hm Hf st r st'. unfold bind.
  destruct (m st) as [[a|e|] st1] eqn:E; intros H.
  - eapply seq_trans; [apply (Hm _ _ _ E)|]. by apply (Hf a).
  - injection H as <- <-. apply (Hm _ _ _ E).
  - injection H as <- <-. apply (Hm _ _ _ E).
Qed.

Lemma sat_for_each {A} (l : list A) (body : A -> M unit) :
  (forall x, x ∈ l -> sat R (body x)) -> sat R (for_each l body).
Proof.
  induction l as [|x l IH]; intros Hb; simpl.
  - apply sat_ret.
  - apply sat_bind; [apply Hb; left|].
    intros _. apply IH. intros y Hy. apply Hb. by right.
Qed.

Lemma sat_when {A} (l : list A) (m : M unit) :
  sat R m -> sat R (when_nonempty l m).
Proof. destruct l; [intros _; apply sat_ret | done]. Qed.

Lemma sat_if {A} (b : bool) (m1 m2 : M A) :
  sat R m1 -> sat R m2 -> sat R (if b then m1 else m2).
Proof. by destruct b. Qed.

End Rules.

Lemma sat_mono {A} (R R' : status -> state -> state -> Prop) (m : M A) :
  (forall x a b, R x a b -> R' x a b) -> sat R m -> sat R' m.
Proof. intros H Hm st r st' E. apply H, (Hm _ _ _ E). Qed.

(** For a loop whose body is a no-op on the empty list the guard [if l:] is
    idle. *)
Lemma when_for_each {A} (l : list A) (body : A -> M unit) :
  when_nonempty l (for_each l body) = for_each l body.
Proof. by destruct l. Qed.

(** ** The discipline of runs *)

Lemma replay_app (evs1 evs2 : list event) (t : node) :
  replay (evs1 ++ evs2) t = replay evs2 (replay evs1 t).
Proof. unfold replay. apply foldl_app. Qed.

Lemma logs_of_app (evs1 evs2 : list event) :
  logs_of (evs1 ++ evs2) = logs_of evs1 ++ logs_of evs2.
Proof. unfold logs_of. apply flat_map_app. Qed.

Lemma count_kind_app (k : kind) (l1 l2 : list (kind * path)) :
  count_kind k (l1 ++ l2) = count_kind k l1 + count_kind k l2.
Proof. unfold count_kind. by rewrite filter_app, length_app. Qed.

Lemma clean_app (evs1 evs2 : list event) :
  clean evs1 -> clean evs2 -> clean (evs1 ++ evs2).
Proof. unfold clean. rewrite Forall_app. auto. Qed.

#[global] Instance disciplined_seq : Seq disciplined.
Proof.
  split.
  - intros st. exists []. rewrite !app_nil_r.
    split_and!; [done | done | constructor | done |].
    intros _. unfold count_kind. simpl. split_and!; lia.
  - intros x a b c (e1 & Ht1 & Hf1 & Hs1 & Hl1 & Hc1)
      (e2 & Ht2 & Hf2 & Hs2 & Hl2 & Hc2).
    exists (e1 ++ e2). rewrite Ht2, Ht1, Hf2, Hf1, Hl2, Hl1.
    rewrite replay_app, logs_of_app, !app_assoc.
    split_and!; [done | done | | done |].
    + simpl in Hs1. destruct x; simpl in *.
      * by apply clean_app.
      * destruct Hs2 as (e0 & o & -> & Hcl). exists (e1 ++ e0), o.
        split; [by rewrite app_assoc | by apply clean_app].
      * by apply clean_app.
    + intros Hx. destruct (Hc1 eq_refl) as (A1 & A2 & A3).
      destruct (Hc2 Hx) as (B1 & B2 & B3).
      rewrite !count_kind_app. split_and!; lia.
Qed.

Section Discipline.

Variable fault : op -> option error.

Lemma shape_failed (o : op) (e : error) : shape (SRaise e) [Failed o e].
Proof. exists [], o. split; [done | constructor]. Qed.

Lemma fail_disciplined {A} (o : op) (e : error) :
  sat disciplined (@fail A o e).
Proof.
  intros st r st' [= <- <-]. exists [Failed o e]. simpl.
  rewrite app_nil_r. split_and!; [done | done | apply shape_failed | done | done].
Qed.

Lemma emit_disciplined (ev : event) :
  is_failed ev = false -> logs_of [ev] = [] ->
  (forall a, ev <> Did a) ->
  sat disciplined (emit ev).
Proof.
  intros Hf Hl Hd st r st' [= <- <-]. exists [ev]. rewrite Hl.
  split_and!; [done | | by repeat constructor | by rewrite app_nil_r |].
  - destruct ev; try done. by destruct (Hd a).
  - intros _. unfold count_kind. simpl. split_and!; lia.
Qed.

Lemma did_disciplined (a : action) (st : state) (t' : node) :
  t' = apply_action (fs st) a ->
  disciplined SOk st
    (snd ((set_fs t' ;;; emit (Did a)) st)).
Proof.
  intros ->. exists [Did a]. simpl. rewrite app_nil_r.
  split_and!; [done | done | by repeat constructor | done |].
  intros _. unfold count_kind. simpl. split_and!; lia.
Qed.

Lemma listdir_disciplined (p : path) : sat disciplined (listdir fault p).
Proof.
  intros st r st'. unfold listdir.
  destruct (os_listdir fault (fs st) p); intros H.
  - by apply (fail_disciplined (A := list string)) in H.
  - revert H. apply (sat_bind disciplined).
    + by apply emit_disciplined.
    + intros _. apply sat_ret; apply _.
Qed.

Lemma isdir_disciplined (p : path) : sat disciplined (isdir fault p).
Proof. intros st r st' [= <- <-]. apply seq_refl. Qed.

Lemma diff_files_disciplined (a b : path) (c : dircmp) :
  sat disciplined (dircmp_diff_files fault a b c).
Proof. intros st r st' [= <- <-]. apply seq_refl. Qed.

Lemma dircmp_scan_disciplined (a b : path) :
  sat disciplined (dircmp_scan fault a b).
Proof.
  intros st r st'. unfold dircmp_scan.
  destruct (os_listdir fault (fs st) a) as [e|la].
  { intros H. by apply (fail_disciplined (A := dircmp)) in H. }
  destruct (os_listdir fault (fs st) b) as [e|lb].
  { intros H. by apply (fail_disciplined (A := dircmp)) in H. }
  apply (sat_bind disciplined).
  - by apply emit_disciplined.
  - intros _. apply sat_ret; apply _.
Qed.

Lemma copytree_effect (t t' : node) (s d : path) :
  shutil_copytree fault t s d = inr t' ->
  t' = apply_action t (PutTree s d).
Proof.
  unfold shutil_copytree. destruct (fault _); [done|].
  destruct (lookup_path t s) as [[|m]|] eqn:Hs; try done.
  destruct (lookup_path t d); [done|].
  destruct (is_dir _); [|done]. intros [= <-]. simpl. by rewrite Hs.
Qed.

Lemma copy2_effect (t t' : node) (s dest dst : path) :
  shutil_copy2 fault t s dest = inr (dst, t') ->
  t' = apply_action t (PutFile s dst).
Proof.
  unfold shutil_copy2. destruct (fault _); [done|]. cbv zeta.
  set (dst0 := if os_path_isdir fault t dest then _ else _).
  destruct (lookup_path t s) as [[d m|]|] eqn:Hs; try done.
  destruct (bool_decide _); [done|].
  destruct (lookup_path t dst0) as [[|]|]; try done;
    destruct (_ && _); try done; intros H; inversion H; subst;
    simpl; by rewrite Hs.
Qed.

Lemma remove_effect (t t' : node) (p : path) :
  os_remove fault t p = inr t' -> t' = apply_action t (DelFile p).
Proof.
  unfold os_remove. destruct (fault _); [done|].
  destruct (lookup_path t p) as [[|]|]; try done. by intros [= <-].
Qed.

Lemma rmtree_effect (t t' : node) (p : path) :
  shutil_rmtree fault t p = inr t' -> t' = apply_action t (DelTree p).
Proof.
  unfold shutil_rmtree. destruct (fault _); [done|].
  destruct (lookup_path t p) as [[|]|]; try done. by intros [= <-].
Qed.

Lemma copytree_disciplined (s d : path) : sat disciplined (copytree fault s d).
Proof.
  intros st r st'. unfold copytree.
  destruct (shutil_copytree fault (fs st) s d) as [e|t'] eqn:E; intros H.
  - by apply (fail_disciplined (A := unit)) in H.
  - apply copytree_effect in E.
    pose proof (did_disciplined (PutTree s d) st t' E) as Hd.
    by rewrite H in Hd; injection H as <- <-.
Qed.

Lemma copy2_disciplined (s dest : path) : sat disciplined (copy2 fault s dest).
Proof.
  intros st r st'. unfold copy2.
  destruct (shutil_copy2 fault (fs st) s dest) as [e|[dst t']] eqn:E; intros H.
  - by apply (fail_disciplined (A := unit)) in H.
  - apply copy2_effect in E.
    pose proof (did_disciplined (PutFile s dst) st t' E) as Hd.
    by rewrite H in Hd; injection H as <- <-.
Qed.

Lemma remove_disciplined (p : path) : sat disciplined (remove fault p).
Proof.
  intros st r st'. unfold remove.
  destruct (os_remove fault (fs st) p) as [e|t'] eqn:E; intros H.
  - by apply (fail_disciplined (A := unit)) in H.
  - apply remove_effect in E.
    pose proof (did_disciplined (DelFile p) st t' E) as Hd.
    by rewrite H in Hd; injection H as <- <-.
Qed.

Lemma rmtree_disciplined (p : path) : sat disciplined (rmtree fault p).
Proof.
  intros st r st'. unfold rmtree.
  destruct (shutil_rmtree fault (fs st) p) as [e|t'] eqn:E; intros H.
  - by apply (fail_disciplined (A := unit)) in H.
  - apply rmtree_effect in E.
    pose proof (did_disciplined (DelTree p) st t' E) as Hd.
    by rewrite H in Hd; injection H as <- <-.
Qed.

(** A counter moves together with its log line. *)
Lemma count_and_log_disciplined (k : kind) (p : path) :
  sat disciplined
    ((match k with
      | Create => incr_created
      | Copy => incr_copied
      | Delete => incr_deleted
      end) ;;; write_log fault k p).
Proof.
  intros st r st'. unfold bind, write_log.
  destruct k; simpl; destruct (fault AppendLog) as [e|] eqn:E.
  all: intros [= <- <-].
  all: try (exists [Failed AppendLog e]; simpl; rewrite app_nil_r;
            split_and!; [done | done | apply shape_failed | done | done]).
  - exists [Logged Create p]. simpl.
    split_and!; [done | done | by repeat constructor | done |].
    intros _. unfold count_kind. simpl. split_and!; lia.
  - exists [Logged Copy p]. simpl.
    split_and!; [done | done | by repeat constructor | done |].
    intros _. unfold count_kind. simpl. split_and!; lia.
  - exists [Logged Delete p]. simpl.
    split_and!; [done | done | by repeat constructor | done |].
    intros _. unfold count_kind. simpl. split_and!; lia.
Qed.

Lemma copy_files_disciplined (l : list string) (src dest : path) (new : bool) :
  sat disciplined (copy_files fault l src dest new).
Proof.
  unfold copy_files. apply sat_for_each; [apply _|]. intros file _.
  apply sat_bind; [apply _ | apply isdir_disciplined |]. intros d.
  destruct d.
  - apply sat_bind; [apply _ | apply copytree_disciplined |]. intros _.
    destruct new.
    + apply sat_bind; [apply _ | apply listdir_disciplined |]. intros names.
      apply sat_for_each; [apply _|]. intros f _.
      apply (count_and_log_disciplined Create).
    + apply sat_bind; [apply _ | apply listdir_disciplined |]. intros names.
      apply sat_for_each; [apply _|]. intros f _.
      apply (count_and_log_disciplined Copy).
  - apply sat_bind; [apply _ | apply copy2_disciplined |]. intros _.
    destruct new.
    + apply (count_and_log_disciplined Create).
    + apply (count_and_log_disciplined Copy).
Qed.

Lemma delete_files_disciplined (l : list string) (folder : path) :
  sat disciplined (delete_files fault l folder).
Proof.
  unfold delete_files. apply sat_for_each; [apply _|]. intros file _.
  apply sat_bind; [apply _ | apply isdir_disciplined |]. intros d.
  destruct d.
  - apply sat_bind; [apply _ | apply listdir_disciplined |]. intros names.
    apply sat_bind; [apply _ | | intros _; apply rmtree_disciplined].
    apply sat_for_each; [apply _|]. intros f _.
    apply (count_and_log_disciplined Delete).
  - apply sat_bind; [apply _ | apply remove_disciplined |]. intros _.
    apply (count_and_log_disciplined Delete).
Qed.

Lemma compare_folders_disciplined (fuel : nat) (src repl : path) :
  sat disciplined (compare_folders fault fuel src repl).
Proof.
  revert src repl. induction fuel as [|fuel IH]; intros src repl.
  - intros st r st' [= <- <-]. exists []. rewrite !app_nil_r.
    split_and!; [done | done | constructor | done | done].
  - cbn [compare_folders].
    apply sat_bind; [apply _ | apply dircmp_scan_disciplined |]. intros c.
    apply sat_bind; [apply _ | |intros _].
    { apply sat_when; [apply _|]. apply sat_for_each; [apply _|].
      intros d _. apply IH. }
    apply sat_bind; [apply _ | |intros _].
    { apply sat_when; [apply _|]. apply copy_files_disciplined. }
    apply sat_bind; [apply _ | |intros _].
    { apply sat_when; [apply _|]. apply delete_files_disciplined. }
    apply sat_bind; [apply _ | apply diff_files_disciplined |]. intros diff.
    apply sat_when; [apply _|]. apply copy_files_disciplined.
Qed.

End Discipline.

(** ** What a run may write *)

#[global] Instance Forall_monoidal (P : event -> Prop) : Monoidal (Forall P).
Proof. split; [constructor | intros e1 e2 H1 H2; by apply Forall_app]. Qed.

#[global] Instance emits_seq (I : node -> Prop) (Q : list event -> Prop)
  `{!Monoidal Q} : Seq (emits I Q).
Proof.
  split.
  - intros st HI. split; [done|]. exists []. split; [by rewrite app_nil_r|].
    apply mon_nil.
  - intros x a b c H1 H2 HI.
    destruct (H1 HI) as (HI1 & e1 & Ht1 & HQ1).
    destruct (H2 HI1) as (HI2 & e2 & Ht2 & HQ2).
    split; [done|]. exists (e1 ++ e2).
    split; [by rewrite Ht2, Ht1, app_assoc | by apply mon_app].
Qed.

Lemma sat_dot {A B} (I : node -> Prop) (Q1 Q2 : list event -> Prop)
    (m : M A) (f : A -> M B) :
  Q2 [] ->
  sat (emits I Q1) m -> (forall a, sat (emits I Q2) (f a)) ->
  sat (emits I (dot Q1 Q2)) (bind m f).
Proof.
  intros Hnil Hm Hf st r st'. unfold bind.
  destruct (m st) as [[a|e|] st1] eqn:E; intros H HI.
  - destruct (Hm _ _ _ E HI) as (HI1 & e1 & Ht1 & HQ1).
    destruct (Hf a _ _ _ H HI1) as (HI2 & e2 & Ht2 & HQ2).
    split; [done|]. exists (e1 ++ e2).
    split; [by rewrite Ht2, Ht1, app_assoc|]. by exists e1, e2.
  - injection H as <- <-.
    destruct (Hm _ _ _ E HI) as (HI1 & e1 & Ht1 & HQ1).
    split; [done|]. exists e1. split; [done|].
    exists e1, []. by rewrite app_nil_r.
  - injection H as <- <-.
    destruct (Hm _ _ _ E HI) as (HI1 & e1 & Ht1 & HQ1).
    split; [done|]. exists e1. split; [done|].
    exists e1, []. by rewrite app_nil_r.
Qed.

Lemma sat_when_emits {A} (I : node -> Prop) (Q : list event -> Prop)
    (l : list A) (m : M unit) :
  Q [] -> sat (emits I Q) m -> sat (emits I Q) (when_nonempty l m).
Proof.
  intros Hnil Hm. destruct l; [|done].
  intros st r st' [= <- <-] HI. split; [done|]. exists [].
  by rewrite app_nil_r.
Qed.

Lemma emits_mono {A} (I : node -> Prop) (Q Q' : list event -> Prop) (m : M A) :
  (forall evs, Q evs -> Q' evs) -> sat (emits I Q) m -> sat (emits I Q') m.
Proof.
  intros H. apply sat_mono. intros x a b HR HI.
  destruct (HR HI) as (HI' & evs & Ht & HQ). split; [done|]. exists evs. auto.
Qed.

Lemma basename_app (p : path) (x : string) : basename (p ++ [x]) = x.
Proof. unfold basename. apply last_last. Qed.

Lemma apply_action_put (t : node) (a : action) :
  exists v, apply_action t a = put t (target a) v.
Proof. destruct a; simpl; eauto. Qed.

Lemma os_listdir_is_dir (fault : op -> option error) (t : node) (p : path)
    (l : list string) :
  os_listdir fault t p = inr l -> is_dir (lookup_path t p) = true.
Proof.
  unfold os_listdir. destruct (fault _); [done|].
  by destruct (lookup_path t p) as [[|]|].
Qed.

Section Emits.

Variable fault : op -> option error.
Variable I : node -> Prop.
Variable Q : list event -> Prop.
Hypothesis Q_nil : Q [].
Hypothesis Q_failed : forall o e, Q [Failed o e].
Hypothesis Q_listed : forall p names, Q [Listed p names].

Lemma fail_emits {A} (o : op) (e : error) : sat (emits I Q) (@fail A o e).
Proof.
  intros st r st' [= <- <-] HI. split; [done|]. exists [Failed o e]. auto.
Qed.

Lemma did_emits (a : action) (st : state) (t' : node) :
  t' = apply_action (fs st) a -> adm I Q a ->
  emits I Q SOk st (snd ((set_fs t' ;;; emit (Did a)) st)).
Proof.
  intros -> [HQ Hst] HI. split; [by apply Hst|]. exists [Did a]. auto.
Qed.

Lemma isdir_emits (p : path) : sat (emits I Q) (isdir fault p).
Proof.
  intros st r st' [= <- <-] HI. split; [done|]. exists [].
  by rewrite app_nil_r.
Qed.

Lemma diff_files_emits (a b : path) (c : dircmp) :
  sat (emits I Q) (dircmp_diff_files fault a b c).
Proof.
  intros st r st' [= <- <-] HI. split; [done|]. exists [].
  by rewrite app_nil_r.
Qed.

Lemma listdir_emits (p : path) : sat (emits I Q) (listdir fault p).
Proof.
  intros st r st'. unfold listdir.
  destruct (os_listdir fault (fs st) p) as [e|l]; intros H.
  - by apply (fail_emits (A := list string)) in H.
  - injection H as <- <-. intros HI. split; [done|].
    exists [Listed p l]. auto.
Qed.

Lemma copytree_emits (s d : path) :
  adm I Q (PutTree s d) -> sat (emits I Q) (copytree fault s d).
Proof.
  intros Ha st r st'. unfold copytree.
  destruct (shutil_copytree fault (fs st) s d) as [e|t'] eqn:E; intros H.
  - by apply (fail_emits (A := unit)) in H.
  - apply copytree_effect in E.
    pose proof (did_emits (PutTree s d) st t' E Ha) as Hd.
    by rewrite H in Hd; injection H as <- <-.
Qed.

Lemma copy2_emits (s dest : path) :
  (forall dst,
      dst = dest ++ [basename s] \/
      (dst = dest /\ ~ (forall t, I t -> is_dir (lookup_path t dest) = true)) ->
      adm I Q (PutFile s dst)) ->
  sat (emits I Q) (copy2 fault s dest).
Proof.
  intros Ha st r st'. unfold copy2.
  destruct (shutil_copy2 fault (fs st) s dest) as [e|[dst t']] eqn:E; intros H.
  - by apply (fail_emits (A := unit)) in H.
  - injection H as <- <-. intros HI.
    assert (adm I Q (PutFile s dst)) as Hadm.
    { apply Ha. revert E. unfold shutil_copy2.
      destruct (fault _); [done|]. cbv zeta.
      destruct (lookup_path (fs st) s) as [[d m|]|]; try done.
      destruct (bool_decide _); [done|].
      destruct (os_path_isdir fault (fs st) dest) eqn:Hd.
      - destruct (lookup_path _ _) as [[|]|]; try done;
          destruct (_ && _); try done; intros E; inversion E; auto.
      - destruct (lookup_path (fs st) dest) as [[|]|] eqn:Hl; try done;
          destruct (_ && _); try done; intros E; inversion E; subst; right;
          (split; [done|]); intros Hall; specialize (Hall _ HI);
          by rewrite Hl in Hall. }
    apply copy2_effect in E.
    by apply (did_emits (PutFile s dst) st t' E Hadm).
Qed.

Lemma remove_emits (p : path) :
  adm I Q (DelFile p) -> sat (emits I Q) (remove fault p).
Proof.
  intros Ha st r st'. unfold remove.
  destruct (os_remove fault (fs st) p) as [e|t'] eqn:E; intros H.
  - by apply (fail_emits (A := unit)) in H.
  - apply remove_effect in E.
    pose proof (did_emits (DelFile p) st t' E Ha) as Hd.
    by rewrite H in Hd; injection H as <- <-.
Qed.

Lemma rmtree_emits (p : path) :
  adm I Q (DelTree p) -> sat (emits I Q) (rmtree fault p).
Proof.
  intros Ha st r st'. unfold rmtree.
  destruct (shutil_rmtree fault (fs st) p) as [e|t'] eqn:E; intros H.
  - by apply (fail_emits (A := unit)) in H.
  - apply rmtree_effect in E.
    pose proof (did_emits (DelTree p) st t' E Ha) as Hd.
    by rewrite H in Hd; injection H as <- <-.
Qed.

Lemma count_and_log_emits (k : kind) (p : path) :
  Q [Logged k p] ->
  sat (emits I Q)
    ((match k with
      | Create => incr_created
      | Copy => incr_copied
      | Delete => incr_deleted
      end) ;;; write_log fault k p).
Proof.
  intros HQ st r st'. unfold bind, write_log.
  destruct k; simpl; destruct (fault AppendLog) as [e|] eqn:E.
  all: intros [= <- <-] HI; (split; [done|]).
  all: first [by exists [Failed AppendLog e]; auto | eauto].
Qed.

Context `{!Monoidal Q}.

Lemma copy_files_emits (l : list string) (src dest : path) (new : bool) :
  (forall p, Q [Logged (if new then Create else Copy) p]) ->
  (forall x, x ∈ l -> adm I Q (PutTree (src ++ [x]) (dest ++ [x]))) ->
  (forall x dst, x ∈ l ->
      dst = dest ++ [x] \/
      (dst = dest /\ ~ (forall t, I t -> is_dir (lookup_path t dest) = true)) ->
      adm I Q (PutFile (src ++ [x]) dst)) ->
  sat (emits I Q) (copy_files fault l src dest new).
Proof.
  intros Hlog Htree Hfile.
  unfold copy_files. apply sat_for_each; [apply _|]. intros file Hin.
  change (basename [file]) with file.
  apply sat_bind; [apply _ | apply isdir_emits |]. intros d.
  destruct d.
  - apply sat_bind; [apply _ | by apply copytree_emits; auto |]. intros _.
    destruct new.
    + apply sat_bind; [apply _ | apply listdir_emits |]. intros names.
      apply sat_for_each; [apply _|]. intros f _.
      apply (count_and_log_emits Create), Hlog.
    + apply sat_bind; [apply _ | apply listdir_emits |]. intros names.
      apply sat_for_each; [apply _|]. intros f _.
      apply (count_and_log_emits Copy), Hlog.
  - apply sat_bind; [apply _ | |intros _].
    { apply copy2_emits. intros dst Hdst. apply Hfile; [done|].
      by rewrite basename_app in Hdst. }
    destruct new.
    + apply (count_and_log_emits Create), Hlog.
    + apply (count_and_log_emits Copy), Hlog.
Qed.

Lemma delete_files_emits (l : list string) (folder : path) :
  (forall p, Q [Logged Delete p]) ->
  (forall x, x ∈ l ->
      adm I Q (DelFile (folder ++ [x])) /\ adm I Q (DelTree (folder ++ [x]))) ->
  sat (emits I Q) (delete_files fault l folder).
Proof.
  intros Hlog Hdel.
  unfold delete_files. apply sat_for_each; [apply _|]. intros file Hin.
  change (basename [file]) with file.
  apply sat_bind; [apply _ | apply isdir_emits |]. intros d.
  destruct d.
  - apply sat_bind; [apply _ | apply listdir_emits |]. intros names.
    apply sat_bind; [apply _ | |intros _].
    + apply sat_for_each; [apply _|]. intros f _.
      apply (count_and_log_emits Delete), Hlog.
    + apply rmtree_emits, Hdel, Hin.
  - apply sat_bind; [apply _ | apply remove_emits, Hdel, Hin |]. intros _.
    apply (count_and_log_emits Delete), Hlog.
Qed.

End Emits.

(** ** The classification of [dircmp] *)

Lemma elem_of_sort_names (x : string) (l : list string) :
  x ∈ sort_names l <-> x ∈ l.
Proof. unfold sort_names. by rewrite merge_sort_Permutation. Qed.

Lemma NoDup_sort_names (l : list string) : NoDup l -> NoDup (sort_names l).
Proof. unfold sort_names. by rewrite merge_sort_Permutation. Qed.

Section Classification.

Variable fault : op -> option error.
Variables (t : node) (a b : path) (la lb : list string).

Let c := dircmp_of fault t a b la lb.

Lemma elem_of_left_list x : x ∈ left_list c <-> x ∈ la /\ skipped x = false.
Proof.
  unfold c, dircmp_of, _filter. cbn [left_list].
  rewrite elem_of_sort_names, list_elem_of_filter. tauto.
Qed.

Lemma elem_of_right_list x : x ∈ right_list c <-> x ∈ lb /\ skipped x = false.
Proof.
  unfold c, dircmp_of, _filter. cbn [right_list].
  rewrite elem_of_sort_names, list_elem_of_filter. tauto.
Qed.

Lemma elem_of_common x :
  x ∈ common c <-> x ∈ la /\ x ∈ lb /\ skipped x = false.
Proof.
  transitivity (x ∈ right_list c /\ x ∈ left_list c).
  - unfold c, dircmp_of. cbn [common right_list left_list].
    by rewrite list_elem_of_filter.
  - rewrite elem_of_left_list, elem_of_right_list. tauto.
Qed.

Lemma elem_of_left_only x :
  x ∈ left_only c <-> x ∈ la /\ (x ∉ lb) /\ skipped x = false.
Proof.
  transitivity ((x ∉ right_list c) /\ x ∈ left_list c).
  - unfold c, dircmp_of. cbn [left_only right_list left_list].
    by rewrite list_elem_of_filter.
  - rewrite elem_of_left_list, elem_of_right_list. tauto.
Qed.

Lemma elem_of_right_only x :
  x ∈ right_only c <-> x ∈ lb /\ (x ∉ la) /\ skipped x = false.
Proof.
  transitivity ((x ∉ left_list c) /\ x ∈ right_list c).
  - unfold c, dircmp_of. cbn [right_only right_list left_list].
    by rewrite list_elem_of_filter.
  - rewrite elem_of_left_list, elem_of_right_list. tauto.
Qed.

Lemma elem_of_common_dirs x :
  x ∈ common_dirs c <-> x ∈ common c /\ classify_common fault t a b x = CDir.
Proof.
  unfold c, dircmp_of. cbn [common_dirs common].
  rewrite list_elem_of_filter. tauto.
Qed.

Lemma elem_of_common_files x :
  x ∈ common_files c <-> x ∈ common c /\ classify_common fault t a b x = CFile.
Proof.
  unfold c, dircmp_of. cbn [common_files common].
  rewrite list_elem_of_filter. tauto.
Qed.

Lemma elem_of_common_funny x :
  x ∈ common_funny c <-> x ∈ common c /\ classify_common fault t a b x = CFunny.
Proof.
  unfold c, dircmp_of. cbn [common_funny common].
  rewrite list_elem_of_filter. tauto.
Qed.

Lemma NoDup_left_list : NoDup la -> NoDup (left_list c).
Proof. intros H. apply NoDup_sort_names. by apply NoDup_filter. Qed.

Lemma NoDup_right_list : NoDup lb -> NoDup (right_list c).
Proof. intros H. apply NoDup_sort_names. by apply NoDup_filter. Qed.

Lemma NoDup_common_dirs : NoDup la -> NoDup (common_dirs c).
Proof. intros H. do 2 apply NoDup_filter. by apply NoDup_left_list. Qed.

Lemma NoDup_common_files : NoDup la -> NoDup (common_files c).
Proof. intros H. do 2 apply NoDup_filter. by apply NoDup_left_list. Qed.

Lemma NoDup_left_only : NoDup la -> NoDup (left_only c).
Proof. intros H. apply NoDup_filter. by apply NoDup_left_list. Qed.

Lemma NoDup_right_only : NoDup lb -> NoDup (right_only c).
Proof. intros H. apply NoDup_filter. by apply NoDup_right_list. Qed.

End Classification.

Lemma elem_of_diff_files fault t a b l x :
  x ∈ diff_files fault t a b l <->
  x ∈ l /\ _cmp fault t (a ++ [x]) (b ++ [x]) = 1.
Proof. unfold diff_files. rewrite list_elem_of_filter. tauto. Qed.

Lemma elem_of_same_files fault t a b l x :
  x ∈ same_files fault t a b l <->
  x ∈ l /\ _cmp fault t (a ++ [x]) (b ++ [x]) = 0.
Proof. unfold same_files. rewrite list_elem_of_filter. tauto. Qed.

Lemma elem_of_funny_files fault t a b l x :
  x ∈ funny_files fault t a b l <->
  x ∈ l /\ _cmp fault t (a ++ [x]) (b ++ [x]) = 2.
Proof. unfold funny_files. rewrite list_elem_of_filter. tauto. Qed.

Lemma diff_files_subseteq fault t a b l : diff_files fault t a b l ⊆ l.
Proof. apply list_subseteq_filter. Qed.

(** ** One level of the reconciler *)

Section Level.

Variable fault : op -> option error.

(** The stages of one call, whatever its outcome: the scan, then the
    events of the recursion, of the creations, of the deletions and of the
    overwrites, in this order. *)
Lemma level_emits (I : node -> Prop) (Q1 Q2 Q3 Q4 : list event -> Prop)
    (n : nat) (src repl : path) (st : state) r (st' : state) :
  compare_folders fault (S n) src repl st = (r, st') ->
  (forall la lb,
      os_listdir fault (fs st) src = inr la ->
      os_listdir fault (fs st) repl = inr lb ->
      let c := dircmp_of fault (fs st) src repl la lb in
      I (fs st) /\ Q2 [] /\ Q3 [] /\ Q4 [] /\
      sat (emits I Q1)
        (for_each (common_dirs c) (fun folder =>
           compare_folders fault n (src ++ [folder]) (repl ++ [folder]))) /\
      sat (emits I Q2) (copy_files fault (left_only c) src repl true) /\
      sat (emits I Q3) (delete_files fault (right_only c) repl) /\
      (forall diff, diff ⊆ common_files c ->
         sat (emits I Q4) (copy_files fault diff src repl false))) ->
  (exists o e, r = Raise e /\ fs st' = fs st /\
               trace st' = trace st ++ [Failed o e]) \/
  (exists la lb e1 e2 e3 e4,
      os_listdir fault (fs st) src = inr la /\
      os_listdir fault (fs st) repl = inr lb /\
      I (fs st') /\
      trace st' = trace st ++ Classified src repl la lb :: e1 ++ e2 ++ e3 ++ e4 /\
      Q1 e1 /\ Q2 e2 /\ Q3 e3 /\ Q4 e4).
Proof.
  intros E Hpre. cbn [compare_folders] in E.
  unfold bind at 1 in E. unfold dircmp_scan in E.
  destruct (os_listdir fault (fs st) src) as [e|la] eqn:Ela.
  { left. injection E as <- <-. by exists (Listdir src), e. }
  destruct (os_listdir fault (fs st) repl) as [e|lb] eqn:Elb.
  { left. injection E as <- <-. by exists (Listdir repl), e. }
  right. exists la, lb.
  destruct (Hpre la lb eq_refl eq_refl)
    as (HI & Hn2 & Hn3 & Hn4 & H1 & H2 & H3 & H4).
  cbn in E.
  set (c := dircmp_of fault (fs st) src repl la lb) in *.
  set (st0 := State (fs st) (log_lines st) (file_created_count st)
                (file_copied_count st) (file_deleted_count st)
                (trace st ++ [Classified src repl la lb])) in *.
  assert (sat (emits I (dot Q1 (dot Q2 (dot Q3 Q4))))
    (when_nonempty (common_dirs c)
       (for_each (common_dirs c) (fun folder =>
          compare_folders fault n (src ++ [folder]) (repl ++ [folder]))) ;;;
     when_nonempty (left_only c) (copy_files fault (left_only c) src repl true) ;;;
     when_nonempty (right_only c) (delete_files fault (right_only c) repl) ;;;
     diff <- dircmp_diff_files fault src repl c ;;
     when_nonempty diff (copy_files fault diff src repl false))) as Hsat.
  { apply sat_dot.
    - exists [], []. split; [done|]. split; [done|]. by exists [], [].
    - by rewrite when_for_each.
    - intros _. apply sat_dot.
      + by exists [], [].
      + by apply sat_when_emits.
      + intros _. apply sat_dot; [done | by apply sat_when_emits |].
        intros _ s1 r1 s1'. unfold bind, dircmp_diff_files.
        apply sat_when_emits; [done|]. apply H4, diff_files_subseteq. }
  destruct (Hsat _ _ _ E HI)
    as (HI' & evs & Ht & e1 & r1 & -> & HQ1 & e2 & r2 & -> & HQ2 & e3 & e4 & -> & HQ3 & HQ4).
  exists e1, e2, e3, e4. split_and!; try done.
  rewrite Ht. unfold st0. cbn [trace]. by rewrite <- app_assoc.
Qed.

Lemma inside_child (repl : path) (d : string) (w : path) :
  inside (repl ++ [d]) w -> inside repl w.
Proof.
  intros (x & q & ->). exists d, (x :: q). by rewrite <- app_assoc.
Qed.

Lemma inside_self (repl : path) (x : string) : inside repl (repl ++ [x]).
Proof. by exists x, []. Qed.

(** Footprint: whatever [I] survives writes inside the replica survives
    the run, and the run writes nowhere else. *)
Lemma compare_folders_inside (n : nat) :
  forall (src repl : path) (I : node -> Prop),
    (forall t w v, I t -> inside repl w -> I (put t w v)) ->
    sat (emits I (Forall (writes_inside repl))) (compare_folders fault n src repl).
Proof.
  induction n as [|n IH]; intros src repl I Hst.
  { intros st r st' [= <- <-] HI. split; [done|]. exists [].
    by rewrite app_nil_r. }
  intros st r st' E HI.
  set (I' := fun t => I t /\ is_dir (lookup_path t repl) = true).
  assert (forall a, inside repl (target a) -> adm I' (Forall (writes_inside repl)) a)
    as Hadm.
  { intros a Ha. split; [by repeat constructor|].
    intros t [HIt Hd]. destruct (apply_action_put t a) as [v ->].
    split; [by apply Hst|]. destruct Ha as (x & q & ->).
    by apply is_dir_put_below. }
  pose proof (level_emits I' (Forall (writes_inside repl))
    (Forall (writes_inside repl)) (Forall (writes_inside repl))
    (Forall (writes_inside repl)) n src repl st r st' E) as Hlev.
  destruct Hlev as [(o & e & -> & Hfs & Ht)|
    (la & lb & e1 & e2 & e3 & e4 & Hla & Hlb & [HI' _] & Ht & H1 & H2 & H3 & H4)].
  - intros la lb Hla Hlb c.
    split_and!; try by constructor.
    + split; [done|]. by apply os_listdir_is_dir in Hlb.
    + apply sat_for_each; [apply _|]. intros d _.
      eapply emits_mono; [|apply (IH (src ++ [d]) (repl ++ [d]) I')].
      * intros evs Hevs. eapply Forall_impl; [exact Hevs|].
        intros [] Hev; try done. by apply inside_child in Hev.
      * intros t w v [HIt Hd] Hw. apply inside_child in Hw.
        split; [by apply Hst|]. destruct Hw as (x & q & ->).
        by apply is_dir_put_below.
    + apply copy_files_emits; try by repeat constructor.
      * apply _.
      * intros x _. apply Hadm, inside_self.
      * intros x dst _ [->|[-> Hno]]; [apply Hadm, inside_self|].
        destruct Hno. by intros t' [_ ?].
    + apply delete_files_emits; try by repeat constructor.
      * apply _.
      * intros x _. split; apply Hadm, inside_self.
    + intros diff _. apply copy_files_emits; try by repeat constructor.
      * apply _.
      * intros x _. apply Hadm, inside_self.
      * intros x dst _ [->|[-> Hno]]; [apply Hadm, inside_self|].
        destruct Hno. by intros t' [_ ?].
  - rewrite Hfs. split; [done|]. exists [Failed o e]. split; [done|].
    by repeat constructor.
  - split; [done|]. eexists. split; [exact Ht|].
    constructor; [done|]. by rewrite !Forall_app.
Qed.

End Level.

(** ** Counts, errors, footprint *)

(** C5. A run that completes has moved each counter by exactly the number
    of log records of its kind that the run wrote: starting from counters at
    zero, as the driver leaves them, the count of "create", "copy" and
    "delete" records equals the created, copied and deleted counters. *)
Theorem count_accuracy (fault : op -> option error) (fuel : nat)
    (src repl : path) (st st' : state) :
  compare_folders fault fuel src repl st = (Ok tt, st') ->
  exists written,
    log_lines st' = log_lines st ++ written /\
    file_created_count st' = file_created_count st + count_kind Create written /\
    file_copied_count st' = file_copied_count st + count_kind Copy written /\
    file_deleted_count st' = file_deleted_count st + count_kind Delete written.
Proof.
  intros E.
  destruct (compare_folders_disciplined fault fuel src repl _ _ _ E)
    as (evs & _ & _ & _ & Hl & Hc).
  exists (logs_of evs). split; [done|]. by apply Hc.
Qed.

Lemma count_accuracy_witness :
  exists written,
    log_lines (snd (compare_folders no_fault 2 ["src"] ["repl"] (init tree_fresh)))
    = [] ++ written /\
    file_created_count
      (snd (compare_folders no_fault 2 ["src"] ["repl"] (init tree_fresh)))
    = 0 + count_kind Create written /\
    file_copied_count
      (snd (compare_folders no_fault 2 ["src"] ["repl"] (init tree_fresh)))
    = 0 + count_kind Copy written /\
    file_deleted_count
      (snd (compare_folders no_fault 2 ["src"] ["repl"] (init tree_fresh)))
    = 0 + count_kind Delete written.
Proof.
  apply (count_accuracy no_fault 2 ["src"] ["repl"] (init tree_fresh)).
  vm_compute. reflexivity.
Defined.



(** The run of the witness stopped half way: the new file is in the
    replica, the stale directory is still there. *)
Example partial_reconciliation :
  let st' := snd (compare_folders fault_rmtree 2 ["src"] ["repl"] (init tree_stale)) in
  lookup_path (fs st') ["repl"; "a.txt"] = Some (File "X" 1) /\
  is_dir (lookup_path (fs st') ["repl"; "old"]) = true.
Proof. vm_compute. split; reflexivity. Qed.




(** ** Entries that are left alone, deletions that are justified *)

Lemma os_listdir_elem (fault : op -> option error) (t : node) (p : path)
    (l : list string) (x : string) :
  os_listdir fault t p = inr l ->
  x ∈ l <-> is_Some (lookup_path t (p ++ [x])).
Proof.
  unfold os_listdir. destruct (fault _); [done|].
  destruct (lookup_path t p) as [[|m]|] eqn:Hl; try done. intros [= <-].
  rewrite lookup_path_app, Hl. simpl. rewrite list_elem_of_fmap. split.
  - intros ([y v] & -> & Hin). apply elem_of_map_to_list in Hin.
    simpl. rewrite Hin. eauto.
  - intros [v Hv]. destruct (m !! x) as [c|] eqn:Hx; [|done].
    exists (x, c). split; [done|]. by apply elem_of_map_to_list.
Qed.

Lemma os_listdir_NoDup (fault : op -> option error) (t : node) (p : path)
    (l : list string) :
  os_listdir fault t p = inr l -> NoDup l.
Proof.
  unfold os_listdir. destruct (fault _); [done|].
  destruct (lookup_path t p) as [[|m]|]; try done. intros [= <-].
  apply NoDup_fst_map_to_list.
Qed.

Lemma classify_clash (fault : op -> option error) (t : node)
    (src repl : path) (k : string) :
  type_clash t src repl k -> classify_common fault t src repl k = CFunny.
Proof.
  unfold type_clash, classify_common, os_stat.
  destruct (fault (Stat (src ++ [k]))), (fault (Stat (repl ++ [k])));
    destruct (lookup_path t (src ++ [k])) as [[|]|];
    destruct (lookup_path t (repl ++ [k])) as [[|]|]; simpl; intuition congruence.
Qed.

(** A name that clashes is in none of the four categories the reconciler
    acts on. *)
Lemma clash_unclassified (fault : op -> option error) (t : node)
    (src repl : path) (k : string) (la lb : list string) :
  type_clash t src repl k ->
  os_listdir fault t src = inr la ->
  os_listdir fault t repl = inr lb ->
  let c := dircmp_of fault t src repl la lb in
  (k ∉ common_dirs c) /\ (k ∉ left_only c) /\ (k ∉ right_only c) /\ k ∉ common_files c.
Proof.
  intros Hcl Hla Hlb c.
  assert (k ∈ la) as Ha.
  { apply (os_listdir_elem _ _ _ _ k Hla).
    destruct Hcl as [[H _]|[H _]];
      destruct (lookup_path t (src ++ [k])) as [[|]|]; try done; eauto. }
  assert (k ∈ lb) as Hb.
  { apply (os_listdir_elem _ _ _ _ k Hlb).
    destruct Hcl as [[_ H]|[_ H]];
      destruct (lookup_path t (repl ++ [k])) as [[|]|]; try done; eauto. }
  pose proof (classify_clash fault t src repl k Hcl) as Hf.
  unfold c. rewrite elem_of_common_dirs, elem_of_common_files,
    elem_of_left_only, elem_of_right_only, Hf.
  split_and!; intros H; intuition congruence.
Qed.

Lemma avoid_sibling (p : path) (k x : string) (q : path) :
  x <> k -> is_prefix (p ++ [k]) (p ++ x :: q) = false.
Proof.
  intros Hne. pose proof (apart_siblings p k x q Hne) as H.
  unfold apart in H. apply andb_true_iff in H as [H _].
  by apply negb_true_iff in H.
Qed.

(** What is kept of the entry [k] of [repl] by a write at or below a
    sibling entry. *)
Lemma keep_sibling (X : option node) (repl : path) (k x : string) (q : path)
    (t : node) v :
  x <> k ->
  lookup_path t (repl ++ [k]) = X /\ is_dir (lookup_path t repl) = true ->
  lookup_path (put t (repl ++ x :: q) v) (repl ++ [k]) = X /\
  is_dir (lookup_path (put t (repl ++ x :: q) v) repl) = true.
Proof.
  intros Hne [H1 H2]. split.
  - rewrite <- H1. apply lookup_put_apart. by apply apart_siblings.
  - by apply is_dir_put_below.
Qed.

Section Untouched.

Variable fault : op -> option error.

(** A run writes neither at nor below an entry of the replica root that is
    in none of the four categories, and leaves it as it was. *)
Lemma unclassified_untouched (n : nat) (src repl : path) (k : string)
    (st : state) r (st' : state) :
  (forall la lb,
      os_listdir fault (fs st) src = inr la ->
      os_listdir fault (fs st) repl = inr lb ->
      let c := dircmp_of fault (fs st) src repl la lb in
      (k ∉ common_dirs c) /\ (k ∉ left_only c) /\ (k ∉ right_only c) /\
      k ∉ common_files c) ->
  compare_folders fault n src repl st = (r, st') ->
  lookup_path (fs st') (repl ++ [k]) = lookup_path (fs st) (repl ++ [k]) /\
  exists evs, trace st' = trace st ++ evs /\ Forall (avoids (repl ++ [k])) evs.
Proof.
  intros Hun E. destruct n as [|n].
  { injection E as <- <-. split; [done|]. exists []. by rewrite app_nil_r. }
  set (X := lookup_path (fs st) (repl ++ [k])).
  set (I := fun t => lookup_path t (repl ++ [k]) = X /\
                     is_dir (lookup_path t repl) = true).
  set (Q := Forall (avoids (repl ++ [k]))).
  assert (forall a x, x <> k -> target a = repl ++ [x] -> adm I Q a) as Hadm.
  { intros a x Hne Ha. split.
    - constructor; [|constructor]. simpl. rewrite Ha. by apply avoid_sibling.
    - intros t Ht. destruct (apply_action_put t a) as [v ->]. rewrite Ha.
      by apply keep_sibling. }
  destruct (level_emits fault I Q Q Q Q n src repl st r st' E)
    as [(o & e & -> & Hfs & Ht)|
        (la & lb & e1 & e2 & e3 & e4 & Hla & Hlb & [HI' _] & Ht & H1 & H2 & H3 & H4)].
  - intros la lb Hla Hlb c.
    destruct (Hun la lb Hla Hlb) as (Hk1 & Hk2 & Hk3 & Hk4). fold c in Hk1, Hk2, Hk3, Hk4.
    split_and!; try by constructor.
    + split; [done|]. by apply os_listdir_is_dir in Hlb.
    + apply sat_for_each; [apply _|]. intros d Hd.
      assert (d <> k) as Hne by (intros ->; done).
      eapply emits_mono;
        [|apply (compare_folders_inside fault n (src ++ [d]) (repl ++ [d]) I)].
      * intros evs Hevs. eapply Forall_impl; [exact Hevs|].
        intros [] Hev; try done. destruct Hev as (x & q & Hev). simpl.
        rewrite Hev, <- app_assoc. by apply avoid_sibling.
      * intros t w v Ht (x & q & ->). rewrite <- app_assoc.
        by apply keep_sibling.
    + apply copy_files_emits; try by repeat constructor.
      * apply _.
      * intros x Hx. apply (Hadm _ x); [by intros ->|done].
      * intros x dst Hx [->|[-> Hno]]; [apply (Hadm _ x); [by intros ->|done]|].
        destruct Hno. by intros t' [_ ?].
    + apply delete_files_emits; try by repeat constructor.
      * apply _.
      * intros x Hx. split; apply (Hadm _ x); try done; by intros ->.
    + intros diff Hsub. apply copy_files_emits; try by repeat constructor.
      * apply _.
      * intros x Hx. apply (Hadm _ x); [|done]. intros ->. by apply Hsub in Hx.
      * intros x dst Hx [->|[-> Hno]].
        { apply (Hadm _ x); [|done]. intros ->. by apply Hsub in Hx. }
        destruct Hno. by intros t' [_ ?].
  - rewrite Hfs. split; [done|]. exists [Failed o e]. split; [done|].
    by repeat constructor.
  - split; [done|]. eexists. split; [exact Ht|].
    constructor; [done|]. unfold Q in *. by rewrite !Forall_app.
Qed.

End Untouched.

(** C10. A name that is a directory on one side and a regular file on the
    other is in none of the four categories (whenever phase 3 is computed),
    no write of the run targets the replica's entry or anything below it, and
    the entry is the same node after the run as before, whatever the run's
    outcome. *)
Theorem clash_untouched (fault : op -> option error) (fuel : nat)
    (src repl : path) (k : string) (st : state) (r : outcome unit)
    (st' : state) :
  type_clash (fs st) src repl k ->
  compare_folders fault fuel src repl st = (r, st') ->
  lookup_path (fs st') (repl ++ [k]) = lookup_path (fs st) (repl ++ [k]) /\
  (forall la lb,
      os_listdir fault (fs st) src = inr la ->
      os_listdir fault (fs st) repl = inr lb ->
      let c := dircmp_of fault (fs st) src repl la lb in
      (k ∉ common_dirs c) /\ (k ∉ left_only c) /\ (k ∉ right_only c) /\
      forall t', k ∉ diff_files fault t' src repl (common_files c)) /\
  exists evs,
    trace st' = trace st ++ evs /\
    fs st' = replay evs (fs st) /\
    Forall (avoids (repl ++ [k])) evs.
Proof.
  intros Hcl E.
  assert (forall la lb,
      os_listdir fault (fs st) src = inr la ->
      os_listdir fault (fs st) repl = inr lb ->
      let c := dircmp_of fault (fs st) src repl la lb in
      (k ∉ common_dirs c) /\ (k ∉ left_only c) /\ (k ∉ right_only c) /\
      k ∉ common_files c) as Hun.
  { intros la lb Hla Hlb. by apply clash_unclassified. }
  destruct (unclassified_untouched fault fuel src repl k st r st' Hun E)
    as (Hsame & evs & Ht & Hav).
  destruct (compare_folders_disciplined fault fuel src repl _ _ _ E)
    as (evs' & Ht' & Hf & _).
  split_and!; [done | |].
  - intros la lb Hla Hlb c. destruct (Hun la lb Hla Hlb) as (H1 & H2 & H3 & H4).
    split_and!; try done. intros t' Hin.
    apply elem_of_diff_files in Hin as [Hin _]. done.
  - exists evs. split_and!; try done.
    rewrite Ht in Ht'. apply app_inv_head in Ht'. by subst.
Qed.

Lemma clash_untouched_witness :
  lookup_path
    (fs (snd (compare_folders no_fault 2 ["src"] ["repl"] (init tree_clash))))
    (["repl"] ++ ["k"])
  = lookup_path tree_clash (["repl"] ++ ["k"]) /\
  (forall la lb,
      os_listdir no_fault tree_clash ["src"] = inr la ->
      os_listdir no_fault tree_clash ["repl"] = inr lb ->
      let c := dircmp_of no_fault tree_clash ["src"] ["repl"] la lb in
      ("k" ∉ common_dirs c) /\ ("k" ∉ left_only c) /\ ("k" ∉ right_only c) /\
      forall t', "k" ∉ diff_files no_fault t' ["src"] ["repl"] (common_files c)) /\
  exists evs,
    trace (snd (compare_folders no_fault 2 ["src"] ["repl"] (init tree_clash)))
    = [] ++ evs /\
    fs (snd (compare_folders no_fault 2 ["src"] ["repl"] (init tree_clash)))
    = replay evs tree_clash /\
    Forall (avoids (["repl"] ++ ["k"])) evs.
Proof.
  apply (clash_untouched no_fault 2 ["src"] ["repl"] "k" (init tree_clash) (Ok tt)).
  - right. split; reflexivity.
  - vm_compute. reflexivity.
Defined.

Lemma justified_mono (src repl : path) (ctx ctx' : list event) (a : action) :
  (forall e, e ∈ ctx -> e ∈ ctx') ->
  justified src repl ctx a -> justified src repl ctx' a.
Proof.
  intros Hsub (q & k & la & lb & Ht & Hk1 & Hk2 & Hin).
  exists q, k, la, lb. auto.
Qed.

Lemma justified_child (src repl : path) (d : string) (ctx : list event)
    (a : action) :
  justified (src ++ [d]) (repl ++ [d]) ctx a -> justified src repl ctx a.
Proof.
  intros (q & k & la & lb & Ht & Hk1 & Hk2 & Hin).
  exists (d :: q), k, la, lb. rewrite <- !app_assoc in *. auto.
Qed.

Lemma contained_nil (src repl : path) (ctx : list event) :
  contained src repl ctx [].
Proof. intros e1 a e2 H. by destruct e1. Qed.

Lemma contained_app (src repl : path) (ctx e e' : list event) :
  contained src repl ctx e ->
  contained src repl (ctx ++ e) e' ->
  contained src repl ctx (e ++ e').
Proof.
  intros H1 H2 e1 a e2 Heq Hdel.
  apply app_eq_inv in Heq as [(k & Hk1 & Hk)|(k & -> & ->)].
  - destruct k as [|x k].
    + simpl in Hk. rewrite app_nil_r in Hk1. subst e' e1.
      pose proof (H2 [] a e2 eq_refl Hdel) as Hj. by rewrite app_nil_r in Hj.
    + injection Hk as <- ->. by eapply H1.
  - rewrite app_assoc. by eapply H2.
Qed.

Lemma contained_weaken (src repl : path) (ctx ctx' evs : list event) :
  (forall e, e ∈ ctx -> e ∈ ctx') ->
  contained src repl ctx evs -> contained src repl ctx' evs.
Proof.
  intros Hsub H e1 a e2 Heq Hdel.
  eapply justified_mono; [|by eapply H].
  intros e. rewrite !elem_of_app. intuition.
Qed.

Lemma contained_Forall (src repl : path) (ctx evs : list event) :
  Forall (fun ev => forall a, ev = Did a -> is_delete a = true ->
                             justified src repl ctx a) evs ->
  contained src repl ctx evs.
Proof.
  intros H e1 a e2 -> Hdel. rewrite Forall_app, Forall_cons in H.
  destruct H as (_ & H & _).
  eapply justified_mono; [|by apply H].
  intros e. rewrite elem_of_app. auto.
Qed.

#[global] Instance contained_monoidal (src repl : path) :
  Monoidal (contained src repl []).
Proof.
  split; [apply contained_nil|].
  intros e1 e2 H1 H2. apply contained_app; [done|].
  eapply contained_weaken; [|exact H2]. intros e. by rewrite elem_of_nil.
Qed.

Section Contained.

Variable fault : op -> option error.

(** The events of a stage that deletes nothing. *)
Let keeps : list event -> Prop :=
  Forall (fun ev => forall a, ev = Did a -> is_delete a = false).

(** The events of a stage whose deletions are entries of [repl] taken
    from [l]. *)
Let deletes (repl : path) (l : list string) : list event -> Prop :=
  Forall (fun ev => forall a, ev = Did a -> is_delete a = true ->
                             exists x, x ∈ l /\ target a = repl ++ [x]).

Lemma copy_files_keeps (l : list string) (src dest : path) (new : bool) :
  sat (emits (fun _ => True) keeps) (copy_files fault l src dest new).
Proof.
  apply copy_files_emits; try (by repeat constructor); try apply _.
  - intros x _. split; [|done]. constructor; [|constructor].
    by intros a [= <-].
  - intros x dst _ _. split; [|done]. constructor; [|constructor].
    by intros a [= <-].
Qed.

Lemma delete_files_deletes (l : list string) (repl : path) :
  sat (emits (fun _ => True) (deletes repl l)) (delete_files fault l repl).
Proof.
  apply delete_files_emits; try (by repeat constructor); try apply _.
  intros x Hx. split; (split; [|done]); (constructor; [|constructor]);
    intros a [= <-] _; by exists x.
Qed.

Lemma compare_folders_contained (n : nat) :
  forall src repl,
    sat (emits (fun _ => True) (contained src repl []))
      (compare_folders fault n src repl).
Proof.
  induction n as [|n IH]; intros src repl.
  { intros st r st' [= <- <-] _. split; [done|]. exists [].
    rewrite app_nil_r. split; [done | apply contained_nil]. }
  intros st r st' E _. split; [done|].
  destruct (level_emits fault (fun _ => True) (contained src repl []) keeps
              (fun evs => exists la lb,
                 os_listdir fault (fs st) src = inr la /\
                 os_listdir fault (fs st) repl = inr lb /\
                 deletes repl (right_only
                   (dircmp_of fault (fs st) src repl la lb)) evs)
              keeps n src repl st r st' E)
    as [(o & e & -> & Hfs & Ht)|
        (la & lb & e1 & e2 & e3 & e4 & Hla & Hlb & _ & Ht & H1 & H2 & H3 & H4)].
  - intros la lb Hla Hlb c. split_and!; try by constructor.
    + exists la, lb. split_and!; try done. by constructor.
    + apply sat_for_each; [apply _|]. intros d _.
      eapply emits_mono; [|apply (IH (src ++ [d]) (repl ++ [d]))].
      intros evs Hc e1 a e2 Heq Hdel. by eapply justified_child, Hc.
    + apply copy_files_keeps.
    + eapply emits_mono; [|apply delete_files_deletes].
      intros evs Hd. by exists la, lb.
    + intros diff _. apply copy_files_keeps.
  - exists [Failed o e]. split; [done|]. intros e1 a e2 Heq.
    destruct e1 as [|? [|]]; discriminate.
  - destruct H3 as (la' & lb' & Hla' & Hlb' & H3).
    rewrite Hla in Hla'. rewrite Hlb in Hlb'.
    injection Hla' as <-. injection Hlb' as <-.
    eexists. split; [exact Ht|].
    change (Classified src repl la lb :: e1 ++ e2 ++ e3 ++ e4)
      with ([Classified src repl la lb] ++ e1 ++ e2 ++ e3 ++ e4).
    apply contained_app.
    { intros e1' a e2' Heq. destruct e1' as [|? [|]]; discriminate. }
    apply contained_app.
    { eapply contained_weaken; [|exact H1]. intros ev. by rewrite elem_of_nil. }
    apply contained_app.
    { apply contained_Forall. eapply Forall_impl; [exact H2|].
      intros ev Hev a Ha Hdel. rewrite (Hev a Ha) in Hdel. discriminate. }
    apply contained_app.
    { apply contained_Forall. eapply Forall_impl; [exact H3|].
      intros ev Hev a Ha Hdel. destruct (Hev a Ha Hdel) as (x & Hx & Htgt).
      apply elem_of_right_only in Hx as (Hxb & Hxa & _).
      exists [], x, la, lb. rewrite !app_nil_r. split_and!; try done.
      rewrite !elem_of_app, list_elem_of_singleton. auto. }
    apply contained_Forall. eapply Forall_impl; [exact H4|].
    intros ev Hev a Ha Hdel. rewrite (Hev a Ha) in Hdel. discriminate.
Qed.

End Contained.

(** C6. Whatever the outcome of a run, each deletion it performs ([os.remove]
    or [shutil.rmtree]) targets an entry [k] of a replica directory at some
    relative path [q], and comes after the classification of the directory
    pair at [q] in that run, whose source listing does not hold [k] (and whose
    replica listing does); the tree changes by the recorded actions only. *)
Theorem deletion_containment (fault : op -> option error) (fuel : nat)
    (src repl : path) (st : state) (r : outcome unit) (st' : state) :
  compare_folders fault fuel src repl st = (r, st') ->
  exists evs,
    trace st' = trace st ++ evs /\
    fs st' = replay evs (fs st) /\
    contained src repl [] evs.
Proof.
  intros E.
  destruct (compare_folders_disciplined fault fuel src repl _ _ _ E)
    as (evs & Ht & Hf & _).
  destruct (compare_folders_contained fault fuel src repl _ _ _ E I)
    as (_ & evs' & Ht' & Hc).
  exists evs. split_and!; try done.
  rewrite Ht in Ht'. apply app_inv_head in Ht'. by subst.
Qed.

Lemma deletion_containment_witness :
  exists evs,
    trace (snd (compare_folders no_fault 2 ["src"] ["repl"] (init tree_stale)))
    = [] ++ evs /\
    fs (snd (compare_folders no_fault 2 ["src"] ["repl"] (init tree_stale)))
    = replay evs tree_stale /\
    contained ["src"] ["repl"] [] evs.
Proof.
  apply (deletion_containment no_fault 2 ["src"] ["repl"] (init tree_stale) (Ok tt)).
  vm_compute. reflexivity.
Defined.

(** ** The four categories *)

Lemma _cmp_range (fault : op -> option error) (t : node) (a b : path) :
  _cmp fault t a b = 0 \/ _cmp fault t a b = 1 \/ _cmp fault t a b = 2.
Proof. unfold _cmp. destruct (filecmp_cmp _ _ _ _) as [[|]|]; auto. Qed.

(** C4, as stated, fails: a file that is the same on both sides is in none
    of the four sets, which are all empty here while each directory lists
    one name. *)
Lemma partition_counterexample :
  let c := dircmp_of no_fault tree_same ["src"] ["repl"] ["a"] ["a"] in
  os_listdir no_fault tree_same ["src"] = inr ["a"] /\
  os_listdir no_fault tree_same ["repl"] = inr ["a"] /\
  common_dirs c = [] /\ left_only c = [] /\ right_only c = [] /\
  diff_files no_fault tree_same ["src"] ["repl"] (common_files c) = [].
Proof. vm_compute. split_and!; reflexivity. Qed.

(** C4, amended. The four sets are pairwise disjoint and hold only entry
    names of the two directories; an entry name is in one of them unless it
    is on the ignore list of [dircmp], or names files that compare as the
    same, or could not be compared (types differ, [stat] or the comparison
    failed), and none of those is in any of the four. *)
Theorem classification_partition (fault : op -> option error) (t : node)
    (a b : path) (la lb : list string) :
  let c := dircmp_of fault t a b la lb in
  let diff := diff_files fault t a b (common_files c) in
  let same := same_files fault t a b (common_files c) in
  let funny := funny_files fault t a b (common_files c) in
  let four x :=
    x ∈ common_dirs c \/ x ∈ left_only c \/ x ∈ right_only c \/ x ∈ diff in
  let rest x :=
    skipped x = true \/ x ∈ same \/ x ∈ funny \/ x ∈ common_funny c in
  (forall x,
      ~ (x ∈ common_dirs c /\ x ∈ left_only c) /\
      ~ (x ∈ common_dirs c /\ x ∈ right_only c) /\
      ~ (x ∈ common_dirs c /\ x ∈ diff) /\
      ~ (x ∈ left_only c /\ x ∈ right_only c) /\
      ~ (x ∈ left_only c /\ x ∈ diff) /\
      ~ (x ∈ right_only c /\ x ∈ diff)) /\
  (forall x, four x -> x ∈ la \/ x ∈ lb) /\
  (forall x, x ∈ la \/ x ∈ lb -> four x \/ rest x) /\
  (forall x, rest x -> ~ four x).
Proof.
  intros c diff same funny four rest. unfold four, rest, diff, same, funny, c.
  split_and!; intros x.
  - rewrite elem_of_diff_files, elem_of_common_files, elem_of_common_dirs,
      elem_of_left_only, elem_of_right_only, elem_of_common.
    split_and!; intros H; intuition congruence.
  - rewrite elem_of_diff_files, elem_of_common_files, elem_of_common_dirs,
      elem_of_left_only, elem_of_right_only, elem_of_common. intuition.
  - rewrite elem_of_diff_files, elem_of_same_files, elem_of_funny_files,
      elem_of_common_funny, elem_of_common_files, elem_of_common_dirs,
      elem_of_left_only, elem_of_right_only, elem_of_common.
    intros Hx. destruct (skipped x) eqn:Hs; [auto|].
    destruct (decide (x ∈ la)) as [Ha|Ha], (decide (x ∈ lb)) as [Hb|Hb];
      [|tauto|tauto|tauto].
    destruct (classify_common fault t a b x) eqn:Hc;
      [left; left; tauto| |right; do 3 right; tauto].
    destruct (_cmp_range fault t (a ++ [x]) (b ++ [x])) as [H|[H|H]].
    + right. right. left. tauto.
    + left. do 3 right. tauto.
    + right. right. right. left. tauto.
  - rewrite elem_of_diff_files, elem_of_same_files, elem_of_funny_files,
      elem_of_common_funny, elem_of_common_files, elem_of_common_dirs,
      elem_of_left_only, elem_of_right_only, elem_of_common.
    intros H1 H2. intuition congruence.
Qed.

(** ** What the applier logs *)

Lemma bind_ok_inv {A B} (m : M A) (f : A -> M B) (st : state) (b : B)
    (st' : state) :
  bind m f st = (Ok b, st') ->
  exists a st1, m st = (Ok a, st1) /\ f a st1 = (Ok b, st').
Proof.
  unfold bind. destruct (m st) as [[a|e|] st1]; try done. eauto.
Qed.

Lemma when_copy_files (fault : op -> option error) (l : list string)
    (src dest : path) (new : bool) :
  when_nonempty l (copy_files fault l src dest new) =
  copy_files fault l src dest new.
Proof. by destruct l. Qed.

Lemma when_delete_files (fault : op -> option error) (l : list string)
    (folder : path) :
  when_nonempty l (delete_files fault l folder) = delete_files fault l folder.
Proof. by destruct l. Qed.

(** The loop that logs the names of a directory: one record and one
    increment for each. *)
Lemma log_each (fault : op -> option error) (k : kind) (p : path)
    (names : list string) (st st' : state) :
  for_each names (fun file => incr k ;;; write_log fault k (p ++ [file])) st
  = (Ok tt, st') ->
  fs st' = fs st /\
  log_lines st' = log_lines st ++ ((fun f => (k, p ++ [f])) <$> names) /\
  counter k st' = counter k st + length names /\
  (forall k', k' <> k -> counter k' st' = counter k' st).
Proof.
  revert st. induction names as [|f names IH]; intros st E.
  - injection E as <-. rewrite app_nil_r. split_and!; simpl; auto.
  - cbn [for_each] in E. apply bind_ok_inv in E as ([] & st1 & E1 & E2).
    apply IH in E2 as (Hfs & Hlog & Hc & Ho).
    assert (fs st1 = fs st /\
            log_lines st1 = log_lines st ++ [(k, p ++ [f])] /\
            counter k st1 = counter k st + 1 /\
            (forall k', k' <> k -> counter k' st1 = counter k' st))
      as (Hfs1 & Hlog1 & Hc1 & Ho1).
    { revert E1. unfold bind, write_log.
      destruct k; simpl; destruct (fault AppendLog); try done;
        intros [= <-]; simpl.
      all: split_and!; try done.
      all: intros []; done. }
    rewrite Hfs, Hlog, Hc, Hfs1, Hlog1, Hc1. split_and!.
    + done.
    + by rewrite <- app_assoc.
    + simpl. lia.
    + intros k' Hk'. by rewrite Ho, Ho1.
Qed.

Lemma log_one (fault : op -> option error) (k : kind) (p : path)
    (st st' : state) :
  (incr k ;;; write_log fault k p) st = (Ok tt, st') ->
  fs st' = fs st /\
  log_lines st' = log_lines st ++ [(k, p)] /\
  counter k st' = counter k st + 1 /\
  (forall k', k' <> k -> counter k' st' = counter k' st).
Proof.
  unfold bind, write_log.
  destruct k; simpl; destruct (fault AppendLog); try done;
    intros [= <-]; simpl.
  all: split_and!; try done.
  all: intros []; done.
Qed.

(** Steps that touch neither the log nor the counters. *)
Lemma listdir_ok_inv (fault : op -> option error) (p : path)
    (st : state) (l : list string) (st' : state) :
  listdir fault p st = (Ok l, st') ->
  os_listdir fault (fs st) p = inr l /\ fs st' = fs st /\
  log_lines st' = log_lines st /\ (forall k, counter k st' = counter k st).
Proof.
  unfold listdir. destruct (os_listdir fault (fs st) p); [done|].
  intros [= <- <-]. split_and!; try done; by intros [].
Qed.

Lemma copytree_ok_inv (fault : op -> option error) (s d : path)
    (st st' : state) :
  copytree fault s d st = (Ok tt, st') ->
  shutil_copytree fault (fs st) s d = inr (fs st') /\
  log_lines st' = log_lines st /\ (forall k, counter k st' = counter k st).
Proof.
  unfold copytree. destruct (shutil_copytree fault (fs st) s d); [done|].
  intros [= <-]. split_and!; try done; by intros [].
Qed.

Lemma copy2_ok_inv (fault : op -> option error) (s dest : path)
    (st st' : state) :
  copy2 fault s dest st = (Ok tt, st') ->
  (exists dst, shutil_copy2 fault (fs st) s dest = inr (dst, fs st')) /\
  log_lines st' = log_lines st /\ (forall k, counter k st' = counter k st).
Proof.
  unfold copy2. destruct (shutil_copy2 fault (fs st) s dest) as [|[dst t']];
    [done|].
  intros [= <-]. split_and!; eauto; by intros [].
Qed.

Lemma remove_ok_inv (fault : op -> option error) (p : path) (st st' : state) :
  remove fault p st = (Ok tt, st') ->
  os_remove fault (fs st) p = inr (fs st') /\
  log_lines st' = log_lines st /\ (forall k, counter k st' = counter k st).
Proof.
  unfold remove. destruct (os_remove fault (fs st) p); [done|].
  intros [= <-]. split_and!; try done; by intros [].
Qed.

Lemma rmtree_ok_inv (fault : op -> option error) (p : path) (st st' : state) :
  rmtree fault p st = (Ok tt, st') ->
  shutil_rmtree fault (fs st) p = inr (fs st') /\
  log_lines st' = log_lines st /\ (forall k, counter k st' = counter k st).
Proof.
  unfold rmtree. destruct (shutil_rmtree fault (fs st) p); [done|].
  intros [= <-]. split_and!; try done; by intros [].
Qed.

Lemma os_listdir_inv (fault : op -> option error) (t : node) (p : path)
    (l : list string) :
  os_listdir fault t p = inr l ->
  exists m, lookup_path t p = Some (Dir m) /\ l = (map_to_list m).*1.
Proof.
  unfold os_listdir. destruct (fault _); [done|].
  destruct (lookup_path t p) as [[|m]|]; try done. intros [= <-]. eauto.
Qed.

(** C2, as stated, fails: creating a directory that holds one directory of
    two files writes one record, for the inner directory, and counts one. *)
Lemma recursive_count_counterexample :
  let res := copy_files no_fault ["d"] ["src"] ["repl"] true (init tree_deep) in
  fst res = Ok tt /\
  log_lines (snd res) = [(Create, ["src"; "d"; "e"])] /\
  file_created_count (snd res) = 1 /\
  is_dir (lookup_path tree_deep ["src"; "d"; "e"]) = true /\
  count_files <$> lookup_path tree_deep ["src"; "d"] = Some 2.
Proof. vm_compute. split_and!; reflexivity. Qed.

(** C2, amended. Copying or deleting a directory entry writes exactly one
    record and counts exactly one for each name [os.listdir] gives for that
    directory, that is for each of its immediate entries, files and
    directories alike and nothing below them, and none for the directory
    itself; copying or deleting a regular file writes one record and counts
    one.  The other counters do not move.  The two halves stand each on its
    own: every call of [copy_files] that completes, every call of
    [delete_files] that completes. *)
Theorem applier_records (fault : op -> option error) :
  (forall (file : string) (src dest : path) (new : bool) (st st' : state),
      copy_files fault [file] src dest new st = (Ok tt, st') ->
      copy_logged fault file src new st st') /\
  (forall (file : string) (folder : path) (st st' : state),
      delete_files fault [file] folder st = (Ok tt, st') ->
      delete_logged fault file folder st st').
Proof.
  unfold copy_logged, delete_logged. split.
  - intros file src dest new st1 st1' E1.
    cbv zeta. unfold copy_files in E1. cbn [for_each] in E1.
    change (basename [file]) with file in E1.
    apply bind_ok_inv in E1 as ([] & sa & E1 & Er). injection Er as <-.
    apply bind_ok_inv in E1 as (d & sb & Ed & E1).
    injection Ed as <- <-.
    destruct (os_path_isdir fault (fs st1) (src ++ [file])).
    + apply bind_ok_inv in E1 as ([] & sc & Ec & E1).
      apply copytree_ok_inv in Ec as (_ & Hl0 & Hc0).
      assert (exists names sd,
        listdir fault (src ++ [file]) sc = (Ok names, sd) /\
        for_each names (fun f =>
          incr (if new then Create else Copy) ;;;
          write_log fault (if new then Create else Copy) ((src ++ [file]) ++ [f]))
          sd = (Ok tt, sa)) as (names & sd & El & Ef).
      { destruct new; apply bind_ok_inv in E1 as (names & sd & El & Ef); eauto. }
      apply listdir_ok_inv in El as (Hls & Hfs1 & Hl1 & Hc1).
      apply log_each in Ef as (Hfs2 & Hl2 & Hc2 & Ho2).
      apply os_listdir_inv in Hls as (m & Hm & ->).
      split.
      * intros k' Hk'. by rewrite Ho2, Hc1, Hc0.
      * exists m. rewrite Hfs2, Hfs1. split_and!; [done | |].
        -- by rewrite Hl2, Hl1, Hl0.
        -- rewrite Hc2, Hc1, Hc0, length_fmap, length_map_to_list. done.
    + apply bind_ok_inv in E1 as ([] & sc & Ec & E1).
      apply copy2_ok_inv in Ec as (_ & Hl0 & Hc0).
      assert ((incr (if new then Create else Copy) ;;;
               write_log fault (if new then Create else Copy) (src ++ [file])) sc
              = (Ok tt, sa)) as Ef by (by destruct new).
      apply log_one in Ef as (_ & Hl2 & Hc2 & Ho2).
      split.
      * intros k' Hk'. by rewrite Ho2, Hc0.
      * by rewrite Hl2, Hc2, Hl0, Hc0.
  - intros file' folder st2 st2' E2.
    cbv zeta. unfold delete_files in E2. cbn [for_each] in E2.
    change (basename [file']) with file' in E2.
    apply bind_ok_inv in E2 as ([] & sa & E2 & Er). injection Er as <-.
    apply bind_ok_inv in E2 as (d & sb & Ed & E2).
    injection Ed as <- <-.
    destruct (os_path_isdir fault (fs st2) (folder ++ [file'])).
    + apply bind_ok_inv in E2 as (names & sc & El & E2).
      apply bind_ok_inv in E2 as ([] & sd & Ef & Erm).
      apply listdir_ok_inv in El as (Hls & Hfs1 & Hl1 & Hc1).
      apply (log_each fault Delete) in Ef as (Hfs2 & Hl2 & Hc2 & Ho2).
      apply rmtree_ok_inv in Erm as (_ & Hl3 & Hc3).
      apply os_listdir_inv in Hls as (m & Hm & ->).
      split.
      * intros k' Hk'. by rewrite Hc3, Ho2, Hc1.
      * exists m. split_and!; [done | |].
        -- by rewrite Hl3, Hl2, Hl1.
        -- rewrite Hc3, Hc2, Hc1, length_fmap, length_map_to_list. done.
    + apply bind_ok_inv in E2 as ([] & sc & Ec & E2).
      apply remove_ok_inv in Ec as (_ & Hl0 & Hc0).
      apply (log_one fault Delete) in E2 as (_ & Hl2 & Hc2 & Ho2).
      split.
      * intros k' Hk'. by rewrite Ho2, Hc0.
      * by rewrite Hl2, Hc2, Hl0, Hc0.
Qed.

Lemma applier_records_witness :
  copy_logged no_fault "sub" ["src"] true (init tree_fresh)
    (snd (copy_files no_fault ["sub"] ["src"] ["repl"] true (init tree_fresh))) /\
  delete_logged no_fault "old" ["repl"] (init tree_stale)
    (snd (delete_files no_fault ["old"] ["repl"] (init tree_stale))).
Proof.
  destruct (applier_records no_fault) as [Hcopy Hdelete]. split.
  - apply (Hcopy "sub" ["src"] ["repl"] true (init tree_fresh)).
    vm_compute. reflexivity.
  - apply (Hdelete "old" ["repl"] (init tree_stale)).
    vm_compute. reflexivity.
Defined.

(** ** The order of the stages *)

#[global] Instance any_monoidal : Monoidal (fun _ => True).
Proof. by split. Qed.

Lemma disciplined_emits {A} (m : M A) :
  sat disciplined m -> sat (emits (fun _ => True) (fun _ => True)) m.
Proof.
  apply sat_mono. intros x a b (evs & Ht & _) _. split; [done|]. eauto.
Qed.

(** *** The writes of a stage that completes *)

Lemma actions_app (e1 e2 : list event) :
  actions (e1 ++ e2) = actions e1 ++ actions e2.
Proof. apply flat_map_app. Qed.

Section Writes.

Variable fault : op -> option error.

Lemma adds_trans (a b c : state) (e1 e2 : list event) :
  adds a b e1 -> adds b c e2 -> adds a c (e1 ++ e2).
Proof. unfold adds. intros -> ->. by rewrite app_assoc. Qed.

Lemma log_one_adds (k : kind) (p : path) (st st' : state) :
  (incr k ;;; write_log fault k p) st = (Ok tt, st') ->
  adds st st' [Logged k p] /\ fs st' = fs st.
Proof.
  unfold bind, write_log.
  destruct k; simpl; destruct (fault AppendLog); try done;
    intros [= <-]; by split.
Qed.

Lemma log_each_adds (k : kind) (p : path) (names : list string)
    (st st' : state) :
  for_each names (fun file => incr k ;;; write_log fault k (p ++ [file])) st
  = (Ok tt, st') ->
  exists evs, adds st st' evs /\ actions evs = [] /\ fs st' = fs st.
Proof.
  revert st. induction names as [|f names IH]; intros st E.
  - injection E as <-. exists []. unfold adds. by rewrite app_nil_r.
  - cbn [for_each] in E. apply bind_ok_inv in E as ([] & s1 & E1 & E2).
    apply log_one_adds in E1 as [H1 F1].
    apply IH in E2 as (evs & H2 & Ha & F2).
    exists ([Logged k (p ++ [f])] ++ evs). split_and!.
    + by eapply adds_trans.
    + done.
    + congruence.
Qed.

Lemma listdir_ok_adds (p : path) (st : state) (l : list string) (st' : state) :
  listdir fault p st = (Ok l, st') ->
  adds st st' [Listed p l] /\ fs st' = fs st.
Proof.
  unfold listdir. destruct (os_listdir fault (fs st) p); [done|].
  by intros [= <- <-].
Qed.

Lemma copytree_ok_adds (s d : path) (st st' : state) :
  copytree fault s d st = (Ok tt, st') ->
  adds st st' [Did (PutTree s d)] /\ fs st' = put (fs st) d (lookup_path (fs st) s).
Proof.
  unfold copytree. destruct (shutil_copytree fault (fs st) s d) as [|t'] eqn:E;
    [done|].
  intros [= <-]. split; [done|]. by apply copytree_effect in E.
Qed.

Lemma copy2_ok_adds (s dest : path) (x : string) (st st' : state) :
  copy2 fault (s ++ [x]) dest st = (Ok tt, st') ->
  is_dir (lookup_path (fs st) dest) = true ->
  adds st st' [Did (PutFile (s ++ [x]) (dest ++ [x]))] /\
  fs st' = put (fs st) (dest ++ [x]) (lookup_path (fs st) (s ++ [x])).
Proof.
  unfold copy2.
  destruct (shutil_copy2 fault (fs st) (s ++ [x]) dest) as [|[dst t']] eqn:E;
    [done|].
  intros [= <-] Hd.
  assert (dst = dest ++ [x]) as ->.
  { revert E. unfold shutil_copy2. destruct (fault _); [done|]. cbv zeta.
    rewrite basename_app.
    destruct (lookup_path (fs st) (s ++ [x])) as [[d m|]|]; try done.
    destruct (bool_decide _); [done|].
    destruct (os_path_isdir fault (fs st) dest).
    - destruct (lookup_path (fs st) (dest ++ [x])) as [[|]|]; try done;
        destruct (_ && _); try done; intros E; by inversion E.
    - destruct (lookup_path (fs st) dest) as [[|]|]; done. }
  split; [done|]. by apply copy2_effect in E.
Qed.

Lemma remove_ok_adds (p : path) (st st' : state) :
  remove fault p st = (Ok tt, st') ->
  adds st st' [Did (DelFile p)] /\ fs st' = put (fs st) p None.
Proof.
  unfold remove. destruct (os_remove fault (fs st) p) as [|t'] eqn:E; [done|].
  intros [= <-]. split; [done|]. by apply remove_effect in E.
Qed.

Lemma rmtree_ok_adds (p : path) (st st' : state) :
  rmtree fault p st = (Ok tt, st') ->
  adds st st' [Did (DelTree p)] /\ fs st' = put (fs st) p None.
Proof.
  unfold rmtree. destruct (shutil_rmtree fault (fs st) p) as [|t'] eqn:E; [done|].
  intros [= <-]. split; [done|]. by apply rmtree_effect in E.
Qed.

(** A call of [copy_files] that completes wrote once for each name, at the
    entry of that name, in the order of the list. *)
Lemma copy_files_writes (l : list string) (src repl : path) (new : bool) :
  forall st st',
    copy_files fault l src repl new st = (Ok tt, st') ->
    is_dir (lookup_path (fs st) repl) = true ->
    is_dir (lookup_path (fs st') repl) = true /\
    exists evs,
      adds st st' evs /\
      target <$> actions evs = (fun x => repl ++ [x]) <$> l.
Proof.
  induction l as [|x l IH]; intros st st' E Hd.
  { injection E as <-. split; [done|]. exists []. unfold adds.
    by rewrite app_nil_r. }
  unfold copy_files in E. cbn [for_each] in E.
  apply bind_ok_inv in E as ([] & s1 & Ex & El).
  change (basename [x]) with x in Ex.
  assert (is_dir (lookup_path (fs s1) repl) = true /\
          exists evs, adds st s1 evs /\ target <$> actions evs = [repl ++ [x]])
    as (Hd1 & e1 & H1 & Ha1).
  { apply bind_ok_inv in Ex as (d & s0 & Ed & Ex). injection Ed as <- <-.
    destruct (os_path_isdir fault (fs st) (src ++ [x])).
    - apply bind_ok_inv in Ex as ([] & sa & Ec & Ex).
      apply copytree_ok_adds in Ec as [Hc Fc].
      assert (exists names sb,
        listdir fault (src ++ [x]) sa = (Ok names, sb) /\
        for_each names (fun f =>
          incr (if new then Create else Copy) ;;;
          write_log fault (if new then Create else Copy) ((src ++ [x]) ++ [f]))
          sb = (Ok tt, s1)) as (names & sb & El' & Ef).
      { destruct new; apply bind_ok_inv in Ex as (names & sb & El' & Ef); eauto. }
      apply listdir_ok_adds in El' as [Hl Fl].
      apply log_each_adds in Ef as (e3 & H3 & Ha3 & F3).
      split.
      + rewrite F3, Fl, Fc. by apply is_dir_put_below.
      + exists ([Did (PutTree (src ++ [x]) (repl ++ [x]))] ++
                [Listed (src ++ [x]) names] ++ e3).
        split; [by repeat eapply adds_trans|].
        rewrite !actions_app, Ha3. done.
    - apply bind_ok_inv in Ex as ([] & sa & Ec & Ex).
      apply copy2_ok_adds in Ec as [Hc Fc]; [|done].
      assert ((incr (if new then Create else Copy) ;;;
               write_log fault (if new then Create else Copy) (src ++ [x])) sa
              = (Ok tt, s1)) as Ef by (by destruct new).
      apply log_one_adds in Ef as [H3 F3].
      split.
      + rewrite F3, Fc. by apply is_dir_put_below.
      + exists ([Did (PutFile (src ++ [x]) (repl ++ [x]))] ++
                [Logged (if new then Create else Copy) (src ++ [x])]).
        split; [by eapply adds_trans|done]. }
  destruct (IH s1 st' El Hd1) as (Hd2 & e2 & H2 & Ha2).
  split; [done|]. exists (e1 ++ e2). split; [by eapply adds_trans|].
  rewrite actions_app, fmap_app, Ha1, Ha2. done.
Qed.

(** The same for [delete_files]. *)
Lemma delete_files_writes (l : list string) (repl : path) :
  forall st st',
    delete_files fault l repl st = (Ok tt, st') ->
    is_dir (lookup_path (fs st) repl) = true ->
    is_dir (lookup_path (fs st') repl) = true /\
    exists evs,
      adds st st' evs /\
      target <$> actions evs = (fun x => repl ++ [x]) <$> l.
Proof.
  induction l as [|x l IH]; intros st st' E Hd.
  { injection E as <-. split; [done|]. exists []. unfold adds.
    by rewrite app_nil_r. }
  unfold delete_files in E. cbn [for_each] in E.
  apply bind_ok_inv in E as ([] & s1 & Ex & El).
  change (basename [x]) with x in Ex.
  assert (is_dir (lookup_path (fs s1) repl) = true /\
          exists evs, adds st s1 evs /\ target <$> actions evs = [repl ++ [x]])
    as (Hd1 & e1 & H1 & Ha1).
  { apply bind_ok_inv in Ex as (d & s0 & Ed & Ex). injection Ed as <- <-.
    destruct (os_path_isdir fault (fs st) (repl ++ [x])).
    - apply bind_ok_inv in Ex as (names & sa & El' & Ex).
      apply bind_ok_inv in Ex as ([] & sb & Ef & Erm).
      apply listdir_ok_adds in El' as [Hl Fl].
      apply (log_each_adds Delete) in Ef as (e2 & H2 & Ha2 & F2).
      apply rmtree_ok_adds in Erm as [Hr Fr].
      split.
      + rewrite Fr, F2, Fl. by apply is_dir_put_below.
      + exists ([Listed (repl ++ [x]) names] ++ e2 ++
                [Did (DelTree (repl ++ [x]))]).
        split; [by repeat eapply adds_trans|].
        rewrite !actions_app, Ha2. done.
    - apply bind_ok_inv in Ex as ([] & sa & Ec & Ex).
      apply remove_ok_adds in Ec as [Hc Fc].
      apply (log_one_adds Delete) in Ex as [H3 F3].
      split.
      + rewrite F3, Fc. by apply is_dir_put_below.
      + exists ([Did (DelFile (repl ++ [x]))] ++
                [Logged Delete (repl ++ [x])]).
        split; [by eapply adds_trans|done]. }
  destruct (IH s1 st' El Hd1) as (Hd2 & e2 & H2 & Ha2).
  split; [done|]. exists (e1 ++ e2). split; [by eapply adds_trans|].
  rewrite actions_app, fmap_app, Ha1, Ha2. done.
Qed.

End Writes.

Section Stages.

Variable fault : op -> option error.

Lemma scan_ok_inv (a b : path) (st : state) (c : dircmp) (st0 : state) :
  dircmp_scan fault a b st = (Ok c, st0) ->
  exists la lb,
    os_listdir fault (fs st) a = inr la /\
    os_listdir fault (fs st) b = inr lb /\
    c = dircmp_of fault (fs st) a b la lb /\
    fs st0 = fs st /\
    trace st0 = trace st ++ [Classified a b la lb].
Proof.
  unfold dircmp_scan.
  destruct (os_listdir fault (fs st) a) as [|la]; [done|].
  destruct (os_listdir fault (fs st) b) as [|lb]; [done|].
  intros [= <- <-]. exists la, lb. done.
Qed.

(** A call that completes began by classifying its directory pair. *)
Lemma run_ok_classified (n : nat) (a b : path) (st st' : state) :
  compare_folders fault n a b st = (Ok tt, st') ->
  exists la lb evs, trace st' = trace st ++ Classified a b la lb :: evs.
Proof.
  destruct n as [|n]; [done|]. intros E.
  destruct (level_emits fault (fun _ => True) (fun _ => True) (fun _ => True)
              (fun _ => True) (fun _ => True) n a b st _ st' E)
    as [(o & e & ? & _)|(la & lb & e1 & e2 & e3 & e4 & _ & _ & _ & Ht & _)];
    [|done|by eauto].
  intros la lb _ _ c. split_and!; try done.
  - apply disciplined_emits, sat_for_each; [apply _|]. intros d _.
    apply compare_folders_disciplined.
  - apply disciplined_emits, copy_files_disciplined.
  - apply disciplined_emits, delete_files_disciplined.
  - intros diff _. apply disciplined_emits, copy_files_disciplined.
Qed.

(** A loop of recursive calls that completes classified every pair. *)
Lemma children_visited (n : nat) (src repl : path) (l : list string)
    (st st' : state) :
  for_each l (fun folder =>
    compare_folders fault n (src ++ [folder]) (repl ++ [folder])) st
  = (Ok tt, st') ->
  exists evs,
    trace st' = trace st ++ evs /\
    forall d, d ∈ l ->
      exists la lb, Classified (src ++ [d]) (repl ++ [d]) la lb ∈ evs.
Proof.
  revert st. induction l as [|d l IH]; intros st E.
  - injection E as <-. exists []. rewrite app_nil_r. split; [done|].
    intros d Hd. by apply elem_of_nil in Hd.
  - cbn [for_each] in E. apply bind_ok_inv in E as ([] & sa & Ed & El).
    apply run_ok_classified in Ed as (la & lb & evs1 & Ht1).
    apply IH in El as (evs2 & Ht2 & Hv).
    exists ((Classified (src ++ [d]) (repl ++ [d]) la lb :: evs1) ++ evs2).
    split; [by rewrite Ht2, Ht1, <- app_assoc|].
    intros d' Hd'. apply elem_of_cons in Hd' as [->|Hd'].
    + exists la, lb. apply elem_of_app. left. by left.
    + destruct (Hv d' Hd') as (la' & lb' & Hin). exists la', lb'.
      apply elem_of_app. by right.
Qed.

Let dir_kept (repl : path) : node -> Prop :=
  fun t => is_dir (lookup_path t repl) = true.

Lemma dir_kept_adm (repl : path) (Q : list event -> Prop) (a : action)
    (x : string) :
  target a = repl ++ [x] -> Q [Did a] -> adm (dir_kept repl) Q a.
Proof.
  intros Ha HQ. split; [done|]. intros t Ht.
  destruct (apply_action_put t a) as [v ->]. rewrite Ha.
  by apply is_dir_put_below.
Qed.

Lemma recursion_events (n : nat) (src repl : path) (l : list string) :
  sat (emits (dir_kept repl) (Forall (recursion_event repl l)))
    (for_each l (fun folder =>
       compare_folders fault n (src ++ [folder]) (repl ++ [folder]))).
Proof.
  apply sat_for_each; [apply _|]. intros d Hd.
  eapply emits_mono;
    [|apply (compare_folders_inside fault n (src ++ [d]) (repl ++ [d]))].
  - intros evs Hevs. eapply Forall_impl; [exact Hevs|].
    intros [] Hev; try done. simpl. eauto.
  - intros t w v Ht Hw. apply inside_child in Hw as (x & q & ->).
    by apply is_dir_put_below.
Qed.

Lemma copy_events (l : list string) (src repl : path) (new : bool) :
  sat (emits (dir_kept repl)
         (Forall (copy_event (if new then Create else Copy) src repl l)))
    (copy_files fault l src repl new).
Proof.
  apply copy_files_emits; try (by repeat constructor); try apply _.
  - intros x Hx. apply (dir_kept_adm _ _ _ x); [done|].
    constructor; [|constructor]. simpl. eauto.
  - intros x dst Hx [->|[-> Hno]].
    + apply (dir_kept_adm _ _ _ x); [done|].
      constructor; [|constructor]. simpl. eauto.
    + destruct Hno. by intros t' ?.
Qed.

Lemma deletion_events (l : list string) (repl : path) :
  sat (emits (dir_kept repl) (Forall (deletion_event repl l)))
    (delete_files fault l repl).
Proof.
  apply delete_files_emits; try (by repeat constructor); try apply _.
  intros x Hx. split; (apply (dir_kept_adm _ _ _ x); [done|]);
    (constructor; [|constructor]); simpl; eauto.
Qed.

(** C8. In a call that completes, at any level: after the classification
    come the events of the recursion, in which every common subdirectory is
    classified in its turn, whatever the other categories hold, and which
    writes inside common subdirectories only; then the creations, one copy
    at the entry of each source-only name, in the order of the list; then
    the deletions, one at the entry of each replica-only name; then the
    overwrites, one copy at the entry of each file that differs, these being
    the common files that [filecmp] finds different on the tree as the
    deletions left it; nothing of a stage comes before the end of the stage
    before. *)
Theorem stage_order (n : nat) (src repl : path) (st st' : state) :
  compare_folders fault (S n) src repl st = (Ok tt, st') ->
  exists la lb e1 e2 e3 e4 diff,
    os_listdir fault (fs st) src = inr la /\
    os_listdir fault (fs st) repl = inr lb /\
    let c := dircmp_of fault (fs st) src repl la lb in
    trace st' = trace st ++ Classified src repl la lb :: e1 ++ e2 ++ e3 ++ e4 /\
    (forall d, d ∈ common_dirs c ->
       exists la' lb', Classified (src ++ [d]) (repl ++ [d]) la' lb' ∈ e1) /\
    Forall (recursion_event repl (common_dirs c)) e1 /\
    Forall (copy_event Create src repl (left_only c)) e2 /\
    target <$> actions e2 = (fun x => repl ++ [x]) <$> left_only c /\
    Forall (deletion_event repl (right_only c)) e3 /\
    target <$> actions e3 = (fun x => repl ++ [x]) <$> right_only c /\
    diff = diff_files fault (replay (e1 ++ e2 ++ e3) (fs st)) src repl
             (common_files c) /\
    Forall (copy_event Copy src repl diff) e4 /\
    target <$> actions e4 = (fun x => repl ++ [x]) <$> diff.
Proof.
  intros E. cbn [compare_folders] in E.
  apply bind_ok_inv in E as (c & st0 & Es & E).
  apply scan_ok_inv in Es as (la & lb & Hla & Hlb & -> & Hfs0 & Ht0).
  set (c := dircmp_of fault (fs st) src repl la lb) in *.
  apply bind_ok_inv in E as ([] & st1 & E1 & E). rewrite when_for_each in E1.
  apply bind_ok_inv in E as ([] & st2 & E2 & E). rewrite when_copy_files in E2.
  apply bind_ok_inv in E as ([] & st3 & E3 & E). rewrite when_delete_files in E3.
  apply bind_ok_inv in E as (diff & st3' & Ed & E4).
  injection Ed as <- <-. rewrite when_copy_files in E4.
  assert (dir_kept repl (fs st0)) as HI0.
  { unfold dir_kept. rewrite Hfs0. by apply os_listdir_is_dir in Hlb. }
  destruct (recursion_events n src repl _ _ _ _ E1 HI0) as (HI1 & e1 & Ht1 & H1).
  destruct (copy_events _ src repl true _ _ _ E2 HI1) as (HI2 & e2 & Ht2 & H2).
  destruct (deletion_events _ repl _ _ _ E3 HI2) as (HI3 & e3 & Ht3 & H3).
  destruct (copy_events _ src repl false _ _ _ E4 HI3) as (HI4 & e4 & Ht4 & H4).
  destruct (children_visited n src repl _ _ _ E1) as (e1' & Ht1' & Hv).
  rewrite Ht1 in Ht1'. apply app_inv_head in Ht1'. subst e1'.
  (* the writes of the three stages *)
  destruct (copy_files_writes fault _ src repl true _ _ E2 HI1) as (_ & w2 & Hw2 & Ha2).
  unfold adds in Hw2. rewrite Ht2 in Hw2. apply app_inv_head in Hw2. subst w2.
  destruct (delete_files_writes fault _ repl _ _ E3 HI2) as (_ & w3 & Hw3 & Ha3).
  unfold adds in Hw3. rewrite Ht3 in Hw3. apply app_inv_head in Hw3. subst w3.
  destruct (copy_files_writes fault _ src repl false _ _ E4 HI3) as (_ & w4 & Hw4 & Ha4).
  unfold adds in Hw4. rewrite Ht4 in Hw4. apply app_inv_head in Hw4. subst w4.
  (* the tree on which the files are compared *)
  assert (fs st3 = replay (e1 ++ e2 ++ e3) (fs st)) as Hfs3.
  { assert (sat disciplined
      (for_each (common_dirs c) (fun folder =>
         compare_folders fault n (src ++ [folder]) (repl ++ [folder])))) as D1.
    { apply sat_for_each; [apply _|]. intros d _.
      apply compare_folders_disciplined. }
    destruct (D1 _ _ _ E1) as (d1 & Hd1 & Hf1 & _).
    rewrite Ht1 in Hd1. apply app_inv_head in Hd1. subst d1.
    destruct (copy_files_disciplined fault _ _ _ _ _ _ _ E2) as (d2 & Hd2 & Hf2 & _).
    rewrite Ht2 in Hd2. apply app_inv_head in Hd2. subst d2.
    destruct (delete_files_disciplined fault _ _ _ _ _ E3) as (d3 & Hd3 & Hf3 & _).
    rewrite Ht3 in Hd3. apply app_inv_head in Hd3. subst d3.
    rewrite !replay_app, <- Hfs0, <- Hf1, <- Hf2. done. }
  exists la, lb, e1, e2, e3, e4,
    (diff_files fault (fs st3) src repl (common_files c)).
  split_and!; [done | done |]. cbv zeta. split_and!; try done.
  - rewrite Ht4, Ht3, Ht2, Ht1, Ht0. by rewrite <- !app_assoc.
  - by rewrite Hfs3.
Qed.

End Stages.

Lemma stage_order_witness :
  exists la lb e1 e2 e3 e4 diff,
    os_listdir no_fault tree_mixed ["src"] = inr la /\
    os_listdir no_fault tree_mixed ["repl"] = inr lb /\
    let c := dircmp_of no_fault tree_mixed ["src"] ["repl"] la lb in
    trace (snd (compare_folders no_fault 2 ["src"] ["repl"] (init tree_mixed)))
    = [] ++ Classified ["src"] ["repl"] la lb :: e1 ++ e2 ++ e3 ++ e4 /\
    (forall d, d ∈ common_dirs c ->
       exists la' lb', Classified (["src"] ++ [d]) (["repl"] ++ [d]) la' lb' ∈ e1) /\
    Forall (recursion_event ["repl"] (common_dirs c)) e1 /\
    Forall (copy_event Create ["src"] ["repl"] (left_only c)) e2 /\
    target <$> actions e2 = (fun x => ["repl"] ++ [x]) <$> left_only c /\
    Forall (deletion_event ["repl"] (right_only c)) e3 /\
    target <$> actions e3 = (fun x => ["repl"] ++ [x]) <$> right_only c /\
    diff = diff_files no_fault (replay (e1 ++ e2 ++ e3) tree_mixed)
             ["src"] ["repl"] (common_files c) /\
    Forall (copy_event Copy ["src"] ["repl"] diff) e4 /\
    target <$> actions e4 = (fun x => ["repl"] ++ [x]) <$> diff.
Proof.
  apply (stage_order no_fault 1 ["src"] ["repl"] (init tree_mixed)).
  vm_compute. reflexivity.
Defined.

(** ** The mirror function *)

Lemma depth_child (m : gmap string node) (k : string) (c : node) :
  m !! k = Some c -> depth c < depth (Dir m).
Proof.
  intros Hk. cbn [depth]. apply Nat.lt_succ_r. revert k c Hk.
  apply (map_fold_weak_ind
    (fun (r : nat) (m : gmap string node) =>
       forall k c, m !! k = Some c -> depth c <= r)).
  - intros k c Hk. by rewrite lookup_empty in Hk.
  - intros i x m0 r Hi IH k c Hk.
    destruct (decide (i = k)) as [->|Hne].
    + rewrite lookup_insert_eq in Hk. injection Hk as ->. lia.
    + rewrite lookup_insert_ne in Hk by done. specialize (IH k c Hk). lia.
Qed.

Lemma sync_lookup (n : nat) (s r : gmap string node) (k : string) :
  sync (S n) s r !! k = sync_entry (sync n) k (s !! k) (r !! k).
Proof.
  cbn [sync]. rewrite map_lookup_imap.
  destruct ((s ∪ r) !! k) as [v|] eqn:Hu; [done|].
  apply lookup_union_None in Hu as [-> ->]. simpl.
  unfold sync_entry. by destruct (skipped k).
Qed.

Lemma same_file_refl (d : string) (t : Z) : same_file d t d t = true.
Proof.
  unfold same_file. by rewrite Nat.eqb_refl, Z.eqb_refl.
Qed.

Lemma settled_refl (n : nat) (s : gmap string node) : settled n s s.
Proof.
  revert s. induction n as [|n IH]; intros s; [done|].
  intros k _. destruct (s !! k) as [[d t|a]|]; [apply same_file_refl|apply IH|done].
Qed.

Lemma settled_sync (n : nat) (s r : gmap string node) :
  settled n s (sync n s r).
Proof.
  revert s r. induction n as [|n IH]; intros s r; [done|].
  intros k Hk. rewrite sync_lookup. unfold sync_entry. rewrite Hk.
  destruct (s !! k) as [[d1 t1|a]|], (r !! k) as [[d2 t2|b]|]; try done;
    try (destruct (same_file d1 t1 d2 t2) eqn:E; [done|]);
    first [apply same_file_refl | apply IH | apply settled_refl].
Qed.

Lemma agree_refl (a : option node) : agree a a.
Proof. by destruct a as [[]|]. Qed.

Lemma faithful_entry (n : nat) (s r : gmap string node) (k : string) :
  faithful (S n) s r = true ->
  is_Some (s !! k) \/ is_Some (r !! k) ->
  entry_ok (faithful n) k (s !! k) (r !! k) = true.
Proof.
  cbn [faithful]. rewrite forallb_forall. intros H Hk. apply H.
  apply list_elem_of_In, list_elem_of_fmap.
  assert (is_Some ((s ∪ r) !! k)) as [v Hv].
  { apply lookup_union_is_Some. tauto. }
  exists (k, v). split; [done|]. by apply elem_of_map_to_list.
Qed.

(** Where the comparison misses nothing the mirror function mirrors. *)
Lemma faithful_agree (n : nat) :
  forall (s r : gmap string node) (q : path),
    depth (Dir s) <= n ->
    faithful n s r = true ->
    agree (lookup_path (Dir s) q) (lookup_path (Dir (sync n s r)) q).
Proof.
  induction n as [|n IH]; intros s r q Hd Hf.
  { cbn [depth] in Hd. lia. }
  destruct q as [|k q]; [done|].
  cbn [lookup_path]. rewrite sync_lookup.
  destruct (s !! k) as [a|] eqn:Hs, (r !! k) as [b|] eqn:Hr.
  - pose proof (faithful_entry n s r k Hf) as He. rewrite Hs, Hr in He.
    specialize (He (or_introl (mk_is_Some _ _ eq_refl))).
    unfold entry_ok in He. apply andb_true_iff in He as [Hsk He].
    apply negb_true_iff in Hsk. unfold sync_entry. rewrite Hsk.
    destruct a as [d1 t1|a], b as [d2 t2|b]; try done.
    + destruct (same_file d1 t1 d2 t2); simpl in He.
      * apply bool_decide_eq_true in He as ->. by destruct q.
      * by destruct q.
    + apply IH; [|done]. apply depth_child in Hs. lia.
  - pose proof (faithful_entry n s r k Hf) as He. rewrite Hs, Hr in He.
    specialize (He (or_introl (mk_is_Some _ _ eq_refl))).
    unfold entry_ok in He. apply andb_true_iff in He as [Hsk _].
    apply negb_true_iff in Hsk. unfold sync_entry. rewrite Hsk.
    destruct a; apply agree_refl.
  - pose proof (faithful_entry n s r k Hf) as He. rewrite Hs, Hr in He.
    specialize (He (or_intror (mk_is_Some _ _ eq_refl))).
    unfold entry_ok in He. apply andb_true_iff in He as [Hsk _].
    apply negb_true_iff in Hsk. unfold sync_entry. by rewrite Hsk.
  - unfold sync_entry. by destruct (skipped k).
Qed.

(** ** Runs on a system that refuses nothing *)

Lemma bind_ok {A B} (m : M A) (f : A -> M B) (st : state) (a : A)
    (st1 : state) :
  m st = (Ok a, st1) -> bind m f st = f a st1.
Proof. unfold bind. by intros ->. Qed.

Lemma elem_of_keys (m : gmap string node) (x : string) :
  x ∈ (map_to_list m).*1 <-> is_Some (m !! x).
Proof.
  rewrite list_elem_of_fmap. split.
  - intros ([y v] & -> & Hin). apply elem_of_map_to_list in Hin. by eexists.
  - intros [v Hv]. exists (x, v). split; [done|]. by apply elem_of_map_to_list.
Qed.

Lemma lookup_child (t : node) (p : path) (m : gmap string node) (x : string) :
  lookup_path t p = Some (Dir m) -> lookup_path t (p ++ [x]) = m !! x.
Proof.
  intros H. rewrite lookup_path_app, H. simpl. by destruct (m !! x).
Qed.

Lemma isdir_no_fault (t : node) (p : path) :
  os_path_isdir no_fault t p = is_dir (lookup_path t p).
Proof.
  unfold os_path_isdir, os_stat, no_fault.
  by destruct (lookup_path t p) as [[|]|].
Qed.

Lemma parent_child (p : path) (x : string) : parent (p ++ [x]) = p.
Proof. unfold parent. apply removelast_last. Qed.

Lemma listdir_run (p : path) (m : gmap string node) (st : state) :
  lookup_path (fs st) p = Some (Dir m) ->
  exists st', listdir no_fault p st = (Ok (map_to_list m).*1, st') /\
              fs st' = fs st.
Proof.
  intros H. unfold listdir, os_listdir, no_fault. rewrite H. eauto.
Qed.

Lemma copytree_run (s d : path) (x : string) (sm : gmap string node)
    (st : state) :
  lookup_path (fs st) s = Some (Dir sm) ->
  lookup_path (fs st) (d ++ [x]) = None ->
  is_dir (lookup_path (fs st) d) = true ->
  exists st', copytree no_fault s (d ++ [x]) st = (Ok tt, st') /\
              fs st' = put (fs st) (d ++ [x]) (Some (Dir sm)).
Proof.
  intros Hs Hd Hp. unfold copytree, shutil_copytree, no_fault.
  rewrite Hs, Hd, parent_child, Hp. eauto.
Qed.

Lemma copy2_run (s dest : path) (x : string) (d : string) (t : Z)
    (st : state) :
  lookup_path (fs st) (s ++ [x]) = Some (File d t) ->
  is_dir (lookup_path (fs st) dest) = true ->
  is_dir (lookup_path (fs st) (dest ++ [x])) = false ->
  s <> dest ->
  exists st', copy2 no_fault (s ++ [x]) dest st = (Ok tt, st') /\
              fs st' = put (fs st) (dest ++ [x]) (Some (File d t)).
Proof.
  intros Hs Hd Hx Hne. unfold copy2, shutil_copy2.
  rewrite isdir_no_fault, Hd, basename_app. unfold no_fault at 1.
  rewrite Hs, parent_child, Hd.
  rewrite bool_decide_eq_false_2
    by (intros Heq; by apply app_inj_tail in Heq as [? _]).
  rewrite (bool_decide_eq_false_2 (dest ++ [x] = []))
    by (by destruct dest).
  destruct (lookup_path (fs st) (dest ++ [x])) as [[|]|]; try done; eauto.
Qed.

Lemma remove_run (p : path) (d : string) (t : Z) (st : state) :
  lookup_path (fs st) p = Some (File d t) ->
  exists st', remove no_fault p st = (Ok tt, st') /\
              fs st' = put (fs st) p None.
Proof.
  intros H. unfold remove, os_remove, no_fault. rewrite H. eauto.
Qed.

Lemma rmtree_run (p : path) (m : gmap string node) (st : state) :
  lookup_path (fs st) p = Some (Dir m) ->
  exists st', rmtree no_fault p st = (Ok tt, st') /\
              fs st' = put (fs st) p None.
Proof.
  intros H. unfold rmtree, shutil_rmtree, no_fault. rewrite H. eauto.
Qed.

Lemma log_one_run (k : kind) (p : path) (st : state) :
  exists st', (incr k ;;; write_log no_fault k p) st = (Ok tt, st') /\
              fs st' = fs st.
Proof. destruct k; eexists; split; reflexivity. Qed.

Lemma log_each_run (k : kind) (p : path) (names : list string) (st : state) :
  exists st',
    for_each names (fun file => incr k ;;; write_log no_fault k (p ++ [file])) st
    = (Ok tt, st') /\ fs st' = fs st.
Proof.
  revert st. induction names as [|f names IH]; intros st; [by eexists|].
  destruct (log_one_run k (p ++ [f]) st) as (s1 & E1 & H1).
  destruct (IH s1) as (s2 & E2 & H2).
  exists s2. cbn [for_each].
  rewrite (bind_ok _ _ _ _ _ E1). split; [done | congruence].
Qed.

Lemma for_each_single {A} (x : A) (body : A -> M unit) (st st' : state) :
  for_each [x] body st = (Ok tt, st') <-> body x st = (Ok tt, st').
Proof.
  cbn [for_each]. unfold bind, ret.
  destruct (body x st) as [[[]|e|] s1]; split; congruence.
Qed.

(** ** One level computes the mirror function *)

Lemma apart_irrefl (p : path) : apart p p = false.
Proof.
  unfold apart. assert (is_prefix p p = true) as ->; [|done].
  apply is_prefix_spec. exists []. by rewrite app_nil_r.
Qed.

Lemma apart_children (p q : path) (x : string) :
  apart p q = true -> apart (p ++ [x]) (q ++ [x]) = true.
Proof.
  intros H. apply apart_below. rewrite apart_sym. apply apart_below.
  by rewrite apart_sym.
Qed.

Section Mirror.

Variables (fs0 : node) (src repl : path) (s r : gmap string node) (n' : nat).
Hypothesis Hap : apart src repl = true.
Hypothesis Hs : lookup_path fs0 src = Some (Dir s).
Hypothesis Hr : lookup_path fs0 repl = Some (Dir r).

(** The recursive calls compute the mirror function. *)
Hypothesis Hrec : forall d a b st,
  s !! d = Some (Dir a) ->
  lookup_path (fs st) (src ++ [d]) = Some (Dir a) ->
  lookup_path (fs st) (repl ++ [d]) = Some (Dir b) ->
  exists st',
    compare_folders no_fault n' (src ++ [d]) (repl ++ [d]) st = (Ok tt, st') /\
    fs st' = put (fs st) (repl ++ [d]) (Some (Dir (sync n' a b))).

Local Abbreviation at_repl := (with_replica fs0 repl).
Local Abbreviation tgt := (mirror_entry n' s r).
Local Abbreviation cmp0 := (pair_dircmp fs0 src repl s r).

Lemma at_repl_start : at_repl r = fs0.
Proof. unfold with_replica. by apply put_same. Qed.

Lemma at_src (m : gmap string node) (q : path) :
  lookup_path (at_repl m) (src ++ q) = lookup_path fs0 (src ++ q).
Proof.
  unfold with_replica. apply lookup_put_apart.
  rewrite apart_sym. apply apart_below. by rewrite apart_sym.
Qed.

Lemma at_src_child (m : gmap string node) (x : string) :
  lookup_path (at_repl m) (src ++ [x]) = s !! x.
Proof. rewrite at_src. by apply lookup_child. Qed.

Lemma at_repl_root (m : gmap string node) :
  lookup_path (at_repl m) repl = Some (Dir m).
Proof. unfold with_replica. by eapply lookup_put_same. Qed.

Lemma at_repl_child (m : gmap string node) (x : string) :
  lookup_path (at_repl m) (repl ++ [x]) = m !! x.
Proof. apply lookup_child, at_repl_root. Qed.

Lemma at_repl_put (m : gmap string node) (x : string) v :
  put (at_repl m) (repl ++ [x]) v = at_repl (partial_alter (fun _ => v) x m).
Proof.
  rewrite (put_child _ _ _ _ _ (at_repl_root m)). unfold with_replica.
  by eapply put_put.
Qed.

Lemma src_ne_repl : src <> repl.
Proof. intros Heq. rewrite Heq, apart_irrefl in Hap. discriminate. Qed.

(** *** The classification, read on the two directories *)

Lemma classify_pure (x : string) :
  classify_common no_fault fs0 src repl x =
  match s !! x, r !! x with
  | Some (Dir _), Some (Dir _) => CDir
  | Some (File _ _), Some (File _ _) => CFile
  | _, _ => CFunny
  end.
Proof.
  unfold classify_common, os_stat, no_fault.
  rewrite (lookup_child _ _ _ x Hs), (lookup_child _ _ _ x Hr).
  by destruct (s !! x) as [[|]|], (r !! x) as [[|]|].
Qed.

Lemma in_common_dirs (x : string) :
  x ∈ common_dirs cmp0 <->
  skipped x = false /\ exists a b, s !! x = Some (Dir a) /\ r !! x = Some (Dir b).
Proof.
  unfold pair_dircmp. rewrite elem_of_common_dirs, elem_of_common, !elem_of_keys,
    classify_pure.
  split.
  - intros ((Ha & Hb & Hsk) & Hc).
    destruct (s !! x) as [[|a]|], (r !! x) as [[|b]|]; try done. eauto.
  - intros (Hsk & a & b & -> & ->). split_and!; eauto.
Qed.

Lemma in_common_files (x : string) :
  x ∈ common_files cmp0 <->
  skipped x = false /\
  exists d1 t1 d2 t2, s !! x = Some (File d1 t1) /\ r !! x = Some (File d2 t2).
Proof.
  unfold pair_dircmp. rewrite elem_of_common_files, elem_of_common, !elem_of_keys,
    classify_pure.
  split.
  - intros ((Ha & Hb & Hsk) & Hc).
    destruct (s !! x) as [[|a]|], (r !! x) as [[|b]|]; try done. eauto 10.
  - intros (Hsk & d1 & t1 & d2 & t2 & -> & ->). split_and!; eauto.
Qed.

Lemma in_left_only (x : string) :
  x ∈ left_only cmp0 <-> skipped x = false /\ is_Some (s !! x) /\ r !! x = None.
Proof.
  unfold pair_dircmp. rewrite elem_of_left_only, !elem_of_keys.
  rewrite <- eq_None_not_Some. tauto.
Qed.

Lemma in_right_only (x : string) :
  x ∈ right_only cmp0 <-> skipped x = false /\ s !! x = None /\ is_Some (r !! x).
Proof.
  unfold pair_dircmp. rewrite elem_of_right_only, !elem_of_keys.
  rewrite <- eq_None_not_Some. tauto.
Qed.

Lemma cmp_pure (m : gmap string node) (x : string)
    (d1 : string) (t1 : Z) (d2 : string) (t2 : Z) :
  s !! x = Some (File d1 t1) -> m !! x = Some (File d2 t2) ->
  _cmp no_fault (at_repl m) (src ++ [x]) (repl ++ [x]) =
  if same_file d1 t1 d2 t2 then 0 else 1.
Proof.
  intros H1 H2.
  unfold _cmp, filecmp_cmp, _do_cmp, os_stat, no_fault, sig_eqb, same_file.
  rewrite at_src_child, at_repl_child, H1, H2.
  destruct (Nat.eqb_spec (String.length d1) (String.length d2)) as [Hl|Hl];
    destruct (Z.eqb_spec t1 t2) as [Ht|Ht]; simpl.
  - rewrite bool_decide_eq_true_2; [done|congruence].
  - rewrite bool_decide_eq_false_2 by congruence.
    by destruct (bool_decide (d1 = d2)).
  - rewrite bool_decide_eq_false_2 by congruence. done.
  - rewrite bool_decide_eq_false_2 by congruence. done.
Qed.

(** *** What each stage does to one entry *)

Lemma body_rec (d : string) (a b m : gmap string node) (st : state) :
  fs st = at_repl m ->
  s !! d = Some (Dir a) -> m !! d = Some (Dir b) ->
  exists st',
    for_each [d] (fun folder =>
      compare_folders no_fault n' (src ++ [folder]) (repl ++ [folder])) st
    = (Ok tt, st') /\
    fs st' = at_repl (<[d := Dir (sync n' a b)]> m).
Proof.
  intros Hfs Ha Hb.
  destruct (Hrec d a b st Ha) as (st' & E & Hfs').
  - by rewrite Hfs, at_src_child.
  - by rewrite Hfs, at_repl_child.
  - exists st'. split; [by apply for_each_single|].
    by rewrite Hfs', Hfs, at_repl_put.
Qed.

Lemma body_copy (x : string) (v : node) (m : gmap string node) (st : state)
    (new : bool) :
  fs st = at_repl m ->
  s !! x = Some v ->
  match v with
  | Dir _ => m !! x = None
  | File _ _ => is_dir (m !! x) = false
  end ->
  exists st',
    copy_files no_fault [x] src repl new st = (Ok tt, st') /\
    fs st' = at_repl (<[x := v]> m).
Proof.
  intros Hfs Hx Hm. unfold copy_files.
  setoid_rewrite for_each_single. change (basename [x]) with x.
  unfold bind at 1, isdir at 1. rewrite isdir_no_fault, Hfs, at_src_child, Hx.
  destruct v as [d t|sm]; cbn [is_dir].
  - destruct (copy2_run src repl x d t st) as (s1 & E1 & H1).
    + by rewrite Hfs, at_src_child.
    + by rewrite Hfs, at_repl_root.
    + by rewrite Hfs, at_repl_child.
    + apply src_ne_repl.
    + rewrite (bind_ok _ _ _ _ _ E1).
      destruct (log_one_run (if new then Create else Copy) (src ++ [x]) s1)
        as (s2 & E2 & H2).
      exists s2. split; [by destruct new|].
      by rewrite H2, H1, Hfs, at_repl_put.
  - destruct (copytree_run (src ++ [x]) repl x sm st) as (s1 & E1 & H1).
    + by rewrite Hfs, at_src_child.
    + by rewrite Hfs, at_repl_child.
    + by rewrite Hfs, at_repl_root.
    + rewrite (bind_ok _ _ _ _ _ E1).
      rewrite Hfs, at_repl_put in H1.
      destruct (listdir_run (src ++ [x]) sm s1) as (s2 & E2 & H2).
      { by rewrite H1, at_src_child. }
      destruct (log_each_run (if new then Create else Copy) (src ++ [x])
                  (map_to_list sm).*1 s2) as (s3 & E3 & H3).
      exists s3. split; [|by rewrite H3, H2, H1].
      destruct new; by rewrite (bind_ok _ _ _ _ _ E2).
Qed.

Lemma body_delete (x : string) (v : node) (m : gmap string node) (st : state) :
  fs st = at_repl m ->
  m !! x = Some v ->
  exists st',
    delete_files no_fault [x] repl st = (Ok tt, st') /\
    fs st' = at_repl (delete x m).
Proof.
  intros Hfs Hx. unfold delete_files.
  setoid_rewrite for_each_single. change (basename [x]) with x.
  unfold bind at 1, isdir at 1. rewrite isdir_no_fault, Hfs, at_repl_child, Hx.
  destruct v as [d t|rm]; cbn [is_dir].
  - destruct (remove_run (repl ++ [x]) d t st) as (s1 & E1 & H1).
    { by rewrite Hfs, at_repl_child. }
    rewrite (bind_ok _ _ _ _ _ E1).
    destruct (log_one_run Delete (repl ++ [x]) s1) as (s2 & E2 & H2).
    exists s2. split; [done|]. by rewrite H2, H1, Hfs, at_repl_put.
  - destruct (listdir_run (repl ++ [x]) rm st) as (s1 & E1 & H1).
    { by rewrite Hfs, at_repl_child. }
    rewrite (bind_ok _ _ _ _ _ E1).
    destruct (log_each_run Delete (repl ++ [x]) (map_to_list rm).*1 s1)
      as (s2 & E2 & H2).
    destruct (rmtree_run (repl ++ [x]) rm s2) as (s3 & E3 & H3).
    { by rewrite H2, H1, Hfs, at_repl_child. }
    exists s3. split.
    + by rewrite (bind_ok _ _ _ _ _ E2).
    + by rewrite H3, H2, H1, Hfs, at_repl_put.
Qed.

(** *** A loop over distinct entries *)

Lemma loop_entries (body : string -> M unit) (l : list string) :
  NoDup l ->
  (forall x m st, x ∈ l -> fs st = at_repl m -> m !! x = r !! x ->
     exists st', for_each [x] body st = (Ok tt, st') /\
                 fs st' = at_repl (partial_alter (fun _ => tgt x) x m)) ->
  forall (D : list string) m st,
    (forall x, x ∈ l -> x ∉ D) ->
    fs st = at_repl m ->
    (forall k, (k ∈ D -> m !! k = tgt k) /\ (k ∉ D -> m !! k = r !! k)) ->
    exists st' m',
      for_each l body st = (Ok tt, st') /\
      fs st' = at_repl m' /\
      (forall k, (k ∈ l ++ D -> m' !! k = tgt k) /\
                 (k ∉ l ++ D -> m' !! k = r !! k)).
Proof.
  induction l as [|x l IH]; intros Hnd Hbody D m st HlD Hfs Hinv.
  { exists st, m. done. }
  apply NoDup_cons in Hnd as [Hx Hnd].
  destruct (Hbody x m st) as (s1 & E1 & H1); [by left | done | |].
  { apply Hinv, HlD. by left. }
  apply (for_each_single x body) in E1.
  destruct (IH Hnd) with (D := x :: D) (st := s1)
      (m := partial_alter (fun _ => tgt x) x m) as (st' & m' & E & Hfs' & Hinv').
  - intros y m0 st0 Hy. apply Hbody. by right.
  - intros y Hy HyD. apply elem_of_cons in HyD as [->|HyD]; [done|].
    apply (HlD y); [by right|done].
  - done.
  - intros k. split.
    + intros Hk. destruct (decide (k = x)) as [->|Hne].
      * by rewrite lookup_partial_alter_eq.
      * rewrite lookup_partial_alter_ne by done.
        apply Hinv. apply elem_of_cons in Hk as [?|?]; done.
    + intros Hk. rewrite not_elem_of_cons in Hk. destruct Hk as [Hne Hk].
      rewrite lookup_partial_alter_ne by done. by apply Hinv.
  - exists st', m'. cbn [for_each]. rewrite (bind_ok (body x) _ st tt s1 E1).
    split_and!; [done | done |]. intros k. destruct (Hinv' k) as [Hi1 Hi2].
    split; intros Hk.
    + apply Hi1. rewrite elem_of_app, elem_of_cons.
      change ((x :: l) ++ D) with (x :: (l ++ D)) in Hk.
      rewrite elem_of_cons, elem_of_app in Hk. tauto.
    + apply Hi2. rewrite elem_of_app, elem_of_cons.
      change ((x :: l) ++ D) with (x :: (l ++ D)) in Hk.
      rewrite elem_of_cons, elem_of_app in Hk. tauto.
Qed.

Lemma loop_copy (new : bool) (l : list string) :
  NoDup l ->
  (forall x m st, x ∈ l -> fs st = at_repl m -> m !! x = r !! x ->
     exists st', copy_files no_fault [x] src repl new st = (Ok tt, st') /\
                 fs st' = at_repl (partial_alter (fun _ => tgt x) x m)) ->
  forall (D : list string) m st,
    (forall x, x ∈ l -> x ∉ D) ->
    fs st = at_repl m ->
    (forall k, (k ∈ D -> m !! k = tgt k) /\ (k ∉ D -> m !! k = r !! k)) ->
    exists st' m',
      copy_files no_fault l src repl new st = (Ok tt, st') /\
      fs st' = at_repl m' /\
      (forall k, (k ∈ l ++ D -> m' !! k = tgt k) /\
                 (k ∉ l ++ D -> m' !! k = r !! k)).
Proof. unfold copy_files. apply loop_entries. Qed.

Lemma loop_delete (l : list string) :
  NoDup l ->
  (forall x m st, x ∈ l -> fs st = at_repl m -> m !! x = r !! x ->
     exists st', delete_files no_fault [x] repl st = (Ok tt, st') /\
                 fs st' = at_repl (partial_alter (fun _ => tgt x) x m)) ->
  forall (D : list string) m st,
    (forall x, x ∈ l -> x ∉ D) ->
    fs st = at_repl m ->
    (forall k, (k ∈ D -> m !! k = tgt k) /\ (k ∉ D -> m !! k = r !! k)) ->
    exists st' m',
      delete_files no_fault l repl st = (Ok tt, st') /\
      fs st' = at_repl m' /\
      (forall k, (k ∈ l ++ D -> m' !! k = tgt k) /\
                 (k ∉ l ++ D -> m' !! k = r !! k)).
Proof. unfold delete_files. apply loop_entries. Qed.

(** *** The level *)

Lemma tgt_untouched (k : string) :
  k ∉ common_dirs cmp0 -> k ∉ left_only cmp0 -> k ∉ right_only cmp0 ->
  (forall d1 t1 d2 t2,
      s !! k = Some (File d1 t1) -> r !! k = Some (File d2 t2) ->
      skipped k = false -> same_file d1 t1 d2 t2 = true) ->
  r !! k = tgt k.
Proof.
  rewrite in_common_dirs, in_left_only, in_right_only.
  intros H1 H2 H3 H4. unfold mirror_entry, sync_entry.
  destruct (skipped k) eqn:Hsk; [done|].
  destruct (s !! k) as [[d1 t1|a]|] eqn:Hsk1, (r !! k) as [[d2 t2|b]|] eqn:Hrk;
    try done.
  - by rewrite (H4 d1 t1 d2 t2).
  - destruct H2. eauto.
  - destruct H1. eauto.
  - destruct H2. eauto.
  - destruct H3. eauto.
  - destruct H3. eauto.
Qed.

Lemma level_sync (st : state) :
  fs st = fs0 ->
  exists st',
    compare_folders no_fault (S n') src repl st = (Ok tt, st') /\
    fs st' = at_repl (sync (S n') s r).
Proof.
  intros Hfs. cbn [compare_folders].
  assert (exists st0, dircmp_scan no_fault src repl st = (Ok cmp0, st0) /\
                      fs st0 = fs0) as (st0 & Escan & Hfs0).
  { unfold dircmp_scan, os_listdir. unfold no_fault at 1 2.
    rewrite Hfs, Hs, Hr. eexists. split; [reflexivity|done]. }
  rewrite (bind_ok _ _ _ _ _ Escan).
  assert (NoDup (map_to_list s).*1) as Hnds by apply NoDup_fst_map_to_list.
  assert (NoDup (map_to_list r).*1) as Hndr by apply NoDup_fst_map_to_list.
  (* the recursion *)
  rewrite when_for_each.
  destruct (loop_entries
    (fun folder => compare_folders no_fault n' (src ++ [folder]) (repl ++ [folder]))
    (common_dirs cmp0)) with (D := @nil string) (m := r) (st := st0)
    as (st1 & m1 & E1 & Hfs1 & Hinv1).
  { by apply NoDup_common_dirs. }
  { intros x m s0 Hx Hm Hmx. apply in_common_dirs in Hx as (Hsk & a & b & Ha & Hb).
    assert (tgt x = Some (Dir (sync n' a b))) as ->.
    { unfold mirror_entry, sync_entry. by rewrite Hsk, Ha, Hb. }
    apply body_rec; [done | done | congruence]. }
  { intros x _ Hx. by apply elem_of_nil in Hx. }
  { by rewrite at_repl_start. }
  { intros k. split; [intros Hk; by apply elem_of_nil in Hk | done]. }
  rewrite (bind_ok _ _ _ _ _ E1).
  (* the creations *)
  rewrite when_copy_files.
  destruct (loop_copy true (left_only cmp0)) with
    (D := common_dirs cmp0 ++ []) (m := m1) (st := st1)
    as (st2 & m2 & E2 & Hfs2 & Hinv2);
    [by apply NoDup_left_only | | | exact Hfs1 | exact Hinv1 |].
  { intros x m s0 Hx Hm Hmx. apply in_left_only in Hx as (Hsk & [v Hv] & Hn).
    assert (tgt x = Some v) as ->.
    { unfold mirror_entry, sync_entry. rewrite Hsk, Hv, Hn. by destruct v. }
    apply (body_copy x v m s0 true); [done | done |].
    rewrite Hmx, Hn. by destruct v. }
  { intros x Hx. rewrite app_nil_r, in_common_dirs.
    apply in_left_only in Hx as (_ & _ & Hn). intros (_ & a & b & _ & Hb).
    congruence. }
  rewrite (bind_ok _ _ _ _ _ E2).
  (* the deletions *)
  rewrite when_delete_files.
  destruct (loop_delete (right_only cmp0)) with
    (D := left_only cmp0 ++ common_dirs cmp0 ++ []) (m := m2) (st := st2)
    as (st3 & m3 & E3 & Hfs3 & Hinv3);
    [by apply NoDup_right_only | | | exact Hfs2 | exact Hinv2 |].
  { intros x m s0 Hx Hm Hmx. apply in_right_only in Hx as (Hsk & Hn & [v Hv]).
    assert (tgt x = None) as ->.
    { unfold mirror_entry, sync_entry. by rewrite Hsk, Hn. }
    apply (body_delete x v m s0); [done | congruence]. }
  { intros x Hx. rewrite app_nil_r, elem_of_app, in_common_dirs, in_left_only.
    apply in_right_only in Hx as (_ & Hn & _).
    intros [(_ & [v Hv] & _)|(_ & a & b & Ha & _)]; congruence. }
  rewrite (bind_ok _ _ _ _ _ E3).
  (* the overwrites *)
  rewrite (bind_ok (dircmp_diff_files no_fault src repl cmp0) _ st3
             (diff_files no_fault (fs st3) src repl (common_files cmp0)) st3 eq_refl).
  set (diff := diff_files no_fault (fs st3) src repl (common_files cmp0)).
  assert (forall x, x ∈ common_files cmp0 -> m3 !! x = r !! x) as Hm3.
  { intros x Hx. apply Hinv3.
    rewrite app_nil_r, !elem_of_app, in_right_only, in_left_only, in_common_dirs.
    apply in_common_files in Hx as (_ & d1 & t1 & d2 & t2 & H1 & H2).
    intros [(_ & Hn & _)|[(_ & _ & Hn)|(_ & a & b & Ha & _)]]; congruence. }
  assert (forall x, x ∈ diff <->
            skipped x = false /\
            exists d1 t1 d2 t2,
              s !! x = Some (File d1 t1) /\ r !! x = Some (File d2 t2) /\
              same_file d1 t1 d2 t2 = false) as Hdiff.
  { intros x. unfold diff. rewrite elem_of_diff_files, Hfs3. split.
    - intros [Hx Hc]. pose proof (Hm3 x Hx) as Hmx.
      apply in_common_files in Hx as (Hsk & d1 & t1 & d2 & t2 & H1 & H2).
      rewrite (cmp_pure m3 x d1 t1 d2 t2) in Hc by congruence.
      split; [done|]. exists d1, t1, d2, t2. split_and!; try done.
      by destruct (same_file d1 t1 d2 t2).
    - intros (Hsk & d1 & t1 & d2 & t2 & H1 & H2 & Hsame).
      assert (x ∈ common_files cmp0) as Hx by (apply in_common_files; eauto 10).
      split; [done|]. rewrite (cmp_pure m3 x d1 t1 d2 t2); [|done|].
      + by rewrite Hsame.
      + rewrite (Hm3 x Hx). done. }
  rewrite when_copy_files.
  destruct (loop_copy false diff) with
    (D := right_only cmp0 ++ left_only cmp0 ++ common_dirs cmp0 ++ []) (m := m3) (st := st3)
    as (st4 & m4 & E4 & Hfs4 & Hinv4);
    [ | | | exact Hfs3 | exact Hinv3 |].
  { unfold diff, diff_files. apply NoDup_filter. by apply NoDup_common_files. }
  { intros x m s0 Hx Hm Hmx.
    apply Hdiff in Hx as (Hsk & d1 & t1 & d2 & t2 & H1 & H2 & Hsame).
    assert (tgt x = Some (File d1 t1)) as ->.
    { unfold mirror_entry, sync_entry. by rewrite Hsk, H1, H2, Hsame. }
    apply (body_copy x (File d1 t1) m s0 false); [done | done |].
    by rewrite Hmx, H2. }
  { intros x Hx.
    rewrite app_nil_r, !elem_of_app, in_right_only, in_left_only, in_common_dirs.
    apply Hdiff in Hx as (_ & d1 & t1 & d2 & t2 & H1 & H2 & _).
    intros [(_ & Hn & _)|[(_ & _ & Hn)|(_ & a & b & Ha & _)]]; congruence. }
  exists st4. split; [exact E4|]. rewrite Hfs4. f_equal.
  apply map_eq. intros k. rewrite sync_lookup. fold (mirror_entry n' s r k).
  destruct (Hinv4 k) as [Hin Hout].
  destruct (decide (k ∈ diff ++ right_only cmp0 ++ left_only cmp0 ++ common_dirs cmp0 ++ []))
    as [Hk|Hk]; [by apply Hin|].
  rewrite (Hout Hk).
  rewrite app_nil_r, !elem_of_app in Hk.
  apply tgt_untouched; try tauto.
  intros d1 t1 d2 t2 H1 H2 Hsk.
  destruct (same_file d1 t1 d2 t2) eqn:Hsame; [done|].
  destruct Hk. left. apply Hdiff. eauto 10.
Qed.

End Mirror.

(** The program computes the mirror function: with enough fuel for the
    depth of the source, a run on two directories apart completes and
    leaves every thing as it was but the replica directory, which is what
    [sync] says. *)
Lemma compare_folders_sync (n : nat) :
  forall (src repl : path) (st : state) (s r : gmap string node),
    apart src repl = true ->
    lookup_path (fs st) src = Some (Dir s) ->
    lookup_path (fs st) repl = Some (Dir r) ->
    depth (Dir s) <= n ->
    exists st',
      compare_folders no_fault n src repl st = (Ok tt, st') /\
      fs st' = put (fs st) repl (Some (Dir (sync n s r))).
Proof.
  induction n as [|n IH]; intros src repl st s r Hap Hs Hr Hd.
  { cbn [depth] in Hd. lia. }
  apply (level_sync (fs st) src repl s r n Hap Hs Hr); [|done].
  intros d a b st0 Ha Hsa Hrb. apply IH; try done.
  - by apply apart_children.
  - apply depth_child in Ha. lia.
Qed.

(** ** Mirror convergence *)




(** ** Idempotence *)

Lemma quiet_refl (st : state) : quiet st st.
Proof.
  split_and!; try done. exists []. by rewrite app_nil_r.
Qed.

Lemma quiet_trans (a b c : state) : quiet a b -> quiet b c -> quiet a c.
Proof.
  intros (H1 & H2 & H3 & e1 & H4 & H5) (G1 & G2 & G3 & e2 & G4 & G5).
  split_and!.
  - congruence.
  - congruence.
  - intros k. by rewrite G3, H3.
  - exists (e1 ++ e2). rewrite G4, H4, app_assoc. split; [done|].
    by apply Forall_app.
Qed.

Lemma for_each_quiet (l : list string) (body : string -> M unit) (st : state) :
  (forall x st0, x ∈ l -> fs st0 = fs st ->
     exists st', body x st0 = (Ok tt, st') /\ quiet st0 st') ->
  exists st', for_each l body st = (Ok tt, st') /\ quiet st st'.
Proof.
  revert st. induction l as [|x l IH]; intros st Hbody.
  { exists st. split; [done | apply quiet_refl]. }
  destruct (Hbody x st) as (s1 & E1 & Hq1); [by left | done |].
  destruct (IH s1) as (s2 & E2 & Hq2).
  { intros y st0 Hy Hfs. apply Hbody; [by right|].
    destruct Hq1 as (Hfs1 & _). congruence. }
  exists s2. cbn [for_each]. rewrite (bind_ok (body x) _ st tt s1 E1).
  split; [done | by eapply quiet_trans].
Qed.

(** On a settled replica a run acts on nothing. *)
Lemma compare_folders_settled (n : nat) :
  forall (src repl : path) (st : state) (s r : gmap string node),
    apart src repl = true ->
    lookup_path (fs st) src = Some (Dir s) ->
    lookup_path (fs st) repl = Some (Dir r) ->
    depth (Dir s) <= n ->
    settled n s r ->
    exists st',
      compare_folders no_fault n src repl st = (Ok tt, st') /\ quiet st st'.
Proof.
  induction n as [|n IH]; intros src repl st s r Hap Hs Hr Hd Hset.
  { cbn [depth] in Hd. lia. }
  cbn [compare_folders].
  set (c := dircmp_of no_fault (fs st) src repl
              (map_to_list s).*1 (map_to_list r).*1).
  assert (exists st0, dircmp_scan no_fault src repl st = (Ok c, st0) /\
                      quiet st st0) as (st0 & Escan & Hq0).
  { unfold dircmp_scan, os_listdir. unfold no_fault at 1 2.
    rewrite Hs, Hr. eexists. split; [reflexivity|].
    split_and!; try done. eexists. split; [reflexivity|].
    by repeat constructor. }
  rewrite (bind_ok _ _ _ _ _ Escan).
  assert (left_only c = []) as ->.
  { apply elem_of_nil_inv. intros x Hx.
    apply (in_left_only (fs st) src repl s r) in Hx as (Hsk & [v Hv] & Hn).
    specialize (Hset x Hsk). rewrite Hv, Hn in Hset. by destruct v. }
  assert (right_only c = []) as ->.
  { apply elem_of_nil_inv. intros x Hx.
    apply (in_right_only (fs st) src repl s r) in Hx as (Hsk & Hn & [v Hv]).
    specialize (Hset x Hsk). by rewrite Hv, Hn in Hset. }
  rewrite when_for_each.
  destruct (for_each_quiet (common_dirs c)
    (fun folder => compare_folders no_fault n (src ++ [folder]) (repl ++ [folder]))
    st0) as (st1 & E1 & Hq1).
  { intros d s0 Hd0 Hfs0.
    apply (in_common_dirs (fs st) src repl s r Hs Hr) in Hd0
      as (Hsk & a & b & Ha & Hb).
    destruct Hq0 as (Hfs00 & _).
    apply (IH (src ++ [d]) (repl ++ [d]) s0 a b).
    - by apply apart_children.
    - rewrite Hfs0, Hfs00, (lookup_child _ _ _ d Hs). done.
    - rewrite Hfs0, Hfs00, (lookup_child _ _ _ d Hr). done.
    - apply depth_child in Ha. lia.
    - specialize (Hset d Hsk). by rewrite Ha, Hb in Hset. }
  rewrite (bind_ok _ _ _ _ _ E1). cbn [when_nonempty].
  rewrite (bind_ok (ret tt) _ st1 tt st1 eq_refl).
  rewrite (bind_ok (ret tt) _ st1 tt st1 eq_refl).
  rewrite (bind_ok (dircmp_diff_files no_fault src repl c) _ st1
             (diff_files no_fault (fs st1) src repl (common_files c)) st1 eq_refl).
  assert (diff_files no_fault (fs st1) src repl (common_files c) = []) as ->.
  { apply elem_of_nil_inv. intros x Hx.
    apply elem_of_diff_files in Hx as [Hx Hc].
    apply (in_common_files (fs st) src repl s r Hs Hr) in Hx
      as (Hsk & d1 & t1 & d2 & t2 & H1 & H2).
    destruct Hq0 as (Hfs00 & _), Hq1 as (Hfs1 & _).
    rewrite Hfs1, Hfs00 in Hc.
    assert (with_replica (fs st) repl r = fs st) as Heq
      by (by apply put_same).
    rewrite <- Heq in Hc at 1.
    rewrite (cmp_pure (fs st) src repl s r Hap Hs Hr r x d1 t1 d2 t2 H1 H2) in Hc.
    specialize (Hset x Hsk). rewrite H1, H2 in Hset. by rewrite Hset in Hc. }
  exists st1. split; [done|]. by eapply quiet_trans.
Qed.




(** * The process and the methods on their own *)

(** ** Start-up *)

Lemma lift_run {A} (m : M A) (p : process) :
  lift m p =
  (match fst (m (mem p)) with
   | Ok a => Returned a
   | Raise e => Uncaught (OSError e)
   | OutOfFuel => TooDeep
   end, Process (snd (m (mem p))) (stdout p)).
Proof. unfold lift. by destruct (m (mem p)) as [[a|e|] st']. Qed.

(** X1. [parse_arguments] writes nothing: tree, log and console are as
    before, whatever it gives.  It lists the source, then the replica, and
    fails with the error of the first listing that fails; with both listed
    and no [--log_file] it fails with [TypeError]; otherwise it returns the
    object, holding the two listings, with the three counters at zero. *)
Theorem start_up (fault : op -> option error) (abspath : string -> path)
    (args : Namespace.t) (p : process) :
  exists r p',
    parse_arguments fault abspath args p = (r, p') /\
    fs (mem p') = fs (mem p) /\
    log_lines (mem p') = log_lines (mem p) /\
    stdout p' = stdout p /\
    match os_listdir fault (fs (mem p)) (abspath (Namespace.src_path args)),
          os_listdir fault (fs (mem p)) (abspath (Namespace.repl_path args)),
          Namespace.log_file args with
    | inl e, _, _ => r = Uncaught (OSError e)
    | inr _, inl e, _ => r = Uncaught (OSError e)
    | inr _, inr _, None => r = Uncaught TypeError
    | inr la, inr lb, Some f =>
        r = Returned
              (SyncObject.Make "test"
                 (Folder.Make "" (abspath (Namespace.src_path args)) la)
                 (Folder.Make "" (abspath (Namespace.repl_path args)) lb)
                 (Namespace.interval args) (abspath f)) /\
        forall k, counter k (mem p') = 0
    end.
Proof.
  unfold parse_arguments, Folder__init__, SyncObject__init__.
  unfold bindP at 1. unfold bindP at 1. rewrite lift_run. unfold listdir.
  destruct (os_listdir fault (fs (mem p)) (abspath (Namespace.src_path args)))
    as [e|la] eqn:Ea.
  { eexists _, _. split; [reflexivity|]. by split_and!. }
  cbn. unfold bindP at 1. unfold bindP at 1. rewrite lift_run. cbn.
  destruct (os_listdir fault (fs (mem p)) (abspath (Namespace.repl_path args)))
    as [e|lb] eqn:Eb.
  { eexists _, _. split; [reflexivity|]. by split_and!. }
  cbn. destruct (Namespace.log_file args) as [f|].
  - eexists _, _. split; [reflexivity|]. cbn. split_and!; try done.
    by intros [].
  - eexists _, _. split; [reflexivity|]. by split_and!.
Qed.

(** The object [parse_arguments] returns has the interval of the command
    line; and [parse_arguments] is no loop. *)
Lemma parse_arguments_returns (fault : op -> option error)
    (abspath : string -> path) (args : Namespace.t) (p : process) :
  match fst (parse_arguments fault abspath args p) with
  | Returned sync => SyncObject.interval sync = Namespace.interval args
  | Uncaught _ => True
  | StillLooping | TooDeep => False
  end.
Proof.
  unfold parse_arguments, Folder__init__, SyncObject__init__.
  unfold bindP at 1. unfold bindP at 1. rewrite lift_run. unfold listdir.
  destruct (os_listdir fault (fs (mem p)) (abspath (Namespace.src_path args)));
    [done|].
  cbn. unfold bindP at 1. unfold bindP at 1. rewrite lift_run. cbn.
  destruct (os_listdir fault (fs (mem p)) (abspath (Namespace.repl_path args)));
    [done|].
  cbn. by destruct (Namespace.log_file args).
Qed.

(** ** The loop *)

Section Loop.

Variable fault : op -> option error.
Variable sleep_fault : Z -> option exn.
Variables (fuel : nat) (self : SyncObject.t).

Local Abbreviation source_root := (Folder.root_path (SyncObject.source self)).
Local Abbreviation replica_root := (Folder.root_path (SyncObject.replica self)).
Local Abbreviation loop :=
  (fun turns => compare_root_loop fault sleep_fault turns fuel self).

Lemma turn_raise (turns : nat) (p : process) (e : error) (st1 : state) :
  compare_folders fault fuel source_root replica_root (mem p) = (Raise e, st1) ->
  loop (S turns) p = (Uncaught (OSError e), Process st1 (stdout p)).
Proof.
  intros E. cbn [compare_root_loop]. unfold bindP at 1. by rewrite lift_run, E.
Qed.

Lemma turn_fuel (turns : nat) (p : process) (st1 : state) :
  compare_folders fault fuel source_root replica_root (mem p) = (OutOfFuel, st1) ->
  loop (S turns) p = (TooDeep, Process st1 (stdout p)).
Proof.
  intros E. cbn [compare_root_loop]. unfold bindP at 1. by rewrite lift_run, E.
Qed.

(** A turn whose run completes: the counts are printed, the counters
    reset, and the sleep decides. *)
Lemma turn_ok (turns : nat) (p : process) (st1 : state) :
  compare_folders fault fuel source_root replica_root (mem p) = (Ok tt, st1) ->
  loop (S turns) p =
  match SyncObject.interval self with
  | None => (Uncaught TypeError, after_turn p st1)
  | Some secs =>
      match sleep_fault secs with
      | Some x => (Uncaught x, after_turn p st1)
      | None => loop turns (after_turn p st1)
      end
  end.
Proof.
  intros E. cbn [compare_root_loop]. unfold bindP at 1. rewrite lift_run, E.
  cbn. unfold bindP, time_sleep. cbn.
  destruct (SyncObject.interval self) as [secs|]; [|done].
  by destruct (sleep_fault secs).
Qed.

End Loop.

(** X2. Started without [--interval], the program never begins a second
    turn: observed for any number of turns it ends as after one, it is not
    left looping, and when its one run completes it has printed the counts
    of that run, reset the counters, and died of the [TypeError] of
    [time.sleep(None)]. *)
Theorem no_interval_one_turn (fault : op -> option error)
    (abspath : string -> path) (sleep_fault : Z -> option exn)
    (turns fuel : nat) (args : Namespace.t) (p : process) :
  Namespace.interval args = None ->
  main fault abspath sleep_fault (S turns) fuel args p
  = main fault abspath sleep_fault 1 fuel args p /\
  fst (main fault abspath sleep_fault 1 fuel args p) <> StillLooping /\
  forall sync p0 st1,
    parse_arguments fault abspath args p = (Returned sync, p0) ->
    compare_folders fault fuel (Folder.root_path (SyncObject.source sync))
      (Folder.root_path (SyncObject.replica sync)) (mem p0) = (Ok tt, st1) ->
    main fault abspath sleep_fault 1 fuel args p
    = (Uncaught TypeError, after_turn p0 st1).
Proof.
  intros Hi.
  pose proof (parse_arguments_returns fault abspath args p) as Hr.
  destruct (parse_arguments fault abspath args p) as [r p0] eqn:E.
  simpl in Hr.
  assert (forall sync, r = Returned sync -> SyncObject.interval sync = None)
    as Hnone.
  { intros sync ->. by rewrite Hr. }
  assert (forall t, main fault abspath sleep_fault (S t) fuel args p =
    match r with
    | Returned sync =>
        match compare_folders fault fuel
                (Folder.root_path (SyncObject.source sync))
                (Folder.root_path (SyncObject.replica sync)) (mem p0) with
        | (Ok _, st1) => (Uncaught TypeError, after_turn p0 st1)
        | (Raise e, st1) => (Uncaught (OSError e), Process st1 (stdout p0))
        | (OutOfFuel, st1) => (TooDeep, Process st1 (stdout p0))
        end
    | Uncaught x => (Uncaught x, p0)
    | StillLooping => (StillLooping, p0)
    | TooDeep => (TooDeep, p0)
    end) as Hmain.
  { intros t. unfold main. unfold bindP at 1. rewrite E.
    destruct r as [sync|x| |]; try done.
    destruct (compare_folders fault fuel _ _ (mem p0)) as [[[]|e|] st1] eqn:Ecf.
    - by rewrite (turn_ok _ _ _ _ _ _ _ Ecf), (Hnone sync eq_refl).
    - by rewrite (turn_raise _ _ _ _ _ _ _ _ Ecf).
    - by rewrite (turn_fuel _ _ _ _ _ _ _ Ecf). }
  split_and!.
  - by rewrite !Hmain.
  - rewrite Hmain. destruct r as [sync|x| |]; try done.
    by destruct (compare_folders _ _ _ _ _) as [[[]|e|] st1].
  - intros sync p1 st1 [= -> ->] Ecf. by rewrite Hmain, Ecf.
Qed.

Lemma no_interval_one_turn_witness :
  main no_fault abspath_root sleep_nonneg 4 2 args_no_interval (boot tree_fresh)
  = main no_fault abspath_root sleep_nonneg 1 2 args_no_interval (boot tree_fresh) /\
  fst (main no_fault abspath_root sleep_nonneg 1 2 args_no_interval
         (boot tree_fresh)) <> StillLooping /\
  forall sync p0 st1,
    parse_arguments no_fault abspath_root args_no_interval (boot tree_fresh)
    = (Returned sync, p0) ->
    compare_folders no_fault 2 (Folder.root_path (SyncObject.source sync))
      (Folder.root_path (SyncObject.replica sync)) (mem p0) = (Ok tt, st1) ->
    main no_fault abspath_root sleep_nonneg 1 2 args_no_interval (boot tree_fresh)
    = (Uncaught TypeError, after_turn p0 st1).
Proof.
  apply (no_interval_one_turn no_fault abspath_root sleep_nonneg 3 2
           args_no_interval (boot tree_fresh)).
  reflexivity.
Defined.

(** X3. The lines of counts add up to the log: from counters at zero, as
    the constructor leaves them, and however the observation of the loop
    ends, the created, copied and deleted numbers printed so far sum to the
    numbers of "create", "copy" and "delete" records the completed turns
    appended to the log; records after these are those of a turn that did not
    complete, and there are none, and one line for each turn, while the loop
    goes on. *)
Theorem printed_totals (fault : op -> option error)
    (sleep_fault : Z -> option exn) (turns fuel : nat) (self : SyncObject.t)
    (p : process) (r : ending Empty_set) (p' : process) :
  file_created_count (mem p) = 0 ->
  file_copied_count (mem p) = 0 ->
  file_deleted_count (mem p) = 0 ->
  compare_root_loop fault sleep_fault turns fuel self p = (r, p') ->
  exists printed written rest,
    stdout p' = stdout p ++ printed /\
    log_lines (mem p') = log_lines (mem p) ++ written ++ rest /\
    sum_list (created <$> printed) = count_kind Create written /\
    sum_list (copied <$> printed) = count_kind Copy written /\
    sum_list (deleted <$> printed) = count_kind Delete written /\
    (r = StillLooping -> rest = [] /\ length printed = turns).
Proof.
  revert p. induction turns as [|turns IH]; intros p H1 H2 H3 E.
  { injection E as <- <-. exists [], [], []. rewrite !app_nil_r.
    by split_and!. }
  destruct (compare_folders fault fuel
              (Folder.root_path (SyncObject.source self))
              (Folder.root_path (SyncObject.replica self)) (mem p))
    as [[[]|e|] st1] eqn:Ecf.
  - destruct (compare_folders_disciplined fault fuel _ _ _ _ _ Ecf)
      as (evs & _ & _ & _ & Hl & Hc).
    destruct (Hc eq_refl) as (C1 & C2 & C3). rewrite H1 in C1. rewrite H2 in C2.
    rewrite H3 in C3. simpl in C1, C2, C3.
    rewrite (turn_ok _ _ _ _ _ _ _ Ecf) in E.
    assert (forall x, (Uncaught x, after_turn p st1) = (r, p') ->
      exists printed written rest,
        stdout p' = stdout p ++ printed /\
        log_lines (mem p') = log_lines (mem p) ++ written ++ rest /\
        sum_list (created <$> printed) = count_kind Create written /\
        sum_list (copied <$> printed) = count_kind Copy written /\
        sum_list (deleted <$> printed) = count_kind Delete written /\
        (r = StillLooping -> rest = [] /\ length printed = S turns)) as Hstop.
    { intros x [= <- <-]. eexists [_], (logs_of evs), [].
      rewrite app_nil_r. cbn. rewrite C1, C2, C3.
      split_and!; try done; lia. }
    destruct (SyncObject.interval self) as [secs|]; [|by eapply Hstop].
    destruct (sleep_fault secs); [by eapply Hstop|].
    apply IH in E as (printed & written & rest & Ho & Hlog & S1 & S2 & S3 & Hr);
      try done.
    eexists (_ :: printed), (logs_of evs ++ written), rest.
    rewrite Ho, Hlog. cbn. rewrite Hl, !count_kind_app, C1, C2, C3, S1, S2, S3.
    rewrite <- !app_assoc. split_and!; try done.
    intros Hr'. destruct (Hr Hr') as [-> <-]. done.
  - destruct (compare_folders_disciplined fault fuel _ _ _ _ _ Ecf)
      as (evs & _ & _ & _ & Hl & _).
    rewrite (turn_raise _ _ _ _ _ _ _ _ Ecf) in E. injection E as <- <-.
    exists [], [], (logs_of evs). rewrite app_nil_r. by split_and!.
  - destruct (compare_folders_disciplined fault fuel _ _ _ _ _ Ecf)
      as (evs & _ & _ & _ & Hl & _).
    rewrite (turn_fuel _ _ _ _ _ _ _ Ecf) in E. injection E as <- <-.
    exists [], [], (logs_of evs). rewrite app_nil_r. by split_and!.
Qed.

Lemma printed_totals_witness :
  exists printed written rest,
    stdout (snd (compare_root_loop no_fault sleep_nonneg 2 2 sync_every_second
                   (boot tree_mixed)))
    = stdout (boot tree_mixed) ++ printed /\
    log_lines (mem (snd (compare_root_loop no_fault sleep_nonneg 2 2
                           sync_every_second (boot tree_mixed))))
    = log_lines (mem (boot tree_mixed)) ++ written ++ rest /\
    sum_list (created <$> printed) = count_kind Create written /\
    sum_list (copied <$> printed) = count_kind Copy written /\
    sum_list (deleted <$> printed) = count_kind Delete written /\
    (fst (compare_root_loop no_fault sleep_nonneg 2 2 sync_every_second
            (boot tree_mixed)) = StillLooping ->
     rest = [] /\ length printed = 2).
Proof.
  apply (printed_totals no_fault sleep_nonneg 2 2 sync_every_second
           (boot tree_mixed)
           (fst (compare_root_loop no_fault sleep_nonneg 2 2 sync_every_second
                   (boot tree_mixed)))
           (snd (compare_root_loop no_fault sleep_nonneg 2 2 sync_every_second
                   (boot tree_mixed)))).
  - reflexivity.
  - reflexivity.
  - reflexivity.
  - vm_compute. reflexivity.
Defined.

(** Turns on a settled replica print zeros and change nothing. *)
Lemma quiet_turns (sleep_fault : Z -> option exn) (n : nat)
    (self : SyncObject.t) (s r : gmap string node) (secs : Z) (turns : nat) :
  apart (Folder.root_path (SyncObject.source self))
        (Folder.root_path (SyncObject.replica self)) = true ->
  depth (Dir s) <= n ->
  settled n s r ->
  SyncObject.interval self = Some secs ->
  sleep_fault secs = None ->
  forall p,
    lookup_path (fs (mem p)) (Folder.root_path (SyncObject.source self))
    = Some (Dir s) ->
    lookup_path (fs (mem p)) (Folder.root_path (SyncObject.replica self))
    = Some (Dir r) ->
    (forall k, counter k (mem p) = 0) ->
    exists p',
      compare_root_loop no_fault sleep_fault turns n self p = (StillLooping, p') /\
      fs (mem p') = fs (mem p) /\
      log_lines (mem p') = log_lines (mem p) /\
      stdout p' = stdout p ++ replicate turns (0, 0, 0).
Proof.
  intros Hap Hd Hset Hi Hsl.
  induction turns as [|turns IH]; intros p Hs Hr Hc.
  { exists p. by rewrite app_nil_r. }
  destruct (compare_folders_settled n _ _ (mem p) s r Hap Hs Hr Hd Hset)
    as (st1 & E & Hfs & Hlog & Hcnt & _).
  rewrite (turn_ok _ _ _ _ _ _ _ E), Hi, Hsl.
  destruct (IH (after_turn p st1)) as (p' & E' & Hfs' & Hlog' & Hout').
  - cbn. by rewrite Hfs.
  - cbn. by rewrite Hfs.
  - by intros [].
  - exists p'. split; [done|]. rewrite Hfs', Hlog', Hout'. cbn.
    pose proof (Hcnt Create) as C1. pose proof (Hcnt Copy) as C2.
    pose proof (Hcnt Delete) as C3.
    rewrite (Hc Create) in C1. rewrite (Hc Copy) in C2. rewrite (Hc Delete) in C3.
    simpl in C1, C2, C3. rewrite C1, C2, C3, <- app_assoc.
    by split_and!.
Qed.



(** ** Runs of [compare_folders] *)

(** X5. A root that is no directory ends the run at once: when the source
    or the replica is missing or is a regular file the run raises at the
    first listing, whatever else the system does, and nothing was written:
    same tree, same log, same counters, and the failed call as the only
    event. *)
Theorem unlistable_root (fault : op -> option error) (fuel : nat)
    (src repl : path) (st : state) :
  is_dir (lookup_path (fs st) src) = false \/
  is_dir (lookup_path (fs st) repl) = false ->
  exists e st',
    compare_folders fault (S fuel) src repl st = (Raise e, st') /\
    fs st' = fs st /\
    log_lines st' = log_lines st /\
    (forall k, counter k st' = counter k st) /\
    exists o, trace st' = trace st ++ [Failed o e].
Proof.
  intros H. cbn [compare_folders]. unfold bind at 1. unfold dircmp_scan.
  destruct (os_listdir fault (fs st) src) as [e|la] eqn:Ela.
  { exists e. eexists. split; [reflexivity|].
    split_and!; first [done | by intros [] | by eexists]. }
  destruct (os_listdir fault (fs st) repl) as [e|lb] eqn:Elb.
  { exists e. eexists. split; [reflexivity|].
    split_and!; first [done | by intros [] | by eexists]. }
  apply os_listdir_is_dir in Ela, Elb. destruct H; congruence.
Qed.

Lemma unlistable_root_witness :
  exists e st',
    compare_folders no_fault 2 ["gone"] ["repl"] (init tree_vcs) = (Raise e, st') /\
    fs st' = fs (init tree_vcs) /\
    log_lines st' = log_lines (init tree_vcs) /\
    (forall k, counter k st' = counter k (init tree_vcs)) /\
    exists o, trace st' = trace (init tree_vcs) ++ [Failed o e].
Proof.
  apply (unlistable_root no_fault 1 ["gone"] ["repl"] (init tree_vcs)).
  left. reflexivity.
Defined.

Lemma skipped_unclassified (fault : op -> option error) (t : node)
    (src repl : path) (k : string) (la lb : list string) :
  skipped k = true ->
  let c := dircmp_of fault t src repl la lb in
  (k ∉ common_dirs c) /\ (k ∉ left_only c) /\ (k ∉ right_only c) /\
  k ∉ common_files c.
Proof.
  intros Hk c. unfold c.
  rewrite elem_of_common_dirs, elem_of_common_files, elem_of_left_only,
    elem_of_right_only, elem_of_common.
  split_and!; intros H; destruct_and?; congruence.
Qed.

(** X6. An entry of the replica root whose name is on the ignore list of
    [dircmp] (or is [.] or [..]) is left alone by every run, whatever the
    source holds and whatever fails: no write targets it or anything below
    it, and it is the same node afterwards. *)
Theorem ignored_untouched (fault : op -> option error) (fuel : nat)
    (src repl : path) (k : string) (st : state) (r : outcome unit)
    (st' : state) :
  skipped k = true ->
  compare_folders fault fuel src repl st = (r, st') ->
  lookup_path (fs st') (repl ++ [k]) = lookup_path (fs st) (repl ++ [k]) /\
  exists evs,
    trace st' = trace st ++ evs /\
    fs st' = replay evs (fs st) /\
    Forall (avoids (repl ++ [k])) evs.
Proof.
  intros Hk E.
  destruct (unclassified_untouched fault fuel src repl k st r st')
    as (Hsame & evs & Ht & Hav); [|done|].
  { intros la lb _ _. by apply skipped_unclassified. }
  destruct (compare_folders_disciplined fault fuel src repl _ _ _ E)
    as (evs' & Ht' & Hf & _).
  split; [done|]. exists evs. split_and!; try done.
  rewrite Ht in Ht'. apply app_inv_head in Ht'. by subst.
Qed.

Lemma ignored_untouched_witness :
  lookup_path
    (fs (snd (compare_folders no_fault 2 ["src"] ["repl"] (init tree_vcs))))
    (["repl"] ++ [".git"])
  = lookup_path (fs (init tree_vcs)) (["repl"] ++ [".git"]) /\
  exists evs,
    trace (snd (compare_folders no_fault 2 ["src"] ["repl"] (init tree_vcs)))
    = trace (init tree_vcs) ++ evs /\
    fs (snd (compare_folders no_fault 2 ["src"] ["repl"] (init tree_vcs)))
    = replay evs (fs (init tree_vcs)) /\
    Forall (avoids (["repl"] ++ [".git"])) evs.
Proof.
  apply (ignored_untouched no_fault 2 ["src"] ["repl"] ".git" (init tree_vcs)
           (Ok tt)).
  - reflexivity.
  - vm_compute. reflexivity.
Defined.

(** X14. An entry that cannot be examined is left alone: a name that both
    roots hold and on which [os.stat] fails, on either side, is in none of
    the lists the run acts on; whatever else fails and however the run ends,
    no write targets the replica's entry or anything below it, and it is the
    same node afterwards. *)
Theorem unexaminable_untouched (fault : op -> option error) (fuel : nat)
    (src repl : path) (k : string) (e : error) (st : state)
    (r : outcome unit) (st' : state) :
  is_Some (lookup_path (fs st) (src ++ [k])) ->
  is_Some (lookup_path (fs st) (repl ++ [k])) ->
  fault (Stat (src ++ [k])) = Some e \/ fault (Stat (repl ++ [k])) = Some e ->
  compare_folders fault fuel src repl st = (r, st') ->
  lookup_path (fs st') (repl ++ [k]) = lookup_path (fs st) (repl ++ [k]) /\
  exists evs,
    trace st' = trace st ++ evs /\
    fs st' = replay evs (fs st) /\
    Forall (avoids (repl ++ [k])) evs.
Proof.
  intros Ha Hb Hf E.
  destruct (unclassified_untouched fault fuel src repl k st r st')
    as (Hsame & evs & Ht & Hav); [|done|].
  { intros la lb Hla Hlb c. unfold c.
    apply (os_listdir_elem _ _ _ _ k Hla) in Ha.
    apply (os_listdir_elem _ _ _ _ k Hlb) in Hb.
    assert (classify_common fault (fs st) src repl k = CFunny) as Hc.
    { unfold classify_common, os_stat.
      destruct Hf as [-> | ->]; [done|].
      destruct (fault (Stat (src ++ [k]))); [done|].
      by destruct (lookup_path (fs st) (src ++ [k])) as [[|]|]. }
    rewrite elem_of_common_dirs, elem_of_common_files, elem_of_left_only,
      elem_of_right_only, Hc.
    split_and!; intros H; destruct_and?; done. }
  destruct (compare_folders_disciplined fault fuel src repl _ _ _ E)
    as (evs' & Ht' & Hfs & _).
  split; [done|]. exists evs. split_and!; try done.
  rewrite Ht in Ht'. apply app_inv_head in Ht'. by subst.
Qed.

Lemma unexaminable_untouched_witness :
  lookup_path
    (fs (snd (compare_folders (fault_stat_at ["src"; "a.txt"]) 2 ["src"] ["repl"]
                (init tree_differ))))
    (["repl"] ++ ["a.txt"])
  = lookup_path (fs (init tree_differ)) (["repl"] ++ ["a.txt"]) /\
  exists evs,
    trace (snd (compare_folders (fault_stat_at ["src"; "a.txt"]) 2 ["src"] ["repl"]
                  (init tree_differ)))
    = trace (init tree_differ) ++ evs /\
    fs (snd (compare_folders (fault_stat_at ["src"; "a.txt"]) 2 ["src"] ["repl"]
               (init tree_differ)))
    = replay evs (fs (init tree_differ)) /\
    Forall (avoids (["repl"] ++ ["a.txt"])) evs.
Proof.
  apply (unexaminable_untouched (fault_stat_at ["src"; "a.txt"]) 2 ["src"] ["repl"]
           "a.txt" PermissionDenied (init tree_differ) (Ok tt)).
  - by eexists.
  - by eexists.
  - left. reflexivity.
  - vm_compute. reflexivity.
Defined.

(** What a run that computes [sync] leaves at the two roots. *)
Lemma run_roots (n : nat) (src repl : path) (st : state)
    (s r : gmap string node) :
  apart src repl = true ->
  lookup_path (fs st) src = Some (Dir s) ->
  lookup_path (fs st) repl = Some (Dir r) ->
  depth (Dir s) <= n ->
  exists st',
    compare_folders no_fault n src repl st = (Ok tt, st') /\
    (forall q, lookup_path (fs st') (src ++ q) = lookup_path (fs st) (src ++ q)) /\
    lookup_path (fs st') repl = Some (Dir (sync n s r)).
Proof.
  intros Hap Hs Hr Hd.
  destruct (compare_folders_sync n src repl st s r Hap Hs Hr Hd)
    as (st' & E & Hfs).
  exists st'. split_and!; [done | |].
  - intros q. rewrite Hfs. apply lookup_put_apart. rewrite apart_sym.
    apply apart_below. by rewrite apart_sym.
  - rewrite Hfs. by eapply lookup_put_same.
Qed.



Lemma sync_empty_source (n : nat) (r : gmap string node) :
  sync (S n) ∅ r = filter (fun kv => skipped kv.1 = true) r.
Proof.
  apply map_eq. intros k. rewrite sync_lookup, lookup_empty.
  unfold sync_entry. apply option_eq. intros v.
  rewrite map_lookup_filter_Some. simpl.
  destruct (skipped k); [tauto|]. split; [done | by intros [_ ?]].
Qed.





(** ** What the records of a copy name *)

Section Files.

Variable fault : op -> option error.
Variable I : node -> Prop.
Variable Q : list event -> Prop.
Hypothesis Q_nil : Q [].
Hypothesis Q_failed : forall o e, Q [Failed o e].
Hypothesis Q_listed : forall p names, Q [Listed p names].
Context `{!Monoidal Q}.

Lemma copy_file_emits (src dest : path) (file : string) (new : bool) :
  Q [Logged (if new then Create else Copy) (src ++ [file])] ->
  (forall dst,
      dst = dest ++ [file] \/
      (dst = dest /\ ~ (forall t, I t -> is_dir (lookup_path t dest) = true)) ->
      adm I Q (PutFile (src ++ [file]) dst)) ->
  sat (emits I Q)
    (copy2 fault (src ++ [file]) dest ;;;
     (if new
      then (incr_created ;;; write_log fault Create (src ++ [file]))
      else (incr_copied ;;; write_log fault Copy (src ++ [file])))).
Proof.
  intros Hlog Hput.
  apply sat_bind; [apply _ | |intros _].
  { apply copy2_emits; try done. intros dst Hdst. apply Hput.
    by rewrite basename_app in Hdst. }
  destruct new.
  - by apply (count_and_log_emits fault I Q Q_failed Create).
  - by apply (count_and_log_emits fault I Q Q_failed Copy).
Qed.

(** [copy_files] on names none of which is a directory while [I] holds. *)
Lemma copy_files_of_files (l : list string) (src dest : path) (new : bool) :
  (forall x t, x ∈ l -> I t -> os_path_isdir fault t (src ++ [x]) = false) ->
  (forall x, x ∈ l -> Q [Logged (if new then Create else Copy) (src ++ [x])]) ->
  (forall x dst, x ∈ l ->
      dst = dest ++ [x] \/
      (dst = dest /\ ~ (forall t, I t -> is_dir (lookup_path t dest) = true)) ->
      adm I Q (PutFile (src ++ [x]) dst)) ->
  sat (emits I Q) (copy_files fault l src dest new).
Proof.
  intros Hfile Hlog Hput.
  unfold copy_files. apply sat_for_each; [apply _|]. intros file Hin.
  change (basename [file]) with file.
  intros st r st' E HI. unfold bind at 1 in E. unfold isdir in E.
  rewrite (Hfile file (fs st) Hin HI) in E.
  apply (copy_file_emits src dest file new (Hlog file Hin)
           (fun dst => Hput file dst Hin) st r st' E HI).
Qed.

End Files.

Lemma classified_file (fault : op -> option error) (t : node) (a b : path)
    (x : string) :
  classify_common fault t a b x = CFile ->
  fault (Stat (a ++ [x])) = None /\ is_file (lookup_path t (a ++ [x])) = true.
Proof.
  unfold classify_common, os_stat.
  destruct (fault (Stat (a ++ [x]))); [done|].
  destruct (lookup_path t (a ++ [x])) as [[|]|]; try done.
  destruct (fault (Stat (b ++ [x]))); [done|].
  by destruct (lookup_path t (b ++ [x])) as [[|]|].
Qed.

Lemma elem_of_logs_of (k : kind) (p : path) (evs : list event) :
  (k, p) ∈ logs_of evs <-> Logged k p ∈ evs.
Proof.
  induction evs as [|e evs IH].
  { split; intros H; by apply elem_of_nil in H. }
  change (e :: evs) with ([e] ++ evs) at 1. rewrite logs_of_app.
  rewrite elem_of_app, elem_of_cons, IH.
  destruct e; simpl; rewrite ?elem_of_nil, ?list_elem_of_singleton;
    split; intros [H|H]; try done; auto; try discriminate H;
    injection H as -> ->; auto.
Qed.

Section Copies.

Variable fault : op -> option error.
Variable t0 : node.

(** While the source stays what it is in [t0], the overwriting stage meets
    regular files only, at every level. *)
Lemma copies_name_files (n : nat) :
  forall (src repl : path) (I : node -> Prop),
    (forall t w v, I t -> inside repl w -> I (put t w v)) ->
    (forall t q, I t -> lookup_path t (src ++ q) = lookup_path t0 (src ++ q)) ->
    sat (emits I (Forall (copy_of_file t0 src))) (compare_folders fault n src repl).
Proof.
  induction n as [|n IH]; intros src repl I Hst Hsrc.
  { intros st r st' [= <- <-] HI. split; [done|]. exists [].
    by rewrite app_nil_r. }
  intros st r st' E HI.
  set (Q := Forall (copy_of_file t0 src)).
  set (I' := fun t => I t /\ is_dir (lookup_path t repl) = true).
  assert (forall a, inside repl (target a) -> adm I' Q a) as Hadm.
  { intros a Ha. split; [by repeat constructor|].
    intros t [HIt Hd]. destruct (apply_action_put t a) as [v ->].
    split; [by apply Hst|]. destruct Ha as (x & q & ->).
    by apply is_dir_put_below. }
  destruct (level_emits fault I' Q Q Q Q n src repl st r st' E)
    as [(o & e & -> & Hfs & Ht)|
        (la & lb & e1 & e2 & e3 & e4 & Hla & Hlb & [HI' _] & Ht & H1 & H2 & H3 & H4)].
  - intros la lb Hla Hlb c.
    split_and!; try by constructor.
    + split; [done|]. by apply os_listdir_is_dir in Hlb.
    + apply sat_for_each; [apply _|]. intros d _.
      eapply emits_mono; [|apply (IH (src ++ [d]) (repl ++ [d]) I')].
      * intros evs Hevs. eapply Forall_impl; [exact Hevs|].
        intros [| | |[] p|] Hev; try done. destruct Hev as [Hf Hin].
        split; [done|]. by apply inside_child in Hin.
      * intros t w v [HIt Hd] Hw. apply inside_child in Hw.
        split; [by apply Hst|]. destruct Hw as (x & q & ->).
        by apply is_dir_put_below.
      * intros t q [HIt _]. rewrite <- !app_assoc. by apply Hsrc.
    + apply copy_files_emits; try by repeat constructor.
      * apply _.
      * intros x _. apply Hadm, inside_self.
      * intros x dst _ [->|[-> Hno]]; [apply Hadm, inside_self|].
        destruct Hno. by intros t' [_ ?].
    + apply delete_files_emits; try by repeat constructor.
      * apply _.
      * intros x _. split; apply Hadm, inside_self.
    + intros diff Hsub. apply copy_files_of_files; try by repeat constructor.
      * apply _.
      * intros x t Hx [HIt _]. apply Hsub in Hx.
        apply elem_of_common_files in Hx as [_ Hx].
        apply classified_file in Hx as [Hno Hx].
        rewrite (Hsrc _ [x] HI), <- (Hsrc _ [x] HIt) in Hx.
        unfold os_path_isdir, os_stat. rewrite Hno.
        by destruct (lookup_path t (src ++ [x])) as [[|]|].
      * intros x Hx. apply Hsub in Hx.
        apply elem_of_common_files in Hx as [_ Hx].
        apply classified_file in Hx as [_ Hx].
        rewrite (Hsrc _ [x] HI) in Hx.
        constructor; [|constructor]. split; [done | apply inside_self].
      * intros x dst _ [->|[-> Hno]]; [apply Hadm, inside_self|].
        destruct Hno. by intros t' [_ ?].
  - rewrite Hfs. split; [done|]. exists [Failed o e]. split; [done|].
    by repeat constructor.
  - split; [done|]. eexists. split; [exact Ht|].
    constructor; [done|]. unfold Q in *. by rewrite !Forall_app.
Qed.

End Copies.



(** ** The methods on their own *)

Lemma log_each_total (fault : op -> option error) (k : kind) (p : path)
    (names : list string) (st : state) :
  fault AppendLog = None ->
  exists st',
    for_each names (fun file => incr k ;;; write_log fault k (p ++ [file])) st
    = (Ok tt, st').
Proof.
  intros Hf. revert st. induction names as [|f names IH]; intros st.
  { by eexists. }
  assert (exists s1, (incr k ;;; write_log fault k (p ++ [f])) st = (Ok tt, s1))
    as (s1 & E1).
  { unfold bind, write_log. destruct k; simpl; rewrite Hf; by eexists. }
  destruct (IH s1) as (s2 & E2). exists s2. cbn [for_each].
  by rewrite (bind_ok _ _ _ _ _ E1).
Qed.



Lemma lookup_put_new (t : node) (p : path) (m : gmap string node)
    (x : string) (v : node) :
  lookup_path t p = Some (Dir m) ->
  lookup_path (put t (p ++ [x]) (Some v)) (p ++ [x]) = Some v.
Proof.
  intros Hp. rewrite (put_child _ _ _ _ _ Hp).
  rewrite (lookup_put_below _ _ _ _ _ Hp). simpl.
  by rewrite lookup_partial_alter_eq.
Qed.

(** X12. A file that [copy_files] has copied compares as the same: for a
    regular file of [src], a directory [dest] apart from it whose entry of
    that name is absent or a regular file, on a system where no call fails,
    the call completes, the destination entry is a file with the bytes and
    the time of the source file, which is as it was, and [filecmp.cmp] on
    the pair gives true, so that [diff_files] no longer lists the name. *)
Theorem copied_file_compares_same (new : bool) (src dest : path) (x : string)
    (d : string) (t : Z) (st : state) :
  apart src dest = true ->
  lookup_path (fs st) (src ++ [x]) = Some (File d t) ->
  is_dir (lookup_path (fs st) dest) = true ->
  is_dir (lookup_path (fs st) (dest ++ [x])) = false ->
  exists st',
    copy_files no_fault [x] src dest new st = (Ok tt, st') /\
    lookup_path (fs st') (dest ++ [x]) = Some (File d t) /\
    lookup_path (fs st') (src ++ [x]) = Some (File d t) /\
    filecmp_cmp no_fault (fs st') (src ++ [x]) (dest ++ [x]) = Some true /\
    diff_files no_fault (fs st') src dest [x] = [].
Proof.
  intros Hap Hs Hd Hx.
  assert (src <> dest) as Hne.
  { intros ->. by rewrite apart_irrefl in Hap. }
  destruct (copy2_run src dest x d t st Hs Hd Hx Hne) as (s1 & E1 & F1).
  destruct (log_one_run (if new then Create else Copy) (src ++ [x]) s1)
    as (s2 & E2 & F2).
  destruct (lookup_path (fs st) dest) as [[|m]|] eqn:Hm; try done.
  assert (lookup_path (fs s2) (dest ++ [x]) = Some (File d t)) as Hdst.
  { rewrite F2, F1. by eapply lookup_put_new. }
  assert (lookup_path (fs s2) (src ++ [x]) = Some (File d t)) as Hsrc.
  { rewrite F2, F1, lookup_put_apart; [done|]. by apply apart_children. }
  assert (filecmp_cmp no_fault (fs s2) (src ++ [x]) (dest ++ [x]) = Some true)
    as Hcmp.
  { unfold filecmp_cmp, os_stat, no_fault. rewrite Hsrc, Hdst.
    unfold sig_eqb. by rewrite bool_decide_eq_true_2. }
  exists s2. split_and!; try done.
  - apply for_each_single. change (basename [x]) with x.
    unfold bind at 1. unfold isdir. rewrite isdir_no_fault, Hs. simpl.
    rewrite (bind_ok _ _ _ _ _ E1). by destruct new.
  - unfold diff_files. cbn [filter list_filter]. unfold _cmp. rewrite Hcmp.
    by rewrite decide_False by done.
Qed.

Lemma copied_file_compares_same_witness :
  exists st',
    copy_files no_fault ["a.txt"] ["src"] ["repl"] false (init tree_differ)
    = (Ok tt, st') /\
    lookup_path (fs st') (["repl"] ++ ["a.txt"]) = Some (File "X" 2) /\
    lookup_path (fs st') (["src"] ++ ["a.txt"]) = Some (File "X" 2) /\
    filecmp_cmp no_fault (fs st') (["src"] ++ ["a.txt"]) (["repl"] ++ ["a.txt"])
    = Some true /\
    diff_files no_fault (fs st') ["src"] ["repl"] ["a.txt"] = [].
Proof.
  apply (copied_file_compares_same false ["src"] ["repl"] "a.txt" "X" 2
           (init tree_differ)); reflexivity.
Defined.

(** ** The text of a record *)

Lemma append_newline_inj (f f' : string) :
  f +:+ newline = f' +:+ newline -> f = f'.
Proof.
  revert f'. induction f as [|a f IH]; intros [|a' f']; simpl; try done.
  - intros [= _ H]. by destruct f'.
  - intros [= _ H]. by destruct f.
  - intros [= -> H]. f_equal. by apply IH.
Qed.

(** X13. A line of the log tells its action and its file: two calls of
    [write_log] that write the same line were given the same type and the
    same file name. *)
Theorem log_line_inj (type file type' file' line : string) :
  log_line type file = Some line ->
  log_line type' file' = Some line ->
  type = type' /\ file = file'.
Proof.
  unfold log_line.
  destruct (String.eqb_spec type "create") as [->|_];
    [|destruct (String.eqb_spec type "copy") as [->|_];
      [|destruct (String.eqb_spec type "delete") as [->|_]; [|done]]];
  (destruct (String.eqb_spec type' "create") as [->|_];
    [|destruct (String.eqb_spec type' "copy") as [->|_];
      [|destruct (String.eqb_spec type' "delete") as [->|_]; [|done]]]);
  intros [= <-]; simpl; intros H; try discriminate H;
  injection H as H; apply append_newline_inj in H; by subst.
Qed.

Lemma log_line_inj_witness :
  type_of Copy = type_of Copy /\ "/src/a.txt" = "/src/a.txt".
Proof.
  apply (log_line_inj (type_of Copy) "/src/a.txt" (type_of Copy) "/src/a.txt"
           ("Copied file: /src/a.txt" +:+ newline)); reflexivity.
Defined.
